(** * pwalk_core: parallel file-system walker writing CSV records

    Shallow embedding of [src/pwalk_ext/pwalk_core.c].

    - The pure helpers ([csv_escape], [strrchr], the [snprintf] line of
      [write_record]) are functions on strings.
    - The stateful code ([flush_buffer], [write_record], [traverse],
      [csv_write]) passes an explicit [state] holding the C globals.
    - Threads are call stacks of [frame]s; [step] runs one atomic action
      of one thread, so every interleaving of the workers is a schedule
      (a list of thread indices).  An action is one [opendir], one
      iteration of the [readdir] loop, the summary record, the flush at
      [cleanup], or the release of the slot; each holds at most one
      critical section of the source ([mutexFD] or [mutexOutput]), the
      rest of it works on the thread's own frame, cell and slot.
    - The operating system is an oracle: the answers of [opendir],
      [readdir] and [lstat] are given by a [dirent] tree, the sink by a
      [FILE] with a finite capacity after which writes fail.

    What the model takes for granted:
    - The tree of answers is finite.  A walk whose answers never end (a
      directory whose path fills [fullpath], so that the path composed
      for each of its entries is the directory's own path again) has no
      such tree; nothing below says that a walk ends.
    - [localSz], which adds up file sizes, wraps around as a [long] does
      in the compiled code.  The counters that count threads, entries of
      one directory or nesting levels ([ThreadCNT], [totalTHRDS],
      [localCnt], [depth], [flag]) are computed in [Z]: they stay far
      below the limits of their types.
    - A write past the end of a fixed array is not followed: the text of
      a line is what the format string expands to when [esc_name] and
      [esc_ext] hold the escaped strings (see [escaped_fields_fit] for
      when they do).
    - [pthread_create] and [ZSTD_createCStream] are taken to succeed.
    - [csv_write] is embedded from the point where [PyArg_ParseTuple]
      has succeeded; its argument record holds the five parsed values.
    - When the entry point gives up waiting, it finalizes and closes the
      stream while workers are still running, without a lock.  The
      worker steps that fall between the statements of the finalization
      are followed (see [csv_write_finish]); a worker step cut in two by
      one of these statements, and what workers do to the closed stream
      after the return, are not. *)

From Stdlib Require Import ZArith Lia Bool Ascii String DecimalFacts DecimalString.
From stdpp Require Import base list.

Open Scope string_scope.
Open Scope list_scope.
Open Scope Z_scope.

Set Warnings "-register-all".

(** ** Constants of the source *)

Definition MAXTHRDS : Z := 32.
Definition MAXPATH : Z := 4096.
Definition BUFFER_SIZE : Z := 512 * 1024.

(** ** struct stat, with the fields the walker prints *)

Record stat := mkStat {
  st_ino : Z; st_dev : Z; st_nlink : Z; st_mode : Z;
  st_uid : Z; st_gid : Z; st_size : Z; st_blocks : Z;
  st_atime : Z; st_mtime : Z; st_ctime : Z
}.

Definition S_IFMT : Z := 61440.   (* 0170000 *)
Definition S_IFDIR : Z := 16384.  (* 0040000 *)
Definition S_ISDIR (m : Z) : bool := Z.land m S_IFMT =? S_IFDIR.

(** ** C strings *)

(** [strrchr s c]: index of the last occurrence of [c] in [s]. *)
Fixpoint strrchr (s : string) (c : ascii) : option nat :=
  match s with
  | EmptyString => None
  | String a r =>
      match strrchr r c with
      | Some i => Some (S i)
      | None => if Ascii.eqb a c then Some 0%nat else None
      end
  end.

(** Pointer arithmetic [s + n] on a C string. *)
Fixpoint str_plus (s : string) (n : nat) : string :=
  match n, s with
  | O, _ => s
  | S k, String _ r => str_plus r k
  | S _, EmptyString => EmptyString
  end.

(** [snprintf(dst, size, ...)] keeps at most [size - 1] characters. *)
Fixpoint str_take (n : nat) (s : string) : string :=
  match n, s with
  | S k, String a r => String a (str_take k r)
  | _, _ => EmptyString
  end.

Definition strlen (s : string) : Z := Z.of_nat (String.length s).

Definition dquote : ascii := Ascii.ascii_of_nat 34.
Definition slash : ascii := Ascii.ascii_of_nat 47.
Definition dot : ascii := Ascii.ascii_of_nat 46.
Definition newline : ascii := Ascii.ascii_of_nat 10.

(** [csv_escape]: every double quote is doubled. *)
Fixpoint csv_escape (s : string) : string :=
  match s with
  | EmptyString => EmptyString
  | String a r =>
      if Ascii.eqb a dquote
      then String dquote (String dquote (csv_escape r))
      else String a (csv_escape r)
  end.

(** ** Number formats of [snprintf] *)

Definition wrap_ulong (z : Z) : Z := z mod 2 ^ 64.
Definition wrap_uint (z : Z) : Z := z mod 2 ^ 32.
Definition wrap_int (z : Z) : Z := (z + 2 ^ 31) mod 2 ^ 32 - 2 ^ 31.
Definition wrap_long (z : Z) : Z := (z + 2 ^ 63) mod 2 ^ 64 - 2 ^ 63.

(** %d, %ld, %u, %lu *)
Definition fmt_dec (z : Z) : string := NilZero.string_of_int (Z.to_int z).

Definition octal_digit (z : Z) : ascii := Ascii.ascii_of_nat (48 + Z.to_nat z).

Fixpoint fmt_oct_aux (fuel : nat) (z : Z) (acc : string) : string :=
  match fuel with
  | O => acc
  | S k =>
      let acc' := String (octal_digit (z mod 8)) acc in
      if z / 8 =? 0 then acc' else fmt_oct_aux k (z / 8) acc'
  end.

(** %o *)
Definition fmt_oct (z : Z) : string := fmt_oct_aux 22 z EmptyString.

(** ** The arguments of one [write_record] call *)

Record record := mkRecord {
  r_path : string;
  r_st : stat;
  r_parent_inode : Z;
  r_depth : Z;
  r_fcount : Z;
  r_dirsum : Z
}.

(** [filename = strrchr(path, '/'); filename = filename ? filename + 1 : path] *)
Definition filename_of (path : string) : string :=
  match strrchr path slash with
  | Some i => str_plus path (S i)
  | None => path
  end.

(** [ext = strrchr(filename, '.'); ext = (ext && ext > filename) ? ext + 1 : (empty)] *)
Definition ext_of (filename : string) : string :=
  match strrchr filename dot with
  | Some (S i) => str_plus filename (S (S i))
  | _ => EmptyString
  end.

Definition quoted (s : string) : string :=
  String dquote (String.append s (String dquote EmptyString)).

Fixpoint join_comma (l : list string) : string :=
  match l with
  | [] => EmptyString
  | [x] => x
  | x :: r => String.append x (String.append "," (join_comma r))
  end.

(** The fields of a line, in the order of the format string, each value
    in the C type it is printed at: [(unsigned long)] and [(long)] where
    the source casts, [int] for [depth], [unsigned] for %u and %o.  The
    fourth and fifth field are the contents of [esc_name] and [esc_ext]
    after [csv_escape], which checks no bound: this is the text for a
    filename and an extension whose escaped forms fit the two arrays
    ([MAXPATH * 2] and 256 bytes). *)
Definition record_fields (r : record) : list string :=
  let st := r_st r in
  let filename := filename_of (r_path r) in
  [ fmt_dec (wrap_ulong (st_ino st));
    fmt_dec (wrap_ulong (r_parent_inode r));
    fmt_dec (wrap_int (r_depth r));
    quoted (csv_escape filename);
    quoted (csv_escape (ext_of filename));
    fmt_dec (wrap_uint (st_uid st));
    fmt_dec (wrap_uint (st_gid st));
    fmt_dec (wrap_long (st_size st));
    fmt_dec (wrap_ulong (st_dev st));
    fmt_dec (wrap_long (st_blocks st));
    fmt_dec (wrap_ulong (st_nlink st));
    quoted (fmt_oct (wrap_uint (st_mode st)));
    fmt_dec (wrap_long (st_atime st));
    fmt_dec (wrap_long (st_mtime st));
    fmt_dec (wrap_long (st_ctime st));
    fmt_dec (wrap_long (r_fcount r));
    fmt_dec (wrap_long (r_dirsum r)) ].

(** What the format string of [write_record] expands to.  [snprintf]
    returns the length of this text; it stores at most
    [sizeof(line) - 1] characters of it. *)
Definition record_text (r : record) : string :=
  String.append (join_comma (record_fields r)) (String newline EmptyString).

Definition LINE_SIZE : Z := MAXPATH * 2.

(** ** The operating system as an oracle *)

(** One entry returned by [readdir]: its name, the answer of [lstat] on
    the composed path ([None]: lstat returns -1) and the answer of
    [opendir] on that path ([None]: opendir returns NULL).  The answers
    are those the calls of one walk received; being an inductive type,
    the tree holds finitely many of them. *)
Inductive dirent : Type :=
  Dirent (d_name : string) (lst : option stat) (sub : option (list dirent)).

Definition d_name (d : dirent) : string := let 'Dirent n _ _ := d in n.
Definition lst (d : dirent) : option stat := let 'Dirent _ l _ := d in l.
Definition sub (d : dirent) : option (list dirent) := let 'Dirent _ _ s := d in s.

Definition bytes := list ascii.

Definition bytes_of (s : string) : bytes := list_ascii_of_string s.
Arguments bytes_of : simpl never.

(** The output stream.  [f_room] is the number of bytes the device still
    accepts ([None]: no limit); a write that does not fit is cut short and
    sets the error indicator, as [fwrite] does. *)
Record FILE := mkFILE {
  f_open : bool;
  f_data : bytes;
  f_room : option nat;
  f_error : bool
}.

Definition fwrite (b : bytes) (f : FILE) : FILE :=
  match f_room f with
  | None => mkFILE (f_open f) (f_data f ++ b) None (f_error f)
  | Some room =>
      if (length b <=? room)%nat
      then mkFILE (f_open f) (f_data f ++ b) (Some (room - length b)%nat) (f_error f)
      else mkFILE (f_open f) (f_data f ++ take room b) (Some 0%nat) true
  end.

Definition fclose (f : FILE) : FILE :=
  mkFILE false (f_data f) (f_room f) (f_error f).

(** ** Thread-local CSV buffer *)

Record ThreadBuffer := mkBuf {
  csv_buffer : bytes;
  used : Z
}.

(** The bytes of the cell that are in use. *)
Definition pending (b : ThreadBuffer) : bytes := take (Z.to_nat (used b)) (csv_buffer b).

(** [memcpy(buf->csv_buffer + buf->used, line, len); buf->used += len] *)
Definition buf_append (b : ThreadBuffer) (line : bytes) (len : Z) : ThreadBuffer :=
  mkBuf (pending b ++ line) (used b + len).

(** ** Thread data *)

Record threadData := mkTD {
  dname : string;
  pinode : Z;
  depth : Z;
  THRDid : Z;
  flag : Z;
  pstat : stat;
  buf : nat            (* index i of the pointer [&buffers[i]] *)
}.

Definition stat0 : stat := mkStat 0 0 0 0 0 0 0 0 0 0 0.
Definition td0 : threadData := mkTD EmptyString 0 0 0 0 stat0 0.

(** [cur] points into the slot table or at the caller's [local]. *)
Inductive tdptr : Type :=
| SlotPtr (slot : nat)
| LocalPtr (td : threadData).

(** Where a [traverse] invocation stands. *)
Inductive pc : Type :=
| AtOpen
| AtLoop (rest : list dirent)
| AtCleanup
| AtRelease.

(** One invocation of [traverse].  [fr_id] numbers the invocations and
    [fr_dir] is the answer [opendir(cur->dname)] will give; both are
    bookkeeping of the model. *)
Record frame := mkFrame {
  fr_id : nat;
  cur : tdptr;
  fr_dir : option (list dirent);
  fr_pc : pc;
  localCnt : Z;
  localSz : Z
}.

(** What happened, newest event first. *)
Inductive event : Type :=
| EvOpendir (fid : nat) (path : string) (answer : option (list dirent))
| EvRecord (fid : nat) (b : nat) (r : record)
| EvFlush (b : nat) (data : bytes)
| EvEnter (fid : nat) (parent : nat) (d : dirent) (spawned : bool)
| EvRelease (slot : tdptr).

Inductive directive := ZSTD_e_continue | ZSTD_e_end.

Section Walker.

(** The streaming compressor is a parameter: its context type, whether
    the extension was built with it, the context that
    [ZSTD_createCStream] returns and [ZSTD_initCStream(zstd_stream, 1)]
    has initialised, and what one [ZSTD_compressStream2] call consumes
    and produces.  The source does not test the result of
    [ZSTD_createCStream] and hands it to [ZSTD_initCStream] as it is:
    the creation is taken to succeed. *)
Variable ZSTD_CStream : Type.
Variable HAVE_ZSTD : bool.
Variable ZSTD_createCStream : ZSTD_CStream.
Variable ZSTD_compressStream2 :
  ZSTD_CStream -> bytes -> directive -> ZSTD_CStream * bytes.

(** Propositional reasoning that leaves the parameters alone. *)
Local Ltac prop_solve :=
  try clear ZSTD_createCStream; try clear ZSTD_compressStream2; tauto.

(** ** Global state *)

Record state := mkState {
  ThreadCNT : Z;
  totalTHRDS : Z;
  tdslot : list threadData;
  buffers : list ThreadBuffer;
  output_file : FILE;
  zstd_stream : option ZSTD_CStream;
  SNAPSHOT : Z;
  threads : list (list frame);
  next_fid : nat;
  trace : list event
}.

Definition set_counts (c t : Z) (s : state) : state :=
  mkState c t (tdslot s) (buffers s) (output_file s) (zstd_stream s)
          (SNAPSHOT s) (threads s) (next_fid s) (trace s).
Definition set_tdslot (x : list threadData) (s : state) : state :=
  mkState (ThreadCNT s) (totalTHRDS s) x (buffers s) (output_file s) (zstd_stream s)
          (SNAPSHOT s) (threads s) (next_fid s) (trace s).
Definition set_buffers (x : list ThreadBuffer) (s : state) : state :=
  mkState (ThreadCNT s) (totalTHRDS s) (tdslot s) x (output_file s) (zstd_stream s)
          (SNAPSHOT s) (threads s) (next_fid s) (trace s).
Definition set_output (f : FILE) (z : option ZSTD_CStream) (s : state) : state :=
  mkState (ThreadCNT s) (totalTHRDS s) (tdslot s) (buffers s) f z
          (SNAPSHOT s) (threads s) (next_fid s) (trace s).
Definition set_threads (x : list (list frame)) (s : state) : state :=
  mkState (ThreadCNT s) (totalTHRDS s) (tdslot s) (buffers s) (output_file s) (zstd_stream s)
          (SNAPSHOT s) x (next_fid s) (trace s).
Definition set_next_fid (n : nat) (s : state) : state :=
  mkState (ThreadCNT s) (totalTHRDS s) (tdslot s) (buffers s) (output_file s) (zstd_stream s)
          (SNAPSHOT s) (threads s) n (trace s).
Definition log (e : event) (s : state) : state :=
  mkState (ThreadCNT s) (totalTHRDS s) (tdslot s) (buffers s) (output_file s) (zstd_stream s)
          (SNAPSHOT s) (threads s) (next_fid s) (e :: trace s).

Definition buffer_at (s : state) (b : nat) : ThreadBuffer :=
  default (mkBuf [] 0) (buffers s !! b).

(** ** flush_buffer *)

Definition flush_buffer (b : nat) (s : state) : state :=
  let cell := buffer_at s b in
  if used cell =? 0 then s
  else
    let data := pending cell in
    let s1 :=
      match (if HAVE_ZSTD then zstd_stream s else None) with
      | Some z =>
          let '(z', compressed) := ZSTD_compressStream2 z data ZSTD_e_continue in
          set_output (fwrite compressed (output_file s)) (Some z') s
      | None =>
          set_output (fwrite data (output_file s)) (zstd_stream s) s
      end in
    log (EvFlush b data)
        (set_buffers (<[b := mkBuf (csv_buffer cell) 0]> (buffers s1)) s1).

(** ** write_record *)

(** The bytes [memcpy] reads from [line]: the text itself when it fits in
    [line]; otherwise [snprintf] has stored only [LINE_SIZE - 1]
    characters and a NUL, and the rest of the [len] bytes read lies
    beyond the array.  What the memory holds there is not known to the
    model, which puts NULs in its place: only the number of these bytes
    is meaningful, not their values. *)
Definition line_bytes (text : string) : bytes :=
  if strlen text <? LINE_SIZE then bytes_of text
  else bytes_of (str_take (Z.to_nat (LINE_SIZE - 1)) text)
       ++ repeat zero (String.length text - Z.to_nat (LINE_SIZE - 1)).

(** [if (buf->used + len >= BUFFER_SIZE) flush_buffer(buf);] *)
Definition make_room (b : nat) (len : Z) (s : state) : state :=
  if used (buffer_at s b) + len >=? BUFFER_SIZE then flush_buffer b s else s.

Definition write_record (fid : nat) (b : nat) (r : record) (s : state) : state :=
  let text := record_text r in
  let len := strlen text in
  let s1 := make_room b len s in
  log (EvRecord fid b r)
      (set_buffers (<[b := buf_append (buffer_at s1 b) (line_bytes text) len]> (buffers s1)) s1).

(** ** traverse *)

Definition slot_at (s : state) (i : nat) : threadData :=
  default td0 (tdslot s !! i).

(** [*cur] *)
Definition deref (s : state) (p : tdptr) : threadData :=
  match p with
  | SlotPtr i => slot_at s i
  | LocalPtr td => td
  end.

(** [snprintf(fullpath, MAXPATH, "%s/%s", cur->dname, d->d_name)] *)
Definition fullpath_of (dir name : string) : string :=
  str_take (Z.to_nat (MAXPATH - 1))
           (String.append dir (String slash name)).

(** [while (slot < MAXTHRDS && tdslot[slot].THRDid != -1) slot++;] *)
Fixpoint scan_slots (tab : list threadData) (slot : nat) (fuel : nat) : nat :=
  match fuel with
  | O => slot
  | S k =>
      if (Z.of_nat slot <? MAXTHRDS) && negb (THRDid (default td0 (tab !! slot)) =? -1)
      then scan_slots tab (S slot) k
      else slot
  end.

Definition free_slot (s : state) : nat :=
  scan_slots (tdslot s) 0 (Z.to_nat MAXTHRDS).

Definition set_stack (t : nat) (stk : list frame) (s : state) : state :=
  set_threads (<[t := stk]> (threads s)) s.

Definition with_pc (p : pc) (fr : frame) : frame :=
  mkFrame (fr_id fr) (cur fr) (fr_dir fr) p (localCnt fr) (localSz fr).

Definition new_frame (fid : nat) (p : tdptr) (d : option (list dirent)) : frame :=
  mkFrame fid p d AtOpen 0 0.

(** Entries the loop passes over with [continue] before [lstat]. *)
Definition is_dot (name : string) : bool :=
  String.eqb "." name || String.eqb ".." name.

Definition is_snapshot (snap : Z) (name : string) : bool :=
  negb (snap =? 0) && String.eqb ".snapshot" name.

(** The branch [if (S_ISDIR(f.st_mode))] of the loop body, for entry [d]
    with stat [f]; [fr] already has [localCnt] incremented and its
    program counter moved past [d]. *)
Definition fan_out (t : nat) (fr : frame) (stack : list frame)
           (d : dirent) (f : stat) (fullpath : string) (s : state) : state :=
  let c := deref s (cur fr) in
  let fid := next_fid s in
  let s := set_next_fid (S fid) s in
  let slot := if ThreadCNT s <? MAXTHRDS then free_slot s else Z.to_nat MAXTHRDS in
  if (ThreadCNT s <? MAXTHRDS) && (Z.of_nat slot <? MAXTHRDS) then
    (* new = &tdslot[slot] *)
    let new := mkTD fullpath (st_ino (pstat c)) (depth c + 1)
                    (totalTHRDS s) 0 f slot in
    let s1 := set_counts (ThreadCNT s + 1) (totalTHRDS s + 1)
                         (set_tdslot (<[slot := new]> (tdslot s)) s) in
    let child := new_frame fid (SlotPtr slot) (sub d) in
    (* if (new->THRDid != cur->THRDid), read after the slot was written *)
    if negb (THRDid new =? THRDid (deref s1 (cur fr))) then
      (* pthread_create(..., traverse, new) *)
      log (EvEnter fid (fr_id fr) d true)
          (set_threads (<[t := fr :: stack]> (threads s1) ++ [[child]]) s1)
    else
      log (EvEnter fid (fr_id fr) d false)
          (set_stack t (child :: fr :: stack) s1)
  else
    (* new = &local *)
    let new := mkTD fullpath (st_ino (pstat c)) (depth c + 1)
                    (THRDid c) (flag c + 1) f (buf c) in
    let child := new_frame fid (LocalPtr new) (sub d) in
    if negb (THRDid new =? THRDid c) then
      log (EvEnter fid (fr_id fr) d true)
          (set_threads (<[t := fr :: stack]> (threads s) ++ [[child]]) s)
    else
      (* traverse(new) *)
      log (EvEnter fid (fr_id fr) d false)
          (set_stack t (child :: fr :: stack) s).

(** One iteration of [while ((d = readdir(dirp)) != NULL)].  [localCnt]
    counts the entries of this one directory; [localSz] adds up what
    [lstat] reports as their sizes, in a [long] that wraps around. *)
Definition loop_body (t : nat) (fr : frame) (stack : list frame)
           (d : dirent) (rest : list dirent) (s : state) : state :=
  let c := deref s (cur fr) in
  let skip := set_stack t (with_pc (AtLoop rest) fr :: stack) s in
  if is_dot (d_name d) then skip
  else if is_snapshot (SNAPSHOT s) (d_name d) then skip
  else
    let fullpath := fullpath_of (dname c) (d_name d) in
    match lst d with
    | None => skip
    | Some f =>
        let cnt := localCnt fr + 1 in
        if S_ISDIR (st_mode f) then
          let fr' := mkFrame (fr_id fr) (cur fr) (fr_dir fr) (AtLoop rest)
                             cnt (localSz fr) in
          fan_out t fr' stack d f fullpath s
        else
          (* localSz += f.st_size *)
          let fr' := mkFrame (fr_id fr) (cur fr) (fr_dir fr) (AtLoop rest)
                             cnt (wrap_long (localSz fr + st_size f)) in
          write_record (fr_id fr) (buf c)
            (mkRecord fullpath f (st_ino (pstat c)) (depth c) (-1) 0)
            (set_stack t (fr' :: stack) s)
    end.

(** [cur->THRDid = -1] *)
Definition release_ptr (p : tdptr) (s : state) : state :=
  match p with
  | SlotPtr i =>
      let c := slot_at s i in
      set_tdslot (<[i := mkTD (dname c) (pinode c) (depth c) (-1) (flag c)
                              (pstat c) (buf c)]> (tdslot s)) s
  | LocalPtr _ => s
  end.

(** One atomic action of the invocation [fr] on top of thread [t]. *)
Definition step_frame (t : nat) (fr : frame) (stack : list frame) (s : state) : state :=
  let c := deref s (cur fr) in
  match fr_pc fr with
  | AtOpen =>
      (* dirp = opendir(cur->dname); if (!dirp) goto cleanup; *)
      let s1 := log (EvOpendir (fr_id fr) (dname c) (fr_dir fr)) s in
      match fr_dir fr with
      | None => set_stack t (with_pc AtCleanup fr :: stack) s1
      | Some es => set_stack t (with_pc (AtLoop es) fr :: stack) s1
      end
  | AtLoop (d :: rest) => loop_body t fr stack d rest s
  | AtLoop [] =>
      (* closedir(dirp); write_record(cur->buf, cur->dname, ...) *)
      write_record (fr_id fr) (buf c)
        (mkRecord (dname c) (pstat c) (pinode c) (depth c) (localCnt fr) (localSz fr))
        (set_stack t (with_pc AtCleanup fr :: stack) s)
  | AtCleanup =>
      if flag c =? 0 then
        (* flush_buffer(cur->buf) *)
        flush_buffer (buf c) (set_stack t (with_pc AtRelease fr :: stack) s)
      else
        (* return NULL *)
        set_stack t stack s
  | AtRelease =>
      (* lock; ThreadCNT--; cur->THRDid = -1; unlock; pthread_exit(NULL) *)
      log (EvRelease (cur fr))
          (set_stack t []
             (release_ptr (cur fr)
                (set_counts (ThreadCNT s - 1) (totalTHRDS s) s)))
  end.

(** Thread [t] takes a step; [None] when it is not running. *)
Definition step (t : nat) (s : state) : option state :=
  match threads s !! t with
  | Some (fr :: stack) => Some (step_frame t fr stack s)
  | _ => None
  end.

(** A schedule names the thread that moves next; a step of a thread that
    is not running leaves the state as it is. *)
Definition sched_step (s : state) (t : nat) : state :=
  default s (step t s).

Definition run (sched : list nat) (s : state) : state :=
  fold_left sched_step sched s.

(** ** csv_write, the entry point *)

Record args := mkArgs {
  top : string;
  output : string;
  max_threads : Z;
  ignore_snaps : Z;
  compress : Z
}.

(** What the operating system answers to the entry point: [fopen]
    ([None]: it fails; [Some room]: a stream whose device accepts [room]
    bytes), [lstat] of the root and [opendir] of the root. *)
Record os := mkOs {
  fopen_answer : option (option nat);
  root_lstat : option stat;
  root_dir : option (list dirent)
}.

Inductive PyResult : Type :=
| PyErr_IOError (filename : string)
| PyErr_OSError (filename : string)
| Py_Dict (output_v : string) (compressed_v : Z).

Definition header : string :=
  join_comma
    [ "inode"; "parent-inode"; "directory-depth"; quoted "filename";
      quoted "fileExtension"; "UID"; "GID"; "st_size"; "st_dev"; "st_blocks";
      "st_nlink"; quoted "st_mode"; "st_atime"; "st_mtime"; "st_ctime";
      "pw_fcount";
      String.append "pw_dirsum" (String newline EmptyString) ].

(** The globals as the C file initialises them. *)
Definition static_init : state :=
  mkState 0 0 (replicate (Z.to_nat MAXTHRDS) td0)
          (replicate (Z.to_nat MAXTHRDS) (mkBuf [] 0))
          (mkFILE false [] None false) None 1 [] 0 [].

(** [for (i = 0; i < MAXTHRDS; i++) { buffers[i].used = 0; tdslot[i].THRDid = -1; }] *)
Definition reset_slot (c : threadData) : threadData :=
  mkTD (dname c) (pinode c) (depth c) (-1) (flag c) (pstat c) (buf c).
Definition reset_buf (b : ThreadBuffer) : ThreadBuffer := mkBuf (csv_buffer b) 0.

(** The code up to and including the header: parameters stored, stream
    opened, compressor created and initialised ([ZSTD_createCStream],
    [ZSTD_initCStream(zstd_stream, 1)]) when the flag is set, header
    written, tables reset.  Threads of an earlier call are taken to have
    ended. *)
Definition csv_write_open (a : args) (room : option nat) (g : state) : state :=
  let z := if HAVE_ZSTD && negb (compress a =? 0) then Some ZSTD_createCStream
           else zstd_stream g in
  let f := fwrite (bytes_of header) (mkFILE true [] room false) in
  mkState 0 0 (reset_slot <$> tdslot g) (reset_buf <$> buffers g)
          f z (ignore_snaps a) [] 0 [].

(** Slot 0 seeded with the root, [ThreadCNT = 1], first thread created. *)
Definition csv_write_start (a : args) (root : stat) (dir : option (list dirent))
           (s : state) : state :=
  let seed := mkTD (top a) 0 (-1) (totalTHRDS s) 0 root 0 in
  mkState 1 (totalTHRDS s + 1) (<[0%nat := seed]> (tdslot s)) (buffers s)
          (output_file s) (zstd_stream s) (SNAPSHOT s)
          [[new_frame (next_fid s) (SlotPtr 0) dir]] (S (next_fid s)) (trace s).

Definition max_iterations : Z := 3600.

(** The polling loop.  [sched] gives, for each sleep of the entry point,
    the worker steps that happen during it.  Returns the state, the
    value of [iterations] and the last value read into [active]. *)
Fixpoint wait_loop (fuel : nat) (iterations : Z) (active : Z)
         (sched : list (list nat)) (s : state) : state * Z * Z :=
  match fuel with
  | O => (s, iterations, active)
  | S k =>
      if iterations <? max_iterations then
        let s1 := run (hd [] sched) s in
        let active := ThreadCNT s1 in
        if active =? 0 then (s1, iterations, active)
        else wait_loop k (iterations + 1) active (tl sched) s1
      else (s, iterations, active)
  end.

(** The test [if (compress && zstd_stream)]: the context the block is
    entered with, if it is entered. *)
Definition frame_open (a : args) (s : state) : option ZSTD_CStream :=
  if HAVE_ZSTD && negb (compress a =? 0) then zstd_stream s else None.

(** [if (compress && zstd_stream) { ... ZSTD_e_end ...;
    ZSTD_freeCStream(zstd_stream); zstd_stream = NULL; }], when no worker
    moves in between. *)
Definition end_frame (a : args) (s : state) : state :=
  match frame_open a s with
  | Some z =>
      let '(_, final_output) := ZSTD_compressStream2 z [] ZSTD_e_end in
      set_output (fwrite final_output (output_file s)) None s
  | None => s
  end.

(** [fclose(output_file)] *)
Definition close_output (s : state) : state :=
  set_output (fclose (output_file s)) (zstd_stream s) s.

(** The code after the polling loop with no worker running. *)
Definition finish_at_rest (a : args) (s : state) : state :=
  close_output (end_frame a s).

Definition late_steps (late : list (list nat)) (i : nat) : list nat :=
  default [] (late !! i).

(** The code after the polling loop.  It takes no lock and cancels no
    worker, so after a wait that gave up the workers go on while it
    runs.  [late] gives the worker steps that fall before the test of
    [zstd_stream], between the [ZSTD_e_end] call and the [fwrite] of its
    output, between that [fwrite] and [ZSTD_freeCStream], and between
    the clearing of [zstd_stream] and [fclose].  A worker step is taken
    whole: a flush that the finalization cuts in two, or that falls
    between [ZSTD_freeCStream] and the clearing of the pointer, uses a
    context that is no longer there, and is not followed; nor is what a
    worker does to the stream after [fclose]. *)
Definition csv_write_finish (a : args) (late : list (list nat)) (s : state) : state :=
  let s0 := run (late_steps late 0) s in
  match frame_open a s0 with
  | Some z =>
      (* ZSTD_compressStream2(zstd_stream, &output_buf, &empty_input, ZSTD_e_end) *)
      let '(z', final_output) := ZSTD_compressStream2 z [] ZSTD_e_end in
      let s1 := run (late_steps late 1) (set_output (output_file s0) (Some z') s0) in
      (* fwrite(final_output, 1, output_buf.pos, output_file) *)
      let s2 := run (late_steps late 2)
                    (set_output (fwrite final_output (output_file s1))
                                (zstd_stream s1) s1) in
      (* ZSTD_freeCStream(zstd_stream); zstd_stream = NULL *)
      let s3 := run (late_steps late 3) (set_output (output_file s2) None s2) in
      close_output s3
  | None =>
      close_output
        (run (late_steps late 1 ++ late_steps late 2 ++ late_steps late 3) s0)
  end.

(** The entry point, from the point where [PyArg_ParseTuple] has stored
    the five values of [a].  [sched] gives the worker steps during each
    sleep of the polling loop and, from position [max_iterations] on,
    the worker steps during the finalization.  The result is the state
    at the moment of the return; [timeout_warning] below tells the two
    ways of leaving the loop apart. *)
Definition csv_write (w : os) (a : args) (sched : list (list nat)) (g : state)
  : PyResult * state :=
  match fopen_answer w with
  | None =>
      (PyErr_IOError (output a),
       mkState (ThreadCNT g) (totalTHRDS g) (tdslot g) (buffers g)
               (mkFILE false [] None false) (zstd_stream g) (ignore_snaps a)
               (threads g) (next_fid g) (trace g))
  | Some room =>
      let s := csv_write_open a room g in
      match root_lstat w with
      | None =>
          (PyErr_OSError (top a),
           set_output (fclose (output_file s)) (zstd_stream s) s)
      | Some root =>
          let s1 := csv_write_start a root (root_dir w) s in
          let '(s2, _, _) :=
            wait_loop (Z.to_nat max_iterations) 0 1 sched s1 in
          (Py_Dict (output a) (compress a),
           csv_write_finish a (drop (Z.to_nat max_iterations) sched) s2)
      end
  end.

(** [if (iterations >= max_iterations) fprintf(stderr, ...)]: whether the
    entry point prints its timeout warning. *)
Definition timeout_warning (w : os) (a : args) (sched : list (list nat))
           (g : state) : bool :=
  match fopen_answer w, root_lstat w with
  | Some room, Some root =>
      let s1 := csv_write_start a root (root_dir w) (csv_write_open a room g) in
      let '(_, iterations, _) :=
        wait_loop (Z.to_nat max_iterations) 0 1 sched s1 in
      max_iterations <=? iterations
  | _, _ => false
  end.

(** * Properties *)

(** ** Buffers *)



Lemma used_nonzero_in_range (s : state) b :
  used (buffer_at s b) <> 0 -> (b < length (buffers s))%nat.
Proof.
  unfold buffer_at. intros H.
  destruct (buffers s !! b) eqn:E.
  - eapply lookup_lt_Some; eauto.
  - simpl in H. congruence.
Qed.

Lemma flush_buffer_unused b s :
  used (buffer_at s b) = 0 -> flush_buffer b s = s.
Proof.
  intros H. unfold flush_buffer. rewrite H. reflexivity.
Qed.

Lemma flush_buffer_buffers b s :
  used (buffer_at s b) <> 0 ->
  buffers (flush_buffer b s)
  = <[b := mkBuf (csv_buffer (buffer_at s b)) 0]> (buffers s).
Proof.
  intros H. unfold flush_buffer.
  destruct (Z.eqb_spec (used (buffer_at s b)) 0) as [E|E]; [congruence|].
  destruct (if HAVE_ZSTD then zstd_stream s else None) as [z|].
  - destruct (ZSTD_compressStream2 z _ _). reflexivity.
  - reflexivity.
Qed.

Lemma flush_buffer_used b s : used (buffer_at (flush_buffer b s) b) = 0.
Proof.
  destruct (Z.eq_dec (used (buffer_at s b)) 0) as [E|E].
  - rewrite flush_buffer_unused; auto.
  - unfold buffer_at at 1. rewrite flush_buffer_buffers by auto.
    rewrite list_lookup_insert_eq; [reflexivity|].
    by apply used_nonzero_in_range.
Qed.

(** C9. Flushing a cell whose used length is zero changes nothing at
    all: the sink, the compressor context and every other global stay as
    they were.  A flush leaves the used length at zero, so a second flush
    of the same cell right after the first has no further effect. *)
Theorem flush_buffer_idempotent (b : nat) (s : state) :
  (used (buffer_at s b) = 0 -> flush_buffer b s = s)
  /\ used (buffer_at (flush_buffer b s) b) = 0
  /\ flush_buffer b (flush_buffer b s) = flush_buffer b s.
Proof.
  split; [apply flush_buffer_unused|].
  split; [apply flush_buffer_used|].
  apply flush_buffer_unused, flush_buffer_used.
Qed.

Lemma make_room_bound b len s :
  0 <= used (buffer_at s b) -> 0 <= len < BUFFER_SIZE ->
  0 <= used (buffer_at (make_room b len s) b)
  /\ used (buffer_at (make_room b len s) b) + len < BUFFER_SIZE.
Proof.
  intros Hu Hl. unfold make_room.
  destruct (Z.geb_spec (used (buffer_at s b) + len) BUFFER_SIZE).
  - rewrite flush_buffer_used. lia.
  - lia.
Qed.

Lemma write_record_buffers fid b r s :
  buffers (write_record fid b r s)
  = <[b := buf_append (buffer_at (make_room b (strlen (record_text r)) s) b)
                      (line_bytes (record_text r)) (strlen (record_text r))]>
      (buffers (make_room b (strlen (record_text r)) s)).
Proof. reflexivity. Qed.

Lemma make_room_length b len s :
  length (buffers (make_room b len s)) = length (buffers s).
Proof.
  unfold make_room. destruct (_ >=? _); [|reflexivity].
  destruct (Z.eq_dec (used (buffer_at s b)) 0) as [E|E].
  - by rewrite flush_buffer_unused.
  - rewrite flush_buffer_buffers by auto. apply length_insert.
Qed.

(** ** What [flush_buffer] and [write_record] leave alone *)

Definition flush_events (b : nat) (s : state) : list event :=
  if used (buffer_at s b) =? 0 then [] else [EvFlush b (pending (buffer_at s b))].

Lemma flush_buffer_frame b s :
  threads (flush_buffer b s) = threads s
  /\ tdslot (flush_buffer b s) = tdslot s
  /\ ThreadCNT (flush_buffer b s) = ThreadCNT s
  /\ totalTHRDS (flush_buffer b s) = totalTHRDS s
  /\ next_fid (flush_buffer b s) = next_fid s
  /\ SNAPSHOT (flush_buffer b s) = SNAPSHOT s
  /\ trace (flush_buffer b s) = flush_events b s ++ trace s.
Proof.
  unfold flush_buffer, flush_events.
  destruct (used (buffer_at s b) =? 0); [repeat split; reflexivity|].
  destruct (if HAVE_ZSTD then zstd_stream s else None) as [z|].
  - destruct (ZSTD_compressStream2 z _ _). repeat split; reflexivity.
  - repeat split; reflexivity.
Qed.

Lemma make_room_frame b len s :
  threads (make_room b len s) = threads s
  /\ tdslot (make_room b len s) = tdslot s
  /\ ThreadCNT (make_room b len s) = ThreadCNT s
  /\ totalTHRDS (make_room b len s) = totalTHRDS s
  /\ next_fid (make_room b len s) = next_fid s
  /\ SNAPSHOT (make_room b len s) = SNAPSHOT s.
Proof.
  unfold make_room. destruct (_ >=? _).
  - pose proof (flush_buffer_frame b s). prop_solve.
  - repeat split; reflexivity.
Qed.

Definition room_events (b : nat) (len : Z) (s : state) : list event :=
  if used (buffer_at s b) + len >=? BUFFER_SIZE then flush_events b s else [].

Lemma make_room_trace b len s :
  trace (make_room b len s) = room_events b len s ++ trace s.
Proof.
  unfold make_room, room_events. destruct (_ >=? _); [|reflexivity].
  apply flush_buffer_frame.
Qed.

Lemma write_record_frame fid b r s :
  threads (write_record fid b r s) = threads s
  /\ tdslot (write_record fid b r s) = tdslot s
  /\ ThreadCNT (write_record fid b r s) = ThreadCNT s
  /\ totalTHRDS (write_record fid b r s) = totalTHRDS s
  /\ next_fid (write_record fid b r s) = next_fid s
  /\ SNAPSHOT (write_record fid b r s) = SNAPSHOT s
  /\ trace (write_record fid b r s)
     = EvRecord fid b r :: room_events b (strlen (record_text r)) s ++ trace s.
Proof.
  unfold write_record. simpl.
  pose proof (make_room_frame b (strlen (record_text r)) s) as H.
  rewrite make_room_trace. prop_solve.
Qed.

Lemma flush_buffer_length b s :
  length (buffers (flush_buffer b s)) = length (buffers s).
Proof.
  destruct (Z.eq_dec (used (buffer_at s b)) 0) as [E|E].
  - by rewrite flush_buffer_unused.
  - rewrite flush_buffer_buffers by auto. apply length_insert.
Qed.

Lemma write_record_length fid b r s :
  length (buffers (write_record fid b r s)) = length (buffers s).
Proof.
  rewrite write_record_buffers, length_insert. apply make_room_length.
Qed.

Lemma flush_buffer_other b b' s :
  b <> b' -> buffer_at (flush_buffer b s) b' = buffer_at s b'.
Proof.
  intros Hne.
  destruct (Z.eq_dec (used (buffer_at s b)) 0) as [E|E].
  - by rewrite flush_buffer_unused.
  - unfold buffer_at. rewrite flush_buffer_buffers by auto.
    by rewrite list_lookup_insert_ne.
Qed.

Lemma make_room_other b b' len s :
  b <> b' -> buffer_at (make_room b len s) b' = buffer_at s b'.
Proof.
  intros Hne. unfold make_room. destruct (_ >=? _); [|reflexivity].
  by apply flush_buffer_other.
Qed.

Lemma write_record_other fid b b' r s :
  b <> b' -> buffer_at (write_record fid b r s) b' = buffer_at s b'.
Proof.
  intros Hne. unfold buffer_at at 1. rewrite write_record_buffers.
  rewrite list_lookup_insert_ne by auto.
  by apply make_room_other.
Qed.

Lemma scan_slots_stop tab fuel slot :
  (Z.of_nat (scan_slots tab slot fuel) < MAXTHRDS ->
   Z.of_nat slot + Z.of_nat fuel >= MAXTHRDS ->
   THRDid (default td0 (tab !! scan_slots tab slot fuel)) = -1).
Proof.
  revert slot. induction fuel as [|k IH]; intros slot; simpl.
  - intros H1 H2. lia.
  - destruct (Z.ltb_spec (Z.of_nat slot) MAXTHRDS) as [Hlt|Hge]; simpl.
    + destruct (Z.eqb_spec (THRDid (default td0 (tab !! slot))) (-1)) as [E|E]; simpl.
      * intros _ _. exact E.
      * intros Ha Hb. apply IH; [exact Ha|lia].
    + intros Ha. lia.
Qed.

Lemma free_slot_spec s :
  Z.of_nat (free_slot s) < MAXTHRDS -> THRDid (slot_at s (free_slot s)) = -1.
Proof.
  intros H. unfold slot_at, free_slot in *.
  apply scan_slots_stop; [exact H|]. unfold MAXTHRDS. simpl. lia.
Qed.

(** ** The worker pool: who owns which slot *)

(** A slot held by a running worker. *)
Definition slot_ok (s : state) (i : nat) : Prop :=
  (i < Z.to_nat MAXTHRDS)%nat
  /\ flag (slot_at s i) = 0
  /\ buf (slot_at s i) = i
  /\ 0 <= THRDid (slot_at s i) < totalTHRDS s.

(** An inline invocation inside the worker of slot [i] with id [id]. *)
Definition local_ok (i : nat) (id : Z) (fr : frame) : Prop :=
  exists td, cur fr = LocalPtr td /\ fr_pc fr <> AtRelease
             /\ 0 < flag td /\ buf td = i /\ THRDid td = id.

Definition in_loop (fr : frame) : Prop := exists rest, fr_pc fr = AtLoop rest.

(** The call stack of the worker of slot [i]: the thread function at the
    bottom, inline invocations above it; a caller waits inside its loop. *)
Inductive stack_ok (i : nat) (id : Z) : list frame -> Prop :=
| stack_bottom fr : cur fr = SlotPtr i -> stack_ok i id [fr]
| stack_push fr g stk :
    local_ok i id fr -> in_loop g -> stack_ok i id (g :: stk) ->
    stack_ok i id (fr :: g :: stk).

Fixpoint bottom_slot (stk : list frame) : option nat :=
  match stk with
  | [] => None
  | [fr] => match cur fr with SlotPtr i => Some i | LocalPtr _ => None end
  | _ :: r => bottom_slot r
  end.

Definition thread_ok (s : state) (stk : list frame) : Prop :=
  stk = [] \/ exists i, slot_ok s i /\ stack_ok i (THRDid (slot_at s i)) stk.

Record pool_ok (s : state) : Prop := {
  pool_slots : length (tdslot s) = Z.to_nat MAXTHRDS;
  pool_buffers : length (buffers s) = Z.to_nat MAXTHRDS;
  pool_threads : forall t stk, threads s !! t = Some stk -> thread_ok s stk;
  pool_distinct : forall t1 t2 stk1 stk2 i,
      t1 <> t2 -> threads s !! t1 = Some stk1 -> threads s !! t2 = Some stk2 ->
      bottom_slot stk1 = Some i -> bottom_slot stk2 = Some i -> False
}.

Lemma stack_ok_bottom i id stk : stack_ok i id stk -> bottom_slot stk = Some i.
Proof.
  induction 1 as [fr H|fr g stk Hl Hg Hs IH]; simpl.
  - by rewrite H.
  - exact IH.
Qed.


Lemma stack_ok_top i id fr fr' stk :
  cur fr' = cur fr ->
  (fr_pc fr' = AtRelease -> exists k, cur fr = SlotPtr k) ->
  stack_ok i id (fr :: stk) -> stack_ok i id (fr' :: stk).
Proof.
  intros Hc Hpc H. inversion H as [x Hx|x g y Hl Hg Hs]; subst.
  - apply stack_bottom. congruence.
  - apply stack_push; [|exact Hg|exact Hs].
    destruct Hl as (td & Htd & _ & ?). exists td.
    split; [congruence|]. split; [|assumption].
    intros E. destruct (Hpc E) as [k Hk]. congruence.
Qed.

Lemma stack_ok_waiting i id fr stk :
  stack_ok i id (fr :: stk) -> Forall in_loop stk.
Proof.
  revert fr. induction stk as [|g stk IH]; intros fr H; [constructor|].
  inversion H as [|x y z Hl Hg Hs]; subst.
  constructor; [exact Hg|]. by apply (IH g).
Qed.

Lemma stack_ok_slot_top i id fr stk k :
  stack_ok i id (fr :: stk) -> cur fr = SlotPtr k -> k = i /\ stk = [].
Proof.
  intros H Hk. inversion H as [x Hx|x g y (td & Hl & _) Hg Hs]; subst.
  - split; congruence.
  - congruence.
Qed.

(** What the thread data of the running invocation looks like. *)
Lemma stack_ok_deref s i fr stk :
  slot_ok s i -> stack_ok i (THRDid (slot_at s i)) (fr :: stk) ->
  let c := deref s (cur fr) in
  buf c = i /\ THRDid c = THRDid (slot_at s i) /\ 0 <= flag c
  /\ (flag c = 0 -> stk = [] /\ cur fr = SlotPtr i)
  /\ (flag c <> 0 -> stack_ok i (THRDid (slot_at s i)) stk).
Proof.
  intros (Hi & Hf & Hb & Ht) H. inversion H as [x Hx|x g y Hl Hg Hs]; subst.
  - rewrite Hx. simpl. rewrite Hf, Hb.
    repeat split; auto; try lia; try (intros; congruence).
  - destruct Hl as (td & Hc & _ & Hfl & Hbu & Hid). rewrite Hc. simpl.
    repeat split; auto; try lia; try (intros; lia).
Qed.


(** A step that rewrites only the stack of thread [t], keeping its
    bottom, keeps the pool in order. *)
Lemma pool_ok_restack s s' t old stk' :
  pool_ok s ->
  tdslot s' = tdslot s -> totalTHRDS s' = totalTHRDS s ->
  length (buffers s') = length (buffers s) ->
  threads s !! t = Some old -> old <> [] ->
  threads s' = <[t := stk']> (threads s) ->
  (stk' = [] \/
   forall i, slot_ok s i -> stack_ok i (THRDid (slot_at s i)) old ->
             stack_ok i (THRDid (slot_at s i)) stk') ->
  pool_ok s'.
Proof.
  intros [Hs Hb Ht Hd] Htd Htot Hlen Hold Hne0 Hthr Hstk.
  assert (Hslot : forall i, slot_at s' i = slot_at s i)
    by (intros i; unfold slot_at; by rewrite Htd).
  assert (Hsok : forall i, slot_ok s i -> slot_ok s' i).
  { intros i. unfold slot_ok. rewrite Hslot, Htot. prop_solve. }
  assert (Ht' : (t < length (threads s))%nat) by (eapply lookup_lt_Some; eauto).
  destruct (Ht _ _ Hold) as [->|(i0 & Hi0 & Hst0)]; [congruence|].
  assert (Hbot : stk' = [] \/ bottom_slot stk' = Some i0).
  { destruct Hstk as [->|Hstk]; [by left|right].
    eapply stack_ok_bottom. by apply Hstk. }
  split.
  - congruence.
  - congruence.
  - intros t' stk Hl. rewrite Hthr in Hl.
    destruct (decide (t = t')) as [<-|Hne].
    + rewrite list_lookup_insert_eq in Hl by auto. injection Hl as <-.
      destruct Hstk as [->|Hstk]; [by left|].
      right. exists i0. split; [by apply Hsok|]. rewrite Hslot. by apply Hstk.
    + rewrite list_lookup_insert_ne in Hl by auto.
      destruct (Ht _ _ Hl) as [->|(i & Hi & Hst)]; [by left|].
      right. exists i. split; [by apply Hsok|]. by rewrite Hslot.
  - intros t1 t2 stk1 stk2 i Hne H1 H2 B1 B2. rewrite Hthr in H1, H2.
    pose proof (stack_ok_bottom _ _ _ Hst0) as Bold.
    destruct (decide (t = t1)) as [<-|Hn1].
    + rewrite list_lookup_insert_eq in H1 by auto. injection H1 as <-.
      rewrite list_lookup_insert_ne in H2 by auto.
      destruct Hbot as [->|Hbot]; [discriminate|].
      apply (Hd t t2 old stk2 i); auto; congruence.
    + rewrite list_lookup_insert_ne in H1 by auto.
      destruct (decide (t = t2)) as [<-|Hn2].
      * rewrite list_lookup_insert_eq in H2 by auto. injection H2 as <-.
        destruct Hbot as [->|Hbot]; [discriminate|].
        apply (Hd t1 t stk1 old i); auto; congruence.
      * rewrite list_lookup_insert_ne in H2 by auto.
        apply (Hd t1 t2 stk1 stk2 i); auto.
Qed.

Lemma threads_flush b s : threads (flush_buffer b s) = threads s.
Proof. apply flush_buffer_frame. Qed.
Lemma tdslot_flush b s : tdslot (flush_buffer b s) = tdslot s.
Proof. apply flush_buffer_frame. Qed.
Lemma ThreadCNT_flush b s : ThreadCNT (flush_buffer b s) = ThreadCNT s.
Proof. apply flush_buffer_frame. Qed.
Lemma totalTHRDS_flush b s : totalTHRDS (flush_buffer b s) = totalTHRDS s.
Proof. apply flush_buffer_frame. Qed.
Lemma next_fid_flush b s : next_fid (flush_buffer b s) = next_fid s.
Proof. apply flush_buffer_frame. Qed.
Lemma SNAPSHOT_flush b s : SNAPSHOT (flush_buffer b s) = SNAPSHOT s.
Proof. apply flush_buffer_frame. Qed.
Lemma trace_flush b s : trace (flush_buffer b s) = flush_events b s ++ trace s.
Proof. apply flush_buffer_frame. Qed.

Lemma threads_write fid b r s : threads (write_record fid b r s) = threads s.
Proof. apply write_record_frame. Qed.
Lemma tdslot_write fid b r s : tdslot (write_record fid b r s) = tdslot s.
Proof. apply write_record_frame. Qed.
Lemma ThreadCNT_write fid b r s : ThreadCNT (write_record fid b r s) = ThreadCNT s.
Proof. apply write_record_frame. Qed.
Lemma totalTHRDS_write fid b r s : totalTHRDS (write_record fid b r s) = totalTHRDS s.
Proof. apply write_record_frame. Qed.
Lemma next_fid_write fid b r s : next_fid (write_record fid b r s) = next_fid s.
Proof. apply write_record_frame. Qed.
Lemma SNAPSHOT_write fid b r s : SNAPSHOT (write_record fid b r s) = SNAPSHOT s.
Proof. apply write_record_frame. Qed.
Lemma trace_write fid b r s :
  trace (write_record fid b r s)
  = EvRecord fid b r :: room_events b (strlen (record_text r)) s ++ trace s.
Proof. apply write_record_frame. Qed.

Create Rewrite HintDb walker.

Hint Rewrite threads_flush tdslot_flush ThreadCNT_flush totalTHRDS_flush
     next_fid_flush SNAPSHOT_flush trace_flush
     threads_write tdslot_write ThreadCNT_write totalTHRDS_write
     next_fid_write SNAPSHOT_write trace_write
     flush_buffer_length write_record_length : walker.

Ltac walker_simpl := autorewrite with walker; simpl.

(** The branches of a step that only restack thread [t]. *)
Ltac restack_with Hth :=
  eapply pool_ok_restack;
  [ eassumption | walker_simpl; reflexivity | walker_simpl; reflexivity
  | walker_simpl; reflexivity | exact Hth | discriminate
  | walker_simpl; reflexivity | ].

(** Claiming the free slot [j] and starting a thread on it. *)
Lemma pool_ok_spawn s s' t old stk' j new child :
  pool_ok s ->
  threads s !! t = Some old -> old <> [] ->
  (j < Z.to_nat MAXTHRDS)%nat -> THRDid (slot_at s j) = -1 ->
  tdslot s' = <[j := new]> (tdslot s) ->
  flag new = 0 -> buf new = j -> THRDid new = totalTHRDS s ->
  totalTHRDS s' = totalTHRDS s + 1 ->
  length (buffers s') = length (buffers s) ->
  threads s' = <[t := stk']> (threads s) ++ [[child]] ->
  cur child = SlotPtr j ->
  (forall i id, stack_ok i id old -> stack_ok i id stk') ->
  pool_ok s'.
Proof.
  intros Hp Hold Hne0 Hj Hfree Htd Hfl Hbu Hid Htot Hlen Hthr Hchild Hstk.
  destruct Hp as [Hs Hb Ht Hd].
  assert (Hjl : (j < length (tdslot s))%nat) by (rewrite Hs; exact Hj).
  assert (Hslot : forall i, i <> j -> slot_at s' i = slot_at s i).
  { intros i Hi. unfold slot_at. rewrite Htd.
    by rewrite list_lookup_insert_ne. }
  assert (Hslotj : slot_at s' j = new).
  { unfold slot_at. rewrite Htd. by rewrite list_lookup_insert_eq. }
  assert (Hbusy : forall i, slot_ok s i -> i <> j).
  { intros i (_ & _ & _ & Hr) ->. lia. }
  assert (Hsok : forall i, slot_ok s i -> slot_ok s' i).
  { intros i Hi. pose proof (Hbusy i Hi) as Hij.
    destruct Hi as (H1 & H2 & H3 & H4).
    unfold slot_ok. rewrite Hslot, Htot by auto. repeat split; auto; lia. }
  assert (Ht' : (t < length (threads s))%nat) by (eapply lookup_lt_Some; eauto).
  destruct (Ht _ _ Hold) as [->|(i0 & Hi0 & Hst0)]; [congruence|].
  assert (Hnew : slot_ok s' j).
  { unfold slot_ok. rewrite Hslotj, Htot, Hfl, Hbu, Hid.
    destruct Hi0 as (_ & _ & _ & Hr). repeat split; auto; lia. }
  assert (Hlook : forall t' stk, threads s' !! t' = Some stk ->
            (t' = length (threads s) /\ stk = [child])
            \/ (t' = t /\ stk = stk')
            \/ (t' <> t /\ threads s !! t' = Some stk)).
  { intros t' stk Hl. rewrite Hthr in Hl.
    destruct (decide (t' < length (threads s))%nat) as [Hlt|Hge].
    - rewrite lookup_app_l in Hl by (rewrite length_insert; exact Hlt).
      destruct (decide (t = t')) as [<-|Hne].
      + rewrite list_lookup_insert_eq in Hl by auto. right; left.
        split; congruence.
      + rewrite list_lookup_insert_ne in Hl by auto. right; right. auto.
    - rewrite lookup_app_r in Hl by (rewrite length_insert; lia).
      rewrite length_insert in Hl.
      destruct (t' - length (threads s))%nat as [|k] eqn:E; simpl in Hl.
      + left. split; [lia|congruence].
      + destruct k; discriminate. }
  assert (Hbot : forall t' stk i, threads s !! t' = Some stk ->
            bottom_slot stk = Some i -> i <> j).
  { intros t' stk i Hl B. destruct (Ht _ _ Hl) as [->|(i1 & Hi1 & Hst1)]; [discriminate|].
    rewrite (stack_ok_bottom _ _ _ Hst1) in B. injection B as <-. by apply Hbusy. }
  split.
  - rewrite Htd, length_insert. exact Hs.
  - congruence.
  - intros t' stk Hl.
    destruct (Hlook _ _ Hl) as [[-> ->]|[[-> ->]|[Hne Hl']]].
    + right. exists j. split; [exact Hnew|]. by apply stack_bottom.
    + right. exists i0. split; [by apply Hsok|].
      rewrite Hslot by (by apply Hbusy). by apply Hstk.
    + destruct (Ht _ _ Hl') as [->|(i & Hi & Hst)]; [by left|].
      right. exists i. split; [by apply Hsok|].
      rewrite Hslot by (by apply Hbusy). exact Hst.
  - intros t1 t2 stk1 stk2 i Hne H1 H2 B1 B2.
    pose proof (stack_ok_bottom _ _ _ (Hstk _ _ Hst0)) as Bnew.
    pose proof (stack_ok_bottom _ _ _ Hst0) as Bold.
    assert (Bchild : bottom_slot [child] = Some j) by (simpl; by rewrite Hchild).
    destruct (Hlook _ _ H1) as [[-> ->]|[[-> ->]|[Hn1 H1']]];
      destruct (Hlook _ _ H2) as [[-> ->]|[[-> ->]|[Hn2 H2']]];
      try congruence.
    + assert (i = j) by congruence. subst i.
      eapply (Hbot t old j); eauto. congruence.
    + assert (i = j) by congruence. subst i.
      eapply (Hbot t2 stk2 j); eauto.
    + assert (i = j) by congruence. subst i.
      eapply (Hbot t old j); eauto. congruence.
    + apply (Hd t t2 old stk2 i); auto; congruence.
    + assert (i = j) by congruence. subst i.
      eapply (Hbot t1 stk1 j); eauto.
    + apply (Hd t1 t stk1 old i); auto; congruence.
    + apply (Hd t1 t2 stk1 stk2 i); auto.
Qed.

(** The two outcomes of the fan-out decision. *)
Definition claimed_td (c : threadData) (s : state) (f : stat) (fullpath : string)
           (j : nat) : threadData :=
  mkTD fullpath (st_ino (pstat c)) (depth c + 1) (totalTHRDS s) 0 f j.

Definition inline_td (c : threadData) (f : stat) (fullpath : string) : threadData :=
  mkTD fullpath (st_ino (pstat c)) (depth c + 1) (THRDid c) (flag c + 1) f (buf c).

Definition spawned (t : nat) (fr : frame) (stk : list frame) (d : dirent)
           (f : stat) (fullpath : string) (j : nat) (s : state) : state :=
  log (EvEnter (next_fid s) (fr_id fr) d true)
      (set_threads (<[t := fr :: stk]> (threads s)
                    ++ [[new_frame (next_fid s) (SlotPtr j) (sub d)]])
         (set_counts (ThreadCNT s + 1) (totalTHRDS s + 1)
            (set_tdslot (<[j := claimed_td (deref s (cur fr)) s f fullpath j]> (tdslot s))
               (set_next_fid (S (next_fid s)) s)))).

Definition inlined (t : nat) (fr : frame) (stk : list frame) (d : dirent)
           (f : stat) (fullpath : string) (s : state) : state :=
  log (EvEnter (next_fid s) (fr_id fr) d false)
      (set_stack t (new_frame (next_fid s)
                      (LocalPtr (inline_td (deref s (cur fr)) f fullpath)) (sub d)
                    :: fr :: stk)
         (set_next_fid (S (next_fid s)) s)).

Lemma fan_out_cases t fr fr' stk d f fullpath s :
  pool_ok s ->
  threads s !! t = Some (fr :: stk) ->
  cur fr' = cur fr ->
  (exists j, (j < Z.to_nat MAXTHRDS)%nat /\ THRDid (slot_at s j) = -1
             /\ ThreadCNT s < MAXTHRDS
             /\ fan_out t fr' stk d f fullpath s = spawned t fr' stk d f fullpath j s)
  \/ fan_out t fr' stk d f fullpath s = inlined t fr' stk d f fullpath s.
Proof.
  intros Hp Hth Hcur.
  destruct (pool_threads s Hp _ _ Hth) as [?|(i & Hi & Hst)]; [discriminate|].
  destruct (stack_ok_deref s i fr stk Hi Hst) as (Hb & Hid & Hfl & _ & _).
  unfold fan_out, spawned, inlined, claimed_td, inline_td. rewrite Hcur.
  set (c := deref s (cur fr)) in *.
  destruct ((ThreadCNT (set_next_fid (S (next_fid s)) s) <? MAXTHRDS)
            && (Z.of_nat (if ThreadCNT (set_next_fid (S (next_fid s)) s) <? MAXTHRDS
                          then free_slot (set_next_fid (S (next_fid s)) s)
                          else Z.to_nat MAXTHRDS) <? MAXTHRDS)) eqn:Hclaim.
  - (* a free slot is claimed *)
    left.
    apply andb_true_iff in Hclaim as [Hcnt Hslot]. rewrite Hcnt in Hslot |- *.
    apply Z.ltb_lt in Hslot. apply Z.ltb_lt in Hcnt. simpl in Hcnt.
    set (j := free_slot (set_next_fid (S (next_fid s)) s)) in *.
    assert (Hfree : THRDid (slot_at s j) = -1) by (apply (free_slot_spec s); exact Hslot).
    assert (Hj : (j < Z.to_nat MAXTHRDS)%nat) by (unfold MAXTHRDS in *; lia).
    assert (Hjl : (j < length (tdslot s))%nat) by (by rewrite (pool_slots s Hp)).
    assert (Hji : j <> i).
    { intros ->. destruct Hi as (_ & _ & _ & Hr). lia. }
    match goal with |- context [negb (?a =? ?b)] =>
      assert (Hdiff : negb (a =? b) = true) end.
    { apply negb_true_iff, Z.eqb_neq. simpl.
      assert (THRDid (deref
        (set_counts (ThreadCNT s + 1) (totalTHRDS s + 1)
           (set_tdslot (<[j := mkTD fullpath (st_ino (pstat c)) (depth c + 1)
                                     (totalTHRDS s) 0 f j]> (tdslot s))
              (set_next_fid (S (next_fid s)) s))) (cur fr))
              = THRDid (slot_at s i)) as ->.
      { destruct (cur fr) as [k|td] eqn:Ec; simpl.
        - destruct (stack_ok_slot_top _ _ _ _ _ Hst Ec) as [-> _].
          unfold slot_at. simpl. by rewrite list_lookup_insert_ne.
        - subst c. exact Hid. }
      destruct Hi as (_ & _ & _ & Hr). lia. }
    rewrite Hdiff. exists j. repeat split; auto.
  - (* inline call on the caller's [local] *)
    right. simpl. rewrite Z.eqb_refl. reflexivity.
Qed.

Lemma fan_out_pool_ok t fr fr' stk d f fullpath s :
  pool_ok s ->
  threads s !! t = Some (fr :: stk) ->
  cur fr' = cur fr -> in_loop fr' ->
  pool_ok (fan_out t fr' stk d f fullpath s).
Proof.
  intros Hp Hth Hcur Hloop.
  destruct (pool_threads s Hp _ _ Hth) as [?|(i & Hi & Hst)]; [discriminate|].
  destruct (stack_ok_deref s i fr stk Hi Hst) as (Hb & Hid & Hfl & _ & _).
  destruct (fan_out_cases t fr fr' stk d f fullpath s Hp Hth Hcur)
    as [(j & Hj & Hfree & _ & ->)| ->].
  - eapply (pool_ok_spawn s _ t (fr :: stk) (fr' :: stk) j); eauto;
      try reflexivity; try discriminate.
    intros i' id'. apply stack_ok_top; [exact Hcur|].
    intros E. destruct Hloop as [r Hr]. congruence.
  - unfold inlined. restack_with Hth.
    right. intros i' Hi' Hst'.
    apply stack_push.
    + pose proof (stack_ok_bottom _ _ _ Hst) as B1.
      pose proof (stack_ok_bottom _ _ _ Hst') as B2.
      assert (i' = i) by congruence. subst i'.
      eexists. split; [reflexivity|]. simpl. rewrite Hcur.
      split; [discriminate|]. repeat split; auto. lia.
    + exact Hloop.
    + eapply stack_ok_top; [exact Hcur| |exact Hst'].
      intros E. destruct Hloop as [r Hr]. congruence.
Qed.

(** The worker leaves: its slot is marked unused, its stack is gone. *)
Lemma release_pool_ok t fr stk s :
  pool_ok s ->
  threads s !! t = Some (fr :: stk) ->
  pool_ok (log (EvRelease (cur fr))
             (set_stack t []
                (release_ptr (cur fr)
                   (set_counts (ThreadCNT s - 1) (totalTHRDS s) s)))).
Proof.
  intros Hp Hth.
  destruct (cur fr) as [k|td] eqn:Ec.
  2:{ restack_with Hth. by left. }
  destruct (pool_threads s Hp _ _ Hth) as [?|(i & Hi & Hst)]; [discriminate|].
  destruct (stack_ok_slot_top _ _ _ _ _ Hst Ec) as [-> ->].
  destruct Hp as [Hs Hb Ht Hd].
  assert (Hil : (i < length (tdslot s))%nat) by (rewrite Hs; apply Hi).
  assert (Ht' : (t < length (threads s))%nat) by (eapply lookup_lt_Some; eauto).
  assert (Hother : forall t' stk' i', t' <> t -> threads s !! t' = Some stk' ->
             bottom_slot stk' = Some i' -> i' <> i).
  { intros t' stk' i' Hne Hl B ->. apply (Hd t' t stk' [fr] i); auto.
    simpl. by rewrite Ec. }
  split; simpl.
  - by rewrite length_insert.
  - exact Hb.
  - intros t' stk' Hl.
    destruct (decide (t = t')) as [<-|Hne].
    + rewrite list_lookup_insert_eq in Hl by auto. left. congruence.
    + rewrite list_lookup_insert_ne in Hl by auto.
      destruct (Ht _ _ Hl) as [->|(i' & Hi' & Hst')]; [by left|].
      right. exists i'.
      assert (i' <> i).
      { eapply Hother; eauto. by eapply stack_ok_bottom. }
      assert (Hsl : slot_at (set_tdslot
                 (<[i := mkTD (dname (slot_at s i)) (pinode (slot_at s i))
                          (depth (slot_at s i)) (-1) (flag (slot_at s i))
                          (pstat (slot_at s i)) (buf (slot_at s i))]> (tdslot s))
                 (set_counts (ThreadCNT s - 1) (totalTHRDS s) s)) i' = slot_at s i').
      { unfold slot_at. simpl. by rewrite list_lookup_insert_ne. }
      unfold slot_ok, slot_at in *. simpl in *.
      rewrite list_lookup_insert_ne by auto. auto.
  - intros t1 t2 stk1 stk2 i' Hne H1 H2 B1 B2.
    destruct (decide (t = t1)) as [<-|Hn1].
    { rewrite list_lookup_insert_eq in H1 by auto. injection H1 as <-. discriminate. }
    destruct (decide (t = t2)) as [<-|Hn2].
    { rewrite list_lookup_insert_eq in H2 by auto. injection H2 as <-. discriminate. }
    rewrite list_lookup_insert_ne in H1, H2 by auto.
    apply (Hd t1 t2 stk1 stk2 i'); auto.
Qed.

(** Every step keeps the pool in order. *)
Lemma step_pool_ok t s s' : pool_ok s -> step t s = Some s' -> pool_ok s'.
Proof.
  intros Hp Hstep. unfold step in Hstep.
  destruct (threads s !! t) as [[|fr stk]|] eqn:Hth; try discriminate.
  injection Hstep as <-.
  destruct (pool_threads s Hp _ _ Hth) as [?|(i & Hi & Hst)]; [discriminate|].
  destruct (stack_ok_deref s i fr stk Hi Hst) as (Hb & Hid & Hfl & Hz & Hnz).
  assert (Htop : forall fr', cur fr' = cur fr -> fr_pc fr' <> AtRelease ->
            forall i0, slot_ok s i0 -> stack_ok i0 (THRDid (slot_at s i0)) (fr :: stk) ->
                       stack_ok i0 (THRDid (slot_at s i0)) (fr' :: stk)).
  { intros fr' Hc Hpc i0 _. apply stack_ok_top; [exact Hc|]. intros E. congruence. }
  unfold step_frame.
  destruct (fr_pc fr) as [|[|d rest]| |].
  - destruct (fr_dir fr); restack_with Hth; right; by apply Htop.
  - restack_with Hth. right. by apply Htop.
  - unfold loop_body.
    destruct (is_dot (d_name d)); [restack_with Hth; right; by apply Htop|].
    destruct (is_snapshot (SNAPSHOT s) (d_name d));
      [restack_with Hth; right; by apply Htop|].
    destruct (lst d) as [f|]; [|restack_with Hth; right; by apply Htop].
    destruct (S_ISDIR (st_mode f)).
    + eapply fan_out_pool_ok; eauto. by eexists.
    + restack_with Hth. right. by apply Htop.
  - destruct (Z.eqb_spec (flag (deref s (cur fr))) 0) as [E|E].
    + restack_with Hth. right. intros i0 _.
      apply stack_ok_top; [reflexivity|]. intros _. exists i. by apply Hz.
    + restack_with Hth. destruct stk as [|fr2 stk2]; [by left|right].
      intros i0 Hi0 Hst0.
      pose proof (stack_ok_bottom _ _ _ Hst) as B1.
      pose proof (stack_ok_bottom _ _ _ Hst0) as B2.
      assert (i0 = i) by congruence. subst i0. by apply Hnz.
  - by apply (release_pool_ok t fr stk).
Qed.

(** ** All invocations in progress *)

Definition frames (s : state) : list frame := concat (threads s).

Definition others (t : nat) (l : list (list frame)) : list frame :=
  concat (take t l) ++ concat (drop (S t) l).

Lemma frames_split (l : list (list frame)) t old :
  l !! t = Some old -> concat l ≡ₚ old ++ others t l.
Proof.
  intros H. rewrite <- (take_drop_middle l t old H) at 1.
  rewrite concat_app. simpl. unfold others.
  apply Permutation_app_swap_app.
Qed.

Lemma frames_insert (l : list (list frame)) t old new :
  l !! t = Some old -> concat (<[t := new]> l) ≡ₚ new ++ others t l.
Proof.
  intros H.
  assert (Hlt : (t < length l)%nat) by (eapply lookup_lt_Some; eauto).
  rewrite insert_take_drop by exact Hlt.
  rewrite concat_app. simpl. unfold others.
  apply Permutation_app_swap_app.
Qed.

Lemma frames_spawn (l : list (list frame)) t old new child :
  l !! t = Some old ->
  concat (<[t := new]> l ++ [[child]]) ≡ₚ child :: new ++ others t l.
Proof.
  intros H. rewrite concat_app. simpl.
  rewrite (frames_insert l t old new H).
  rewrite Permutation_app_comm. reflexivity.
Qed.

Lemma elem_of_frames g (l : list (list frame)) :
  g ∈ concat l <-> exists t stk, l !! t = Some stk /\ g ∈ stk.
Proof.
  induction l as [|x l IH]; simpl.
  - split; [intros H; by apply elem_of_nil in H|].
    intros (t & stk & Ht & _). by rewrite lookup_nil in Ht.
  - rewrite elem_of_app, IH. split.
    + intros [H|(t & stk & Ht & Hg)].
      * exists 0%nat, x. auto.
      * exists (S t), stk. auto.
    + intros ([|t] & stk & Ht & Hg); simpl in Ht.
      * left. congruence.
      * right. eauto.
Qed.

Lemma elem_of_others g t (l : list (list frame)) :
  g ∈ others t l -> exists t' stk, t' <> t /\ l !! t' = Some stk /\ g ∈ stk.
Proof.
  unfold others. rewrite elem_of_app. intros [H|H].
  - apply elem_of_frames in H as (k & stk & Hk & Hg).
    pose proof (lookup_lt_Some _ _ _ Hk) as Hlen. rewrite length_take in Hlen.
    rewrite lookup_take_lt in Hk by lia.
    exists k, stk. repeat split; auto. lia.
  - apply elem_of_frames in H as (k & stk & Hk & Hg).
    rewrite lookup_drop in Hk.
    exists (S t + k)%nat, stk. repeat split; auto. lia.
Qed.

Lemma stack_ok_frame s i stk g :
  slot_ok s i -> stack_ok i (THRDid (slot_at s i)) stk -> g ∈ stk ->
  buf (deref s (cur g)) = i
  /\ THRDid (deref s (cur g)) = THRDid (slot_at s i)
  /\ (forall k, cur g = SlotPtr k -> k = i).
Proof.
  intros Hi Hst. induction Hst as [fr Hfr|fr h stk Hl Hh Hs IH]; intros Hg.
  - apply list_elem_of_singleton in Hg as ->. rewrite Hfr. simpl.
    destruct Hi as (_ & _ & Hb & _). repeat split; auto. congruence.
  - apply elem_of_cons in Hg as [->|Hg]; [|by apply IH].
    destruct Hl as (td & Hc & _ & _ & Hb & Hid). rewrite Hc. simpl.
    repeat split; auto. congruence.
Qed.

(** The thread data of an invocation in progress is what its worker's
    slot says. *)
Lemma frame_owner s t stk g :
  pool_ok s -> threads s !! t = Some stk -> g ∈ stk ->
  exists i, slot_ok s i /\ bottom_slot stk = Some i
            /\ buf (deref s (cur g)) = i
            /\ (forall k, cur g = SlotPtr k -> k = i).
Proof.
  intros Hp Hth Hg.
  destruct (pool_threads s Hp _ _ Hth) as [->|(i & Hi & Hst)].
  - by apply elem_of_nil in Hg.
  - exists i. destruct (stack_ok_frame s i stk g Hi Hst Hg) as (H1 & _ & H3).
    split; [exact Hi|]. split; [by eapply stack_ok_bottom|]. split; auto.
Qed.

(** ** What one invocation of [traverse] does, event by event *)

(** The event concerns invocation [fid]: its [opendir] or one of the
    records it writes. *)
Definition about (fid : nat) (e : event) : bool :=
  match e with
  | EvOpendir f _ _ => Nat.eqb f fid
  | EvRecord f _ _ => Nat.eqb f fid
  | _ => false
  end.

(** The events of invocation [fid], oldest first. *)
Fixpoint history (fid : nat) (tr : list event) : list event :=
  match tr with
  | [] => []
  | e :: r => history fid r ++ (if about fid e then [e] else [])
  end.

(** The entry survives the three [continue]s of the loop: it is not "."
    or "..", not ".snapshot" when snapshots are ignored, and [lstat]
    succeeded; the result is its [stat]. *)
Definition considered (snap : Z) (d : dirent) : option stat :=
  if is_dot (d_name d) then None
  else if is_snapshot snap (d_name d) then None
  else lst d.

Definition is_considered (snap : Z) (d : dirent) : bool :=
  match considered snap d with Some _ => true | None => false end.

Definition is_file (snap : Z) (d : dirent) : bool :=
  match considered snap d with
  | Some f => negb (S_ISDIR (st_mode f))
  | None => false
  end.

(** Number of children that are considered. *)
Definition count_children (snap : Z) (l : list dirent) : Z :=
  Z.of_nat (length (List.filter (is_considered snap) l)).

(** Sum of [st_size] over the considered children that are not
    directories. *)
Definition sum_sizes (snap : Z) (l : list dirent) : Z :=
  fold_right Z.add 0
    (map (fun d => match considered snap d with Some f => st_size f | None => 0 end)
         (List.filter (is_file snap) l)).

Definition entry_record (c : threadData) (d : dirent) (f : stat) : record :=
  mkRecord (fullpath_of (dname c) (d_name d)) f (st_ino (pstat c)) (depth c) (-1) 0.

Definition summary_record (c : threadData) (snap : Z) (es : list dirent) : record :=
  mkRecord (dname c) (pstat c) (pinode c) (depth c)
           (count_children snap es) (wrap_long (sum_sizes snap es)).

Definition entry_event (fid : nat) (c : threadData) (snap : Z) (d : dirent)
  : list event :=
  match considered snap d with
  | Some f => if S_ISDIR (st_mode f) then []
              else [EvRecord fid (buf c) (entry_record c d f)]
  | None => []
  end.

Fixpoint entry_events (fid : nat) (c : threadData) (snap : Z) (l : list dirent)
  : list event :=
  match l with
  | [] => []
  | d :: r => entry_event fid c snap d ++ entry_events fid c snap r
  end.

(** Everything a finished invocation has logged. *)
Definition full_events (fid : nat) (c : threadData) (snap : Z)
           (dir : option (list dirent)) : list event :=
  match dir with
  | None => [EvOpendir fid (dname c) None]
  | Some es =>
      EvOpendir fid (dname c) (Some es)
      :: entry_events fid c snap es
      ++ [EvRecord fid (buf c) (summary_record c snap es)]
  end.

Lemma history_app fid l1 l2 :
  history fid (l1 ++ l2) = history fid l2 ++ history fid l1.
Proof.
  induction l1 as [|e l1 IH]; simpl.
  - by rewrite app_nil_r.
  - by rewrite IH, app_assoc.
Qed.

Lemma history_In fid e tr : In e (history fid tr) <-> In e tr /\ about fid e = true.
Proof.
  induction tr as [|x tr IH]; simpl; [prop_solve|].
  rewrite in_app_iff, IH. destruct (about fid x) eqn:E; simpl.
  - split.
    + intros [[? ?]|[<-|[]]]; auto.
    + intros [[<-|?] ?]; auto.
  - split.
    + intros [[? ?]|[]]; auto.
    + intros [[<-|?] ?]; [congruence|auto].
Qed.

Lemma entry_events_app fid c snap l1 l2 :
  entry_events fid c snap (l1 ++ l2)
  = entry_events fid c snap l1 ++ entry_events fid c snap l2.
Proof.
  induction l1 as [|d l1 IH]; simpl; [reflexivity|].
  by rewrite IH, app_assoc.
Qed.

Lemma count_children_app snap l1 l2 :
  count_children snap (l1 ++ l2) = count_children snap l1 + count_children snap l2.
Proof.
  unfold count_children. rewrite List.filter_app, length_app. lia.
Qed.

Lemma sum_sizes_app snap l1 l2 :
  sum_sizes snap (l1 ++ l2) = sum_sizes snap l1 + sum_sizes snap l2.
Proof.
  unfold sum_sizes. rewrite List.filter_app, map_app.
  induction (map _ (List.filter (is_file snap) l1)) as [|x l IH]; simpl; lia.
Qed.

Lemma count_children_nonneg snap l : 0 <= count_children snap l.
Proof. unfold count_children. lia. Qed.

(** Arithmetic in [long]. *)
Lemma wrap_long_add_l a b : wrap_long (wrap_long a + b) = wrap_long (a + b).
Proof.
  unfold wrap_long.
  replace ((a + 2 ^ 63) mod 2 ^ 64 - 2 ^ 63 + b + 2 ^ 63)
    with ((a + 2 ^ 63) mod 2 ^ 64 + b) by lia.
  rewrite Z.add_mod_idemp_l by lia. f_equal. f_equal. lia.
Qed.

Lemma wrap_long_idem a : wrap_long (wrap_long a) = wrap_long a.
Proof.
  pose proof (wrap_long_add_l a 0) as H. by rewrite !Z.add_0_r in H.
Qed.


Lemma wrap_long_range a : - 2 ^ 63 <= wrap_long a < 2 ^ 63.
Proof.
  unfold wrap_long. pose proof (Z.mod_pos_bound (a + 2 ^ 63) (2 ^ 64)). lia.
Qed.

Lemma stack_ok_release i id fr stk :
  stack_ok i id (fr :: stk) -> fr_pc fr = AtRelease -> stk = [] /\ cur fr = SlotPtr i.
Proof.
  intros H Hpc. inversion H as [x Hx|x g y (td & _ & Hn & _) Hg Hs]; subst; auto.
  congruence.
Qed.

(** The cases of a step of the invocation [fr] (caller stack [stk]),
    from [s] to [s']: the frames that replace [fr] and the events of
    [fr] that are logged. *)
Inductive transition (s s' : state) (fr : frame) (stk : list frame)
  : list frame -> list event -> Prop :=
| tr_open_fail :
    fr_pc fr = AtOpen -> fr_dir fr = None -> next_fid s' = next_fid s ->
    transition s s' fr stk [with_pc AtCleanup fr]
               [EvOpendir (fr_id fr) (dname (deref s (cur fr))) None]
| tr_open_ok es :
    fr_pc fr = AtOpen -> fr_dir fr = Some es -> next_fid s' = next_fid s ->
    transition s s' fr stk [with_pc (AtLoop es) fr]
               [EvOpendir (fr_id fr) (dname (deref s (cur fr))) (Some es)]
| tr_skip d rest :
    fr_pc fr = AtLoop (d :: rest) -> considered (SNAPSHOT s) d = None ->
    next_fid s' = next_fid s ->
    transition s s' fr stk [with_pc (AtLoop rest) fr] []
| tr_file d rest f :
    fr_pc fr = AtLoop (d :: rest) -> considered (SNAPSHOT s) d = Some f ->
    S_ISDIR (st_mode f) = false -> next_fid s' = next_fid s ->
    transition s s' fr stk
               [mkFrame (fr_id fr) (cur fr) (fr_dir fr) (AtLoop rest)
                        (localCnt fr + 1) (wrap_long (localSz fr + st_size f))]
               [EvRecord (fr_id fr) (buf (deref s (cur fr)))
                         (entry_record (deref s (cur fr)) d f)]
| tr_dir d rest f child :
    fr_pc fr = AtLoop (d :: rest) -> considered (SNAPSHOT s) d = Some f ->
    S_ISDIR (st_mode f) = true -> next_fid s' = S (next_fid s) ->
    fr_id child = next_fid s -> fr_pc child = AtOpen ->
    fr_dir child = sub d -> localCnt child = 0 -> localSz child = 0 ->
    dname (deref s' (cur child))
    = fullpath_of (dname (deref s (cur fr))) (d_name d) ->
    transition s s' fr stk
               [child; mkFrame (fr_id fr) (cur fr) (fr_dir fr) (AtLoop rest)
                               (localCnt fr + 1) (localSz fr)]
               []
| tr_summary :
    fr_pc fr = AtLoop [] -> next_fid s' = next_fid s ->
    transition s s' fr stk [with_pc AtCleanup fr]
               [EvRecord (fr_id fr) (buf (deref s (cur fr)))
                  (mkRecord (dname (deref s (cur fr))) (pstat (deref s (cur fr)))
                            (pinode (deref s (cur fr))) (depth (deref s (cur fr)))
                            (localCnt fr) (localSz fr))]
| tr_flush :
    fr_pc fr = AtCleanup -> flag (deref s (cur fr)) = 0 ->
    next_fid s' = next_fid s ->
    transition s s' fr stk [with_pc AtRelease fr] []
| tr_return :
    fr_pc fr = AtCleanup -> flag (deref s (cur fr)) <> 0 ->
    next_fid s' = next_fid s ->
    transition s s' fr stk [] []
| tr_exit :
    fr_pc fr = AtRelease -> stk = [] -> next_fid s' = next_fid s ->
    transition s s' fr stk [] [].

Definition own (fid fid' : nat) (evs : list event) : list event :=
  if Nat.eqb fid fid' then evs else [].

Lemma history_flush_events fid b s : history fid (flush_events b s) = [].
Proof. unfold flush_events. by destruct (_ =? _). Qed.

Lemma history_room_events fid b len s : history fid (room_events b len s) = [].
Proof.
  unfold room_events. destruct (_ >=? _); [apply history_flush_events|reflexivity].
Qed.

Lemma deref_tdslot s s' p : tdslot s' = tdslot s -> deref s' p = deref s p.
Proof. intros H. destruct p; simpl; [|reflexivity]. unfold slot_at. by rewrite H. Qed.

Lemma slot_in_use s g :
  pool_ok s -> g ∈ frames s -> forall k, cur g = SlotPtr k -> slot_ok s k.
Proof.
  intros Hp Hg k Hk. apply elem_of_frames in Hg as (t & stk & Ht & Hg).
  destruct (frame_owner s t stk g Hp Ht Hg) as (i & Hi & _ & _ & Hk').
  by rewrite (Hk' k Hk).
Qed.

Ltac hist_solve :=
  intros; walker_simpl;
  rewrite ?history_app, ?history_room_events, ?history_flush_events;
  unfold own; simpl; rewrite ?app_nil_r;
  destruct (Nat.eqb _ _); rewrite ?app_nil_r; reflexivity.

Lemma loop_body_considered t fr stk d rest s :
  loop_body t fr stk d rest s
  = match considered (SNAPSHOT s) d with
    | None => set_stack t (with_pc (AtLoop rest) fr :: stk) s
    | Some f =>
        if S_ISDIR (st_mode f) then
          fan_out t (mkFrame (fr_id fr) (cur fr) (fr_dir fr) (AtLoop rest)
                             (localCnt fr + 1) (localSz fr))
                  stk d f (fullpath_of (dname (deref s (cur fr))) (d_name d)) s
        else
          write_record (fr_id fr) (buf (deref s (cur fr)))
            (entry_record (deref s (cur fr)) d f)
            (set_stack t (mkFrame (fr_id fr) (cur fr) (fr_dir fr) (AtLoop rest)
                                  (localCnt fr + 1)
                                  (wrap_long (localSz fr + st_size f)) :: stk) s)
    end.
Proof.
  unfold loop_body, considered.
  destruct (is_dot (d_name d)); [reflexivity|].
  destruct (is_snapshot (SNAPSHOT s) (d_name d)); [reflexivity|].
  reflexivity.
Qed.

Lemma step_transition t s fr stk :
  pool_ok s -> threads s !! t = Some (fr :: stk) ->
  exists news evs,
    transition s (step_frame t fr stk s) fr stk news evs
    /\ frames (step_frame t fr stk s) ≡ₚ news ++ stk ++ others t (threads s)
    /\ SNAPSHOT (step_frame t fr stk s) = SNAPSHOT s
    /\ (forall fid, history fid (trace (step_frame t fr stk s))
                    = history fid (trace s) ++ own (fr_id fr) fid evs)
    /\ (forall g, g ∈ stk ++ others t (threads s) ->
                  deref (step_frame t fr stk s) (cur g) = deref s (cur g))
    /\ (news <> [] -> deref (step_frame t fr stk s) (cur fr) = deref s (cur fr)).
Proof.
  intros Hp Hth.
  destruct (pool_threads s Hp _ _ Hth) as [?|(i & Hi & Hst)]; [discriminate|].
  pose proof (frames_split _ _ _ Hth) as Hsplit.
  assert (Hold : forall g, g ∈ stk ++ others t (threads s) -> g ∈ frames s).
  { intros g Hg. unfold frames. rewrite Hsplit. simpl. by apply elem_of_cons; right. }
  unfold step_frame.
  destruct (fr_pc fr) as [|[|d rest]| |] eqn:Hpc.
  - (* opendir *)
    destruct (fr_dir fr) as [es|] eqn:Hdir.
    + exists [with_pc (AtLoop es) fr], [EvOpendir (fr_id fr) (dname (deref s (cur fr))) (Some es)].
      split; [by apply tr_open_ok|].
      split; [unfold frames; simpl; by rewrite (frames_insert _ _ _ _ Hth)|].
      split; [reflexivity|].
      split; [hist_solve|].
      split; intros; by apply deref_tdslot.
    + exists [with_pc AtCleanup fr], [EvOpendir (fr_id fr) (dname (deref s (cur fr))) None].
      split; [by apply tr_open_fail|].
      split; [unfold frames; simpl; by rewrite (frames_insert _ _ _ _ Hth)|].
      split; [reflexivity|].
      split; [hist_solve|].
      split; intros; by apply deref_tdslot.
  - (* the summary record *)
    eexists [with_pc AtCleanup fr], [_].
    split; [by apply tr_summary; walker_simpl|].
    split; [unfold frames; walker_simpl; by rewrite (frames_insert _ _ _ _ Hth)|].
    split; [by walker_simpl|].
    split.
    { hist_solve. }
    split; intros; apply deref_tdslot; by walker_simpl.
  - (* one entry *)
    rewrite loop_body_considered.
    destruct (considered (SNAPSHOT s) d) as [f|] eqn:Hcons.
    2:{ exists [with_pc (AtLoop rest) fr], [].
        split; [by eapply tr_skip|].
        split; [unfold frames; simpl; by rewrite (frames_insert _ _ _ _ Hth)|].
        split; [reflexivity|].
        split; [hist_solve|].
        split; intros; by apply deref_tdslot. }
    destruct (S_ISDIR (st_mode f)) eqn:Hdirp.
    + set (fr' := mkFrame (fr_id fr) (cur fr) (fr_dir fr) (AtLoop rest)
                          (localCnt fr + 1) (localSz fr)).
      assert (Hfr : fr ∈ frames s).
      { unfold frames. rewrite Hsplit. simpl. by apply elem_of_cons; left. }
      destruct (fan_out_cases t fr fr' stk d f
                  (fullpath_of (dname (deref s (cur fr))) (d_name d)) s Hp Hth eq_refl)
        as [(j & Hj & Hfree & _ & ->)| ->].
      * assert (Hjl : (j < length (tdslot s))%nat) by (by rewrite (pool_slots s Hp)).
        assert (Hkeep : forall g, g ∈ frames s ->
                  deref (spawned t fr' stk d f
                           (fullpath_of (dname (deref s (cur fr))) (d_name d)) j s) (cur g)
                  = deref s (cur g)).
        { intros g Hg. destruct (cur g) as [k|td] eqn:Ek; [|reflexivity].
          pose proof (slot_in_use s g Hp Hg k Ek) as (_ & _ & _ & Hr).
          assert (j <> k) by (intros ->; lia).
          simpl. unfold slot_at. simpl. by rewrite list_lookup_insert_ne. }
        exists [new_frame (next_fid s) (SlotPtr j) (sub d); fr'], [].
        split.
        { eapply tr_dir; eauto; try reflexivity.
          simpl. unfold slot_at. simpl. by rewrite list_lookup_insert_eq. }
        split; [unfold frames; simpl; by rewrite (frames_spawn _ _ _ _ _ Hth)|].
        split; [reflexivity|].
        split; [hist_solve|].
        split; [intros g Hg; by apply Hkeep, Hold|].
        intros _. by apply Hkeep.
      * exists [new_frame (next_fid s)
                  (LocalPtr (inline_td (deref s (cur fr')) f
                     (fullpath_of (dname (deref s (cur fr))) (d_name d)))) (sub d); fr'], [].
        split; [eapply tr_dir; eauto; reflexivity|].
        split; [unfold frames; simpl; by rewrite (frames_insert _ _ _ _ Hth)|].
        split; [reflexivity|].
        split; [hist_solve|].
        split; intros; by apply deref_tdslot.
    + eexists [_], [_].
      split; [by eapply tr_file; walker_simpl|].
      split; [unfold frames; walker_simpl; by rewrite (frames_insert _ _ _ _ Hth)|].
      split; [by walker_simpl|].
      split.
      { hist_solve. }
      split; intros; apply deref_tdslot; by walker_simpl.
  - (* cleanup *)
    destruct (Z.eqb_spec (flag (deref s (cur fr))) 0) as [E|E].
    + exists [with_pc AtRelease fr], [].
      split; [by apply tr_flush; walker_simpl|].
      split; [unfold frames; walker_simpl; by rewrite (frames_insert _ _ _ _ Hth)|].
      split; [by walker_simpl|].
      split.
      { intros fid. walker_simpl. rewrite history_app, history_flush_events.
        unfold own. destruct (Nat.eqb _ _); by rewrite app_nil_r. }
      split; intros; apply deref_tdslot; by walker_simpl.
    + exists [], [].
      split; [by apply tr_return|].
      split; [unfold frames; simpl; by rewrite (frames_insert _ _ _ _ Hth)|].
      split; [reflexivity|].
      split; [hist_solve|].
      split; [intros; by apply deref_tdslot|congruence].
  - (* release and exit *)
    destruct (stack_ok_release _ _ _ _ Hst Hpc) as [-> Hcur].
    exists [], []. rewrite Hcur.
    split; [by apply tr_exit|].
    split; [unfold frames; simpl; by rewrite (frames_insert _ _ _ _ Hth)|].
    split; [reflexivity|].
    split; [hist_solve|].
    split; [|congruence].
    intros g Hg. simpl in Hg.
    destruct (cur g) as [k|td] eqn:Ek; [|reflexivity].
    apply elem_of_others in Hg as (t' & stk' & Hne & Ht' & Hg).
    destruct (frame_owner s t' stk' g Hp Ht' Hg) as (i' & Hi' & Hb' & _ & Hk').
    assert (k = i') by (by apply Hk'). subst k.
    assert (i' <> i).
    { intros ->. apply (pool_distinct s Hp t' t stk' [fr] i); auto.
      simpl. by rewrite Hcur. }
    simpl. unfold slot_at. simpl.
    by rewrite list_lookup_insert_ne.
Qed.

(** ** The log of every invocation *)

(** What invocation [fr] has logged, by where it stands: nothing before
    [opendir]; inside the loop, the [opendir] and one record per
    non-directory child already read, with the two counters matching the
    children read; after the loop, the whole story. *)
Definition frame_inv (s : state) (fr : frame) : Prop :=
  match fr_pc fr with
  | AtOpen =>
      history (fr_id fr) (trace s) = [] /\ localCnt fr = 0 /\ localSz fr = 0
  | AtLoop rest =>
      exists done es,
        fr_dir fr = Some es /\ es = done ++ rest
        /\ history (fr_id fr) (trace s)
           = EvOpendir (fr_id fr) (dname (deref s (cur fr))) (Some es)
             :: entry_events (fr_id fr) (deref s (cur fr)) (SNAPSHOT s) done
        /\ localCnt fr = count_children (SNAPSHOT s) done
        /\ localSz fr = wrap_long (sum_sizes (SNAPSHOT s) done)
  | AtCleanup | AtRelease =>
      history (fr_id fr) (trace s)
      = full_events (fr_id fr) (deref s (cur fr)) (SNAPSHOT s) (fr_dir fr)
  end.

Record events_ok (s : state) : Prop := {
  ev_frames : forall g, g ∈ frames s -> frame_inv s g /\ (fr_id g < next_fid s)%nat;
  ev_nodup : NoDup (fr_id <$> frames s);
  ev_done : forall fid, (fid < next_fid s)%nat -> fid ∉ (fr_id <$> frames s) ->
      exists c dir, history fid (trace s) = full_events fid c (SNAPSHOT s) dir;
  ev_fresh : forall fid, (next_fid s <= fid)%nat -> history fid (trace s) = []
}.

Lemma frame_inv_stable s s' g :
  history (fr_id g) (trace s') = history (fr_id g) (trace s) ->
  deref s' (cur g) = deref s (cur g) ->
  SNAPSHOT s' = SNAPSHOT s ->
  frame_inv s g -> frame_inv s' g.
Proof.
  intros Hh Hd Hs. unfold frame_inv. rewrite Hh, Hd, Hs. prop_solve.
Qed.

Lemma transition_next_fid s s' fr stk news evs :
  transition s s' fr stk news evs -> (next_fid s <= next_fid s')%nat.
Proof. destruct 1; lia. Qed.

Lemma own_other fid fid' evs : fid <> fid' -> own fid fid' evs = [].
Proof. intros H. unfold own. by rewrite (proj2 (Nat.eqb_neq _ _) H). Qed.

Lemma own_same fid evs : own fid fid evs = evs.
Proof. unfold own. by rewrite Nat.eqb_refl. Qed.

Lemma entry_event_skip fid c snap d :
  considered snap d = None -> entry_event fid c snap d = [].
Proof. unfold entry_event. by intros ->. Qed.

Lemma count_children_snoc snap l d :
  count_children snap (l ++ [d])
  = count_children snap l + (if is_considered snap d then 1 else 0).
Proof.
  rewrite count_children_app. unfold count_children at 2. simpl.
  by destruct (is_considered snap d).
Qed.

Lemma sum_sizes_snoc snap l d :
  sum_sizes snap (l ++ [d])
  = sum_sizes snap l
    + (if is_file snap d
       then match considered snap d with Some f => st_size f | None => 0 end
       else 0).
Proof.
  rewrite sum_sizes_app. unfold sum_sizes at 2. simpl.
  destruct (is_file snap d); simpl; lia.
Qed.

(** The frames that replace a stepping invocation satisfy their
    invariant. *)
Lemma transition_frame_inv s s' fr stk news evs :
  transition s s' fr stk news evs ->
  frame_inv s fr -> (fr_id fr < next_fid s)%nat ->
  (forall fid, (next_fid s <= fid)%nat -> history fid (trace s) = []) ->
  SNAPSHOT s' = SNAPSHOT s ->
  (forall fid, history fid (trace s')
               = history fid (trace s) ++ own (fr_id fr) fid evs) ->
  (news <> [] -> deref s' (cur fr) = deref s (cur fr)) ->
  forall g, g ∈ news -> frame_inv s' g /\ (fr_id g < next_fid s')%nat.
Proof.
  intros Htr Hinv Hlt Hfresh Hsnap Hhist Hder g Hg.
  assert (Hself : history (fr_id fr) (trace s')
                  = history (fr_id fr) (trace s) ++ evs).
  { rewrite Hhist. by rewrite own_same. }
  assert (Hc : news <> [] -> deref s' (cur fr) = deref s (cur fr)) by exact Hder.
  unfold frame_inv in Hinv.
  destruct Htr as [Hpc Hdir Hn|es Hpc Hdir Hn|d rest Hpc Hcons Hn
                  |d rest f Hpc Hcons Hisd Hn
                  |d rest f child Hpc Hcons Hisd Hn Hid Hcpc Hcdir Hcc Hcs Hcd
                  |Hpc Hn|Hpc Hfl Hn|Hpc Hfl Hn|Hpc Hstk Hn];
    rewrite Hpc in Hinv.
  - apply list_elem_of_singleton in Hg as ->. split; [|simpl; lia].
    destruct Hinv as (Hh & _ & _).
    unfold frame_inv. simpl. rewrite Hself, Hh, Hc, Hdir by discriminate.
    reflexivity.
  - apply list_elem_of_singleton in Hg as ->. split; [|simpl; lia].
    destruct Hinv as (Hh & Hcnt & Hsz).
    unfold frame_inv. simpl. exists [], es.
    rewrite Hself, Hh, Hc, Hsnap by discriminate. simpl.
    repeat split; auto.
  - apply list_elem_of_singleton in Hg as ->. split; [|simpl; lia].
    destruct Hinv as (done & es & Hdir & Hes & Hh & Hcnt & Hsz).
    unfold frame_inv. simpl. exists (done ++ [d]), es.
    rewrite Hself, Hh, Hc, Hsnap by discriminate.
    rewrite entry_events_app, count_children_snoc, sum_sizes_snoc. simpl.
    unfold is_considered, is_file. rewrite entry_event_skip, Hcons by exact Hcons.
    rewrite !app_nil_r, <- app_assoc. simpl.
    repeat split; auto;
      rewrite ?Hsz, ?wrap_long_add_l, ?Z.add_0_r; first [reflexivity|lia].
  - apply list_elem_of_singleton in Hg as ->. split; [|simpl; lia].
    destruct Hinv as (done & es & Hdir & Hes & Hh & Hcnt & Hsz).
    unfold frame_inv. simpl. exists (done ++ [d]), es.
    rewrite Hself, Hh, Hc, Hsnap by discriminate.
    rewrite entry_events_app, count_children_snoc, sum_sizes_snoc. simpl.
    unfold is_considered, is_file, entry_event. rewrite Hcons, Hisd. simpl.
    rewrite <- app_assoc. simpl.
    repeat split; auto;
      rewrite ?Hsz, ?wrap_long_add_l, ?Z.add_0_r; first [reflexivity|lia].
  - destruct Hinv as (done & es & Hdir & Hes & Hh & Hcnt & Hsz).
    apply elem_of_cons in Hg as [->|Hg].
    + split; [|lia]. unfold frame_inv. rewrite Hcpc, Hhist, Hid.
      rewrite own_other by lia. rewrite app_nil_r.
      split; [by apply Hfresh|]. auto.
    + apply list_elem_of_singleton in Hg as ->. split; [|simpl; lia].
      unfold frame_inv. simpl. exists (done ++ [d]), es.
      rewrite Hself, Hh, Hc, Hsnap by discriminate.
      rewrite entry_events_app, count_children_snoc, sum_sizes_snoc. simpl.
      unfold is_considered, is_file, entry_event. rewrite Hcons, Hisd. simpl.
      rewrite !app_nil_r, <- app_assoc. simpl.
      repeat split; auto;
      rewrite ?Hsz, ?wrap_long_add_l, ?Z.add_0_r; first [reflexivity|lia].
  - apply list_elem_of_singleton in Hg as ->. split; [|simpl; lia].
    destruct Hinv as (done & es & Hdir & Hes & Hh & Hcnt & Hsz).
    rewrite app_nil_r in Hes. subst done.
    unfold frame_inv. simpl.
    rewrite Hself, Hh, Hc, Hsnap, Hdir, Hcnt, Hsz by discriminate.
    reflexivity.
  - apply list_elem_of_singleton in Hg as ->. split; [|simpl; lia].
    unfold frame_inv. simpl.
    rewrite Hself, Hinv, Hc, Hsnap by discriminate. by rewrite app_nil_r.
  - by apply elem_of_nil in Hg.
  - by apply elem_of_nil in Hg.
Qed.

Lemma transition_ids s s' fr stk news evs :
  transition s s' fr stk news evs ->
  (fr_id <$> news = [fr_id fr] /\ next_fid s' = next_fid s)
  \/ (fr_id <$> news = [next_fid s; fr_id fr] /\ evs = []
      /\ next_fid s' = S (next_fid s))
  \/ (news = [] /\ evs = [] /\ next_fid s' = next_fid s
      /\ (fr_pc fr = AtCleanup \/ fr_pc fr = AtRelease)).
Proof.
  destruct 1; simpl; auto.
  - right; left. repeat split; auto. by f_equal.
  - right; right. auto.
  - right; right. auto.
Qed.

Lemma step_events_ok t s s' :
  pool_ok s -> events_ok s -> step t s = Some s' -> events_ok s'.
Proof.
  intros Hp [Hfr Hnd Hdone Hfresh] Hstep. unfold step in Hstep.
  destruct (threads s !! t) as [[|fr stk]|] eqn:Hth; try discriminate.
  injection Hstep as <-.
  destruct (step_transition t s fr stk Hp Hth)
    as (news & evs & Htr & Hperm & Hsnap & Hhist & Hder & Hderfr).
  set (s' := step_frame t fr stk s) in *.
  set (F := stk ++ others t (threads s)) in *.
  assert (Hsplit : frames s ≡ₚ fr :: F) by (apply (frames_split _ _ _ Hth)).
  assert (HinF : forall g, g ∈ F -> g ∈ frames s).
  { intros g Hg. rewrite Hsplit. by apply elem_of_cons; right. }
  assert (Hfrin : fr ∈ frames s) by (rewrite Hsplit; by apply elem_of_cons; left).
  destruct (Hfr fr Hfrin) as [Hinv Hlt].
  assert (Hnd' : NoDup (fr_id fr :: (fr_id <$> F))).
  { rewrite Hsplit in Hnd. exact Hnd. }
  apply NoDup_cons in Hnd' as [HnotF HndF].
  pose proof (transition_next_fid _ _ _ _ _ _ Htr) as Hmono.
  assert (HltF : forall g, g ∈ F -> (fr_id g < next_fid s)%nat).
  { intros g Hg. by apply Hfr, HinF. }
  assert (HneF : forall g, g ∈ F -> fr_id fr <> fr_id g).
  { intros g Hg E. apply HnotF. rewrite E. by apply list_elem_of_fmap_2. }
  pose proof (transition_frame_inv s s' fr stk news evs Htr Hinv Hlt Hfresh
                Hsnap Hhist Hderfr) as Hnews.
  split.
  - intros g Hg. rewrite Hperm in Hg. apply elem_of_app in Hg as [Hg|Hg].
    + by apply Hnews.
    + split; [|pose proof (HltF g Hg); lia].
      apply (frame_inv_stable s s').
      * rewrite Hhist, own_other by (by apply HneF). by rewrite app_nil_r.
      * by apply Hder.
      * exact Hsnap.
      * by apply Hfr, HinF.
  - rewrite Hperm, fmap_app. apply NoDup_app. split; [|split; [|exact HndF]].
    + destruct (transition_ids _ _ _ _ _ _ Htr)
        as [[-> _]|[(-> & _ & _)|(-> & _)]]; simpl.
      * apply NoDup_singleton.
      * apply NoDup_cons. split; [|apply NoDup_singleton].
        intros H. apply list_elem_of_singleton in H. lia.
      * apply NoDup_nil_2.
    + intros x Hx HxF.
      apply list_elem_of_fmap in HxF as (g & -> & Hg).
      destruct (transition_ids _ _ _ _ _ _ Htr)
        as [[E _]|[(E & _ & _)|(E & _)]]; rewrite E in Hx; simpl in Hx.
      * apply list_elem_of_singleton in Hx. by apply (HneF g Hg).
      * apply elem_of_cons in Hx as [Hx|Hx].
        -- pose proof (HltF g Hg). lia.
        -- apply list_elem_of_singleton in Hx. by apply (HneF g Hg).
      * by apply elem_of_nil in Hx.
  - intros fid Hlt' Hnot. rewrite Hsnap, Hhist.
    rewrite Hperm, fmap_app in Hnot.
    assert (HnF : fid ∉ (fr_id <$> F)).
    { intros H. apply Hnot, elem_of_app. by right. }
    assert (Hnn : fid ∉ (fr_id <$> news)).
    { intros H. apply Hnot, elem_of_app. by left. }
    destruct (decide (fid = fr_id fr)) as [->|Hne].
    + rewrite own_same.
      destruct (transition_ids _ _ _ _ _ _ Htr)
        as [[E _]|[(E & _ & _)|(E & -> & _ & Hpc)]].
      * exfalso. apply Hnn. rewrite E. apply list_elem_of_singleton. reflexivity.
      * exfalso. apply Hnn. rewrite E. apply elem_of_cons. right.
        apply list_elem_of_singleton. reflexivity.
      * rewrite app_nil_r. unfold frame_inv in Hinv.
        destruct Hpc as [Hpc|Hpc]; rewrite Hpc in Hinv; eauto.
    + rewrite own_other by auto. rewrite app_nil_r.
      destruct (decide (fid < next_fid s)%nat) as [Hl|Hge].
      * apply Hdone; [exact Hl|]. rewrite Hsplit. simpl.
        intros H. apply elem_of_cons in H as [H|H]; auto.
      * destruct (transition_ids _ _ _ _ _ _ Htr)
          as [[_ E]|[(E & _ & En)|(_ & _ & E & _)]]; try lia.
        exfalso. apply Hnn. rewrite E. apply elem_of_cons. left. lia.
  - intros fid Hge. rewrite Hhist, own_other by lia.
    rewrite app_nil_r. apply Hfresh. lia.
Qed.

(** ** Buffers *)

Lemma buffer_at_out_of_range s b :
  (length (buffers s) <= b)%nat -> buffer_at s b = mkBuf [] 0.
Proof.
  intros H. unfold buffer_at. by rewrite lookup_ge_None_2.
Qed.

Lemma flush_buffer_used_nonneg b b' s :
  0 <= used (buffer_at s b') -> 0 <= used (buffer_at (flush_buffer b s) b').
Proof.
  intros H. destruct (decide (b = b')) as [->|Hne].
  - rewrite flush_buffer_used. lia.
  - by rewrite flush_buffer_other.
Qed.

Lemma write_record_used fid b r s :
  (b < length (buffers s))%nat ->
  used (buffer_at (write_record fid b r s) b)
  = used (buffer_at (make_room b (strlen (record_text r)) s) b)
    + strlen (record_text r).
Proof.
  intros Hb. unfold buffer_at at 1. rewrite write_record_buffers.
  rewrite list_lookup_insert_eq; [reflexivity|].
  by rewrite make_room_length.
Qed.

Lemma make_room_used_nonneg b len s :
  0 <= used (buffer_at s b) -> 0 <= used (buffer_at (make_room b len s) b).
Proof.
  intros H. unfold make_room. destruct (_ >=? _); [|exact H].
  by apply flush_buffer_used_nonneg.
Qed.

Lemma write_record_used_nonneg fid b b' r s :
  0 <= used (buffer_at s b') -> 0 <= used (buffer_at (write_record fid b r s) b').
Proof.
  intros H. destruct (decide (b = b')) as [<-|Hne].
  - destruct (decide (b < length (buffers s))%nat) as [Hb|Hb].
    + rewrite write_record_used by exact Hb.
      pose proof (make_room_used_nonneg b (strlen (record_text r)) s H).
      assert (0 <= strlen (record_text r)) by (unfold strlen; lia). lia.
    + rewrite buffer_at_out_of_range; [simpl; lia|].
      rewrite write_record_length. lia.
  - by rewrite write_record_other.
Qed.

Lemma fan_out_buffers t fr stk d f fullpath s :
  buffers (fan_out t fr stk d f fullpath s) = buffers s
  /\ output_file (fan_out t fr stk d f fullpath s) = output_file s
  /\ zstd_stream (fan_out t fr stk d f fullpath s) = zstd_stream s
  /\ SNAPSHOT (fan_out t fr stk d f fullpath s) = SNAPSHOT s
  /\ exists child parent spawn,
       trace (fan_out t fr stk d f fullpath s) = EvEnter child parent d spawn :: trace s.
Proof.
  unfold fan_out.
  repeat match goal with |- context [if ?c then _ else _] => destruct c end;
    simpl; repeat split; eauto.
Qed.

(** A step touches no buffer but the one of the stepping invocation, and
    the flush at [cleanup] leaves that one empty. *)
Lemma step_buffers t s fr stk :
  let c := deref s (cur fr) in
  let s' := step_frame t fr stk s in
  (forall b, b <> buf c -> buffer_at s' b = buffer_at s b)
  /\ (forall b, 0 <= used (buffer_at s b) -> 0 <= used (buffer_at s' b))
  /\ (fr_pc fr = AtCleanup -> flag c = 0 -> used (buffer_at s' (buf c)) = 0)
  /\ length (buffers s') = length (buffers s).
Proof.
  intros c s'. subst s'. unfold step_frame. fold c.
  destruct (fr_pc fr) as [|[|d rest]| |] eqn:Hpc.
  - destruct (fr_dir fr); repeat split; auto; discriminate.
  - split; [intros b Hb; by rewrite write_record_other|].
    split; [intros b Hb; by apply write_record_used_nonneg|].
    split; [discriminate|]. by rewrite write_record_length.
  - rewrite loop_body_considered. fold c.
    destruct (considered (SNAPSHOT s) d) as [f|]; [|repeat split; auto; discriminate].
    destruct (S_ISDIR (st_mode f)).
    + match goal with |- context [fan_out ?a ?b ?c ?d ?e ?f ?g] =>
        destruct (fan_out_buffers a b c d e f g) as (E & _) end.
      unfold buffer_at. rewrite E. repeat split; auto; discriminate.
    + split; [intros b Hb; by rewrite write_record_other|].
      split; [intros b Hb; by apply write_record_used_nonneg|].
      split; [discriminate|]. by rewrite write_record_length.
  - destruct (Z.eqb_spec (flag c) 0) as [E|E].
    + split; [intros b Hb; by rewrite flush_buffer_other|].
      split; [intros b Hb; by apply flush_buffer_used_nonneg|].
      split; [intros _ _; apply flush_buffer_used|].
      by rewrite flush_buffer_length.
    + repeat split; auto. intros _ ?. congruence.
  - destruct (cur fr); repeat split; auto; discriminate.
Qed.

Record bufs_ok (s : state) : Prop := {
  bufs_nonneg : forall b, 0 <= used (buffer_at s b);
  bufs_release : forall g, g ∈ frames s -> fr_pc g = AtRelease ->
      used (buffer_at s (buf (deref s (cur g)))) = 0
}.

Lemma transition_release s s' fr stk news evs g :
  transition s s' fr stk news evs -> g ∈ news -> fr_pc g = AtRelease ->
  fr_pc fr = AtCleanup /\ flag (deref s (cur fr)) = 0 /\ cur g = cur fr.
Proof.
  intros Htr Hg Hpc.
  destruct Htr; repeat (apply elem_of_cons in Hg as [->|Hg]);
    try (by apply elem_of_nil in Hg); simpl in Hpc; try discriminate; try congruence.
  auto.
Qed.

Lemma step_bufs_ok t s s' :
  pool_ok s -> bufs_ok s -> step t s = Some s' -> bufs_ok s'.
Proof.
  intros Hp [Hnn Hrel] Hstep. unfold step in Hstep.
  destruct (threads s !! t) as [[|fr stk]|] eqn:Hth; try discriminate.
  injection Hstep as <-.
  destruct (step_transition t s fr stk Hp Hth)
    as (news & evs & Htr & Hperm & Hsnap & Hhist & Hder & Hderfr).
  destruct (step_buffers t s fr stk) as (Hother & Hnon & Hflush & _).
  destruct (pool_threads s Hp _ _ Hth) as [?|(i & Hi & Hst)]; [discriminate|].
  destruct (stack_ok_deref s i fr stk Hi Hst) as (Hb & _).
  split.
  - intros b. apply Hnon, Hnn.
  - intros g Hg Hpc. rewrite Hperm in Hg. apply elem_of_app in Hg as [Hg|Hg].
    + destruct (transition_release _ _ _ _ _ _ g Htr Hg Hpc) as (Hc & Hf & Hcur).
      rewrite Hcur, Hderfr.
      * by apply Hflush.
      * intros ->. by apply elem_of_nil in Hg.
    + rewrite (Hder g Hg).
      assert (Hgin : g ∈ frames s).
      { unfold frames. rewrite (frames_split _ _ _ Hth). simpl.
        by apply elem_of_cons; right. }
      rewrite Hother; [by apply Hrel|].
      apply elem_of_app in Hg as [Hg|Hg].
      * exfalso. pose proof (stack_ok_waiting _ _ _ _ Hst) as Hw.
        rewrite Forall_forall in Hw. destruct (Hw g Hg) as [r Hr]. congruence.
      * apply elem_of_others in Hg as (t' & stk' & Hne & Ht' & Hg).
        destruct (frame_owner s t' stk' g Hp Ht' Hg) as (i' & Hi' & Hb' & Hbuf & _).
        rewrite Hbuf, Hb. intros ->.
        apply (pool_distinct s Hp t' t stk' (fr :: stk) i); auto.
        by eapply stack_ok_bottom.
Qed.

(** ** From records to bytes in the sink *)

(** What has been flushed out of cell [b], oldest bytes first. *)
Fixpoint flushed (b : nat) (tr : list event) : bytes :=
  match tr with
  | [] => []
  | e :: r =>
      flushed b r ++ match e with
                     | EvFlush b' data => if Nat.eqb b' b then data else []
                     | _ => []
                     end
  end.

(** The lines of the records written into cell [b], in the order of the
    [write_record] calls. *)
Fixpoint written (b : nat) (tr : list event) : bytes :=
  match tr with
  | [] => []
  | e :: r =>
      written b r ++ match e with
                     | EvRecord _ b' rec =>
                         if Nat.eqb b' b then line_bytes (record_text rec) else []
                     | _ => []
                     end
  end.

(** The flushed blocks of all cells, in the order of the flushes. *)
Fixpoint chunks (tr : list event) : list bytes :=
  match tr with
  | [] => []
  | e :: r => chunks r ++ match e with EvFlush _ data => [data] | _ => [] end
  end.

(** The compressor fed with the blocks one by one: its final context
    and everything it has produced. *)
Fixpoint compress_all (z : ZSTD_CStream) (l : list bytes) : ZSTD_CStream * bytes :=
  match l with
  | [] => (z, [])
  | d :: r =>
      let '(z1, o1) := ZSTD_compressStream2 z d ZSTD_e_continue in
      let '(z2, o2) := compress_all z1 r in
      (z2, o1 ++ o2)
  end.

(** The compressor in use: none when the extension is built without it
    or no context was created. *)
Definition compressor (s : state) : option ZSTD_CStream :=
  if HAVE_ZSTD then zstd_stream s else None.

(** The payload handed to [fwrite] for the given blocks. *)
Definition payload (z0 : option ZSTD_CStream) (l : list bytes) : bytes :=
  match z0 with
  | Some z => snd (compress_all z l)
  | None => concat l
  end.

Definition stream_after (z0 : option ZSTD_CStream) (l : list bytes)
  : option ZSTD_CStream :=
  match z0 with
  | Some z => Some (fst (compress_all z l))
  | None => None
  end.

(** What a device with [room] bytes keeps of the bytes offered to it. *)
Definition accept (room : option nat) (l : bytes) : bytes :=
  match room with None => l | Some n => take n l end.

Definition room_left (room : option nat) (offered : nat) : option nat :=
  match room with None => None | Some n => Some (n - offered)%nat end.

Lemma fwrite_accept room0 X b f :
  f_data f = accept room0 X -> f_room f = room_left room0 (length X) ->
  f_data (fwrite b f) = accept room0 (X ++ b)
  /\ f_room (fwrite b f) = room_left room0 (length (X ++ b))
  /\ f_open (fwrite b f) = f_open f.
Proof.
  intros Hd Hr. unfold fwrite. rewrite Hr, Hd.
  destruct room0 as [n|]; simpl; [|auto].
  rewrite length_app.
  destruct (Nat.leb_spec (length b) (n - length X)) as [Hle|Hgt]; simpl.
  - split; [|split; [f_equal; lia|reflexivity]].
    destruct (decide (length X <= n)%nat) as [Hx|Hx].
    + rewrite take_ge by lia. rewrite take_ge by (rewrite length_app; lia).
      reflexivity.
    + assert (length b = 0%nat) by lia.
      destruct b; [|discriminate]. by rewrite !app_nil_r.
  - split; [|split; [f_equal; lia|reflexivity]].
    rewrite take_app. reflexivity.
Qed.

Lemma compress_all_snoc z l d :
  compress_all z (l ++ [d])
  = let '(z1, o1) := compress_all z l in
    let '(z2, o2) := ZSTD_compressStream2 z1 d ZSTD_e_continue in
    (z2, o1 ++ o2).
Proof.
  revert z. induction l as [|x l IH]; intros z; simpl.
  - destruct (ZSTD_compressStream2 z d ZSTD_e_continue). by rewrite app_nil_r.
  - destruct (ZSTD_compressStream2 z x ZSTD_e_continue) as [z1 o1].
    rewrite IH. destruct (compress_all z1 l) as [z2 o2].
    destruct (ZSTD_compressStream2 z2 d ZSTD_e_continue) as [z3 o3].
    by rewrite app_assoc.
Qed.

(** The sink holds the bytes [pre] written before the walk (the header)
    followed by the payload of the blocks flushed so far, as far as the
    device had room. *)
Record sink_ok (room0 : option nat) (pre : bytes) (z0 : option ZSTD_CStream)
       (s : state) : Prop := {
  sink_data : f_data (output_file s)
              = accept room0 (pre ++ payload z0 (chunks (trace s)));
  sink_room : f_room (output_file s)
              = room_left room0 (length (pre ++ payload z0 (chunks (trace s))));
  sink_stream : compressor s = stream_after z0 (chunks (trace s))
}.

Lemma flush_buffer_sink_ok room0 pre z0 b s :
  sink_ok room0 pre z0 s -> sink_ok room0 pre z0 (flush_buffer b s).
Proof.
  intros [Hd Hr Hz]. unfold flush_buffer.
  destruct (used (buffer_at s b) =? 0); [by split|].
  set (data := pending (buffer_at s b)) in *.
  unfold compressor in Hz.
  destruct (if HAVE_ZSTD then zstd_stream s else None) as [z|] eqn:Hmode.
  - destruct z0 as [z0|]; [|discriminate]. simpl in Hz. injection Hz as Hz.
    destruct (ZSTD_compressStream2 z data ZSTD_e_continue) as [z' out] eqn:Hc.
    assert (Hsn : compress_all z0 (chunks (trace s) ++ [data])
                  = (z', snd (compress_all z0 (chunks (trace s))) ++ out)).
    { rewrite compress_all_snoc.
      destruct (compress_all z0 (chunks (trace s))) as [z1 o1]. simpl in *.
      subst z1. by rewrite Hc. }
    destruct (fwrite_accept room0 _ out _ Hd Hr) as (Hd' & Hr' & _).
    split; simpl.
    + by rewrite Hsn, Hd', <- app_assoc.
    + by rewrite Hsn, Hr', <- app_assoc.
    + unfold compressor. simpl. rewrite Hsn. simpl.
      destruct HAVE_ZSTD; [reflexivity|discriminate].
  - destruct z0 as [z0|]; [discriminate|]. simpl in *.
    destruct (fwrite_accept room0 _ data _ Hd Hr) as (Hd' & Hr' & _).
    split; simpl.
    + rewrite Hd', concat_app. simpl. by rewrite app_nil_r, <- app_assoc.
    + rewrite Hr', concat_app. simpl. by rewrite app_nil_r, <- app_assoc.
    + unfold compressor. simpl. exact Hmode.
Qed.

Lemma sink_ok_same room0 pre z0 s s' :
  output_file s' = output_file s -> zstd_stream s' = zstd_stream s ->
  chunks (trace s') = chunks (trace s) ->
  sink_ok room0 pre z0 s -> sink_ok room0 pre z0 s'.
Proof.
  intros Ho Hz Hc [Hd Hr Hs]. split; unfold compressor in *; rewrite ?Ho, ?Hz, ?Hc; auto.
Qed.

Lemma make_room_sink_ok room0 pre z0 b len s :
  sink_ok room0 pre z0 s -> sink_ok room0 pre z0 (make_room b len s).
Proof.
  unfold make_room. destruct (_ >=? _); [apply flush_buffer_sink_ok|auto].
Qed.

Lemma write_record_sink_ok room0 pre z0 fid b r s :
  sink_ok room0 pre z0 s -> sink_ok room0 pre z0 (write_record fid b r s).
Proof.
  intros H. unfold write_record.
  eapply sink_ok_same; [| | |apply (make_room_sink_ok _ _ _ b (strlen (record_text r)) s H)];
    simpl; try reflexivity. by rewrite app_nil_r.
Qed.

Lemma step_sink_ok room0 pre z0 t s s' :
  sink_ok room0 pre z0 s -> step t s = Some s' -> sink_ok room0 pre z0 s'.
Proof.
  intros Hs Hstep. unfold step in Hstep.
  destruct (threads s !! t) as [[|fr stk]|] eqn:Hth; try discriminate.
  injection Hstep as <-. unfold step_frame.
  destruct (fr_pc fr) as [|[|d rest]| |] eqn:Hpc.
  - destruct (fr_dir fr); (eapply sink_ok_same; [| | |exact Hs]); simpl;
      try reflexivity; by rewrite app_nil_r.
  - apply write_record_sink_ok.
    eapply sink_ok_same; [| | |exact Hs]; reflexivity.
  - rewrite loop_body_considered.
    destruct (considered (SNAPSHOT s) d) as [f|].
    + destruct (S_ISDIR (st_mode f)).
      * match goal with |- context [fan_out ?a ?b ?c ?d ?e ?f ?g] =>
          destruct (fan_out_buffers a b c d e f g)
            as (_ & Ho & Hz & _ & (ch & pa & sp & Ht)) end.
        eapply sink_ok_same; [exact Ho|exact Hz| |exact Hs].
        rewrite Ht. simpl. by rewrite app_nil_r.
      * apply write_record_sink_ok.
        eapply sink_ok_same; [| | |exact Hs]; reflexivity.
    + eapply sink_ok_same; [| | |exact Hs]; reflexivity.
  - destruct (flag (deref s (cur fr)) =? 0).
    + apply flush_buffer_sink_ok.
      eapply sink_ok_same; [| | |exact Hs]; reflexivity.
    + eapply sink_ok_same; [| | |exact Hs]; reflexivity.
  - eapply sink_ok_same; [| | |exact Hs]; destruct (cur fr); simpl;
      try reflexivity; by rewrite app_nil_r.
Qed.

(** *** One cell: flushed bytes and pending bytes are the lines written *)

Definition stream_eq (s : state) (b : nat) : Prop :=
  flushed b (trace s) ++ pending (buffer_at s b) = written b (trace s).

Lemma length_bytes_of x : length (bytes_of x) = String.length x.
Proof. unfold bytes_of. induction x; simpl; auto. Qed.

Lemma length_str_take n x : String.length (str_take n x) = Nat.min n (String.length x).
Proof.
  revert x. induction n as [|n IH]; intros [|a x]; simpl; auto.
Qed.

Lemma length_line_bytes text :
  length (line_bytes text) = String.length text.
Proof.
  unfold line_bytes, strlen.
  destruct (Z.ltb_spec (Z.of_nat (String.length text)) LINE_SIZE) as [H|H].
  - apply length_bytes_of.
  - rewrite length_app, length_bytes_of, length_str_take, repeat_length.
    assert (0 <= LINE_SIZE - 1) by (unfold LINE_SIZE, MAXPATH; lia). lia.
Qed.

Lemma pending_append cell line len :
  0 <= used cell -> 0 <= len -> length line = Z.to_nat len ->
  pending (buf_append cell line len) = pending cell ++ line.
Proof.
  intros Hu Hl Hlen. unfold pending at 1, buf_append. simpl.
  apply take_ge. rewrite length_app, Hlen.
  assert (length (pending cell) <= Z.to_nat (used cell))%nat
    by (unfold pending; rewrite length_take; lia).
  lia.
Qed.

Lemma flush_buffer_stream b b' s :
  flushed b' (trace (flush_buffer b s)) ++ pending (buffer_at (flush_buffer b s) b')
  = flushed b' (trace s) ++ pending (buffer_at s b')
  /\ written b' (trace (flush_buffer b s)) = written b' (trace s).
Proof.
  rewrite trace_flush. unfold flush_events.
  destruct (Z.eqb_spec (used (buffer_at s b)) 0) as [E|E].
  - by rewrite flush_buffer_unused.
  - destruct (Nat.eqb_spec b b') as [<-|Hne].
    + assert (Hp : pending (buffer_at (flush_buffer b s) b) = []).
      { unfold pending. by rewrite flush_buffer_used. }
      rewrite Hp. simpl. rewrite Nat.eqb_refl. by rewrite !app_nil_r.
    + rewrite flush_buffer_other by auto. simpl.
      rewrite (proj2 (Nat.eqb_neq b b') Hne). by rewrite !app_nil_r.
Qed.

Lemma make_room_stream b b' len s :
  stream_eq s b' -> stream_eq (make_room b len s) b'.
Proof.
  unfold stream_eq, make_room. destruct (_ >=? _); [|auto].
  destruct (flush_buffer_stream b b' s) as [-> ->]. auto.
Qed.

Lemma write_record_stream fid b b' r s :
  0 <= used (buffer_at s b) -> (b < length (buffers s))%nat ->
  stream_eq s b' -> stream_eq (write_record fid b r s) b'.
Proof.
  intros Hu Hb Hs. set (len := strlen (record_text r)).
  pose proof (make_room_stream b b' len s Hs) as Hm.
  unfold stream_eq in *. rewrite trace_write. simpl.
  fold len. rewrite <- make_room_trace.
  destruct (Nat.eqb_spec b b') as [<-|Hne].
  - unfold buffer_at at 1. rewrite write_record_buffers.
    rewrite list_lookup_insert_eq by (by rewrite make_room_length). simpl.
    rewrite pending_append.
    + fold len. by rewrite app_nil_r, app_assoc, Hm.
    + by apply make_room_used_nonneg.
    + unfold strlen. lia.
    + rewrite length_line_bytes. unfold strlen. lia.
  - rewrite write_record_other by auto.
    rewrite <- (make_room_other b b' len s) by auto.
    by rewrite !app_nil_r.
Qed.

Definition stream_ok (s : state) : Prop := forall b, stream_eq s b.

Lemma stream_eq_same s s' b :
  buffers s' = buffers s ->
  flushed b (trace s') = flushed b (trace s) ->
  written b (trace s') = written b (trace s) ->
  stream_eq s b -> stream_eq s' b.
Proof.
  unfold stream_eq, buffer_at. by intros -> -> ->.
Qed.

Lemma flush_buffer_stream_eq b b' s :
  stream_eq s b' -> stream_eq (flush_buffer b s) b'.
Proof.
  unfold stream_eq. destruct (flush_buffer_stream b b' s) as [-> ->]. auto.
Qed.

Lemma step_stream_ok t s s' :
  pool_ok s -> bufs_ok s -> stream_ok s -> step t s = Some s' -> stream_ok s'.
Proof.
  intros Hp Hb Hs Hstep b'. unfold step in Hstep.
  destruct (threads s !! t) as [[|fr stk]|] eqn:Hth; try discriminate.
  injection Hstep as <-.
  destruct (pool_threads s Hp _ _ Hth) as [?|(i & Hi & Hst)]; [discriminate|].
  destruct (stack_ok_deref s i fr stk Hi Hst) as (Hbuf & _).
  assert (Hrange : (buf (deref s (cur fr)) < length (buffers s))%nat).
  { rewrite Hbuf, (pool_buffers s Hp). apply Hi. }
  pose proof (bufs_nonneg s Hb (buf (deref s (cur fr)))) as Hnn.
  specialize (Hs b').
  unfold step_frame.
  destruct (fr_pc fr) as [|[|d rest]| |] eqn:Hpc.
  - destruct (fr_dir fr); (eapply stream_eq_same; [| | |exact Hs]); simpl;
      try reflexivity; by rewrite app_nil_r.
  - apply write_record_stream; auto.
  - rewrite loop_body_considered.
    destruct (considered (SNAPSHOT s) d) as [f|]; [|exact Hs].
    destruct (S_ISDIR (st_mode f)).
    + match goal with |- context [fan_out ?a ?b ?c ?d ?e ?f ?g] =>
        destruct (fan_out_buffers a b c d e f g)
          as (Hbf & _ & _ & _ & (ch & pa & sp & Ht)) end.
      eapply stream_eq_same; [exact Hbf| | |exact Hs]; rewrite Ht; simpl;
        by rewrite app_nil_r.
    + apply write_record_stream; auto.
  - destruct (flag (deref s (cur fr)) =? 0); [|exact Hs].
    by apply flush_buffer_stream_eq.
  - eapply stream_eq_same; [| | |exact Hs]; destruct (cur fr); simpl;
      try reflexivity; by rewrite app_nil_r.
Qed.

(** ** The size of a tree of answers *)

(** The number of answers below an entry, a measure for inductions on
    the tree. *)
Fixpoint cost (d : dirent) : nat :=
  let 'Dirent _ _ s := d in
  S (match s with
     | None => 3
     | Some l => 4 + list_sum (map cost l)
     end).

Definition cost_dir (o : option (list dirent)) : nat :=
  match o with
  | None => 3
  | Some l => 4 + list_sum (map cost l)
  end.

Lemma cost_unfold d : cost d = S (cost_dir (sub d)).
Proof. by destruct d as [n l [es|]]. Qed.

(** All invocations have returned. *)
Definition quiescent (s : state) : Prop := frames s = [].

Lemma run_app sched1 sched2 s : run (sched1 ++ sched2) s = run sched2 (run sched1 s).
Proof. unfold run. apply fold_left_app. Qed.

(** Once all invocations have returned nothing moves any more. *)
Lemma quiescent_run s : quiescent s -> forall sched, run sched s = s.
Proof.
  intros Hq sched. induction sched as [|t sched IH]; [reflexivity|].
  simpl. unfold sched_step, step.
  destruct (threads s !! t) as [[|fr stk]|] eqn:Hth; try exact IH.
  exfalso. assert (Hfr : fr ∈ frames s).
  { apply elem_of_frames. exists t, (fr :: stk). split; [exact Hth|].
    by apply elem_of_cons; left. }
  unfold quiescent in Hq. rewrite Hq in Hfr. by apply elem_of_nil in Hfr.
Qed.

(** ** Where the path of a record comes from *)

(** [p] was composed from a directory that was opened and a name read
    from it. *)
Definition from_listing (tr : list event) (p : string) : Prop :=
  exists fidp dirp es d,
    In (EvOpendir fidp dirp (Some es)) tr /\ In d es
    /\ p = fullpath_of dirp (d_name d).

(** The path of invocation [fid], or of a record it writes: the root
    path for the first invocation, a composed path otherwise. *)
Definition origin (a : args) (tr : list event) (fid : nat) (p : string) : Prop :=
  (fid = 0%nat /\ p = top a) \/ from_listing tr p.

Record paths_ok (a : args) (s : state) : Prop := {
  paths_frames : forall g, g ∈ frames s ->
      origin a (trace s) (fr_id g) (dname (deref s (cur g)));
  paths_records : forall fid b r, In (EvRecord fid b r) (trace s) ->
      origin a (trace s) fid (r_path r)
}.

Lemma history_intro fid e tr :
  about fid e = true -> In e tr -> In e (history fid tr).
Proof. intros H1 H2. apply history_In. auto. Qed.

Lemma history_elim fid e tr : In e (history fid tr) -> In e tr.
Proof. intros H. by apply history_In in H as [H _]. Qed.

Lemma In_own fid fid' e evs : In e (own fid fid' evs) -> fid = fid' /\ In e evs.
Proof.
  unfold own. destruct (Nat.eqb_spec fid fid'); [auto|intros []].
Qed.

Lemma step_paths_ok a t s s' :
  pool_ok s -> events_ok s -> paths_ok a s -> step t s = Some s' -> paths_ok a s'.
Proof.
  intros Hp He [Hpf Hpr] Hstep. unfold step in Hstep.
  destruct (threads s !! t) as [[|fr stk]|] eqn:Hth; try discriminate.
  injection Hstep as <-.
  destruct (step_transition t s fr stk Hp Hth)
    as (news & evs & Htr & Hperm & Hsnap & Hhist & Hder & Hderfr).
  set (s' := step_frame t fr stk s) in *.
  assert (Hfrin : fr ∈ frames s).
  { unfold frames. rewrite (frames_split _ _ _ Hth). by apply elem_of_cons; left. }
  destruct (ev_frames s He fr Hfrin) as [Hinv _].
  assert (Hmono : forall fid p es, In (EvOpendir fid p (Some es)) (trace s) ->
                                   In (EvOpendir fid p (Some es)) (trace s')).
  { intros fid p es H.
    apply (history_elim fid). rewrite Hhist. apply in_or_app. left.
    apply history_intro; [simpl; apply Nat.eqb_refl|exact H]. }
  assert (Horig : forall fid p, origin a (trace s) fid p -> origin a (trace s') fid p).
  { intros fid p [H|(fp & dp & es & d & H1 & H2 & H3)]; [by left|right].
    exists fp, dp, es, d. auto. }
  assert (Hentry : forall d rest, fr_pc fr = AtLoop (d :: rest) ->
            from_listing (trace s')
              (fullpath_of (dname (deref s (cur fr))) (d_name d))).
  { intros d rest Hpc. unfold frame_inv in Hinv. rewrite Hpc in Hinv.
    destruct Hinv as (done & es & Hdir & Hes & Hh & _).
    exists (fr_id fr), (dname (deref s (cur fr))), es, d.
    split; [|split; [|reflexivity]].
    - apply Hmono. apply (history_elim (fr_id fr)).
      rewrite Hh. by left.
    - rewrite Hes. apply in_or_app. right. by left. }
  split.
  - intros g Hg. rewrite Hperm in Hg. apply elem_of_app in Hg as [Hg|Hg].
    + assert (Hne : news <> []) by (intros ->; by apply elem_of_nil in Hg).
      specialize (Hderfr Hne).
      pose proof (Horig _ _ (Hpf fr Hfrin)) as Hfr.
      destruct Htr; repeat (apply elem_of_cons in Hg as [->|Hg]);
        try (by apply elem_of_nil in Hg); simpl; rewrite ?Hderfr; auto.
      right. match goal with H : dname _ = _ |- _ => rewrite H end.
      by eapply Hentry.
    + rewrite (Hder g Hg). apply Horig, Hpf.
      unfold frames. rewrite (frames_split _ _ _ Hth). by apply elem_of_cons; right.
  - intros fid b r Hin.
    apply (history_intro fid) in Hin; [|simpl; apply Nat.eqb_refl].
    rewrite Hhist in Hin. apply in_app_or in Hin as [Hin|Hin].
    + apply Horig, (Hpr fid b r). by apply (history_elim fid).
    + apply In_own in Hin as [<- Hin].
      pose proof (Horig _ _ (Hpf fr Hfrin)) as Hfr.
      destruct Htr; simpl in Hin; try prop_solve;
        destruct Hin as [Hin|[]]; try discriminate; injection Hin as <- <-; simpl; auto.
      right. by eapply Hentry.
Qed.

(** ** The length of a line *)

Lemma nb_digits_double d :
  (Decimal.nb_digits (Decimal.Little.double d) <= S (Decimal.nb_digits d))%nat
  /\ (Decimal.nb_digits (Decimal.Little.succ_double d) <= S (Decimal.nb_digits d))%nat.
Proof.
  induction d as [|d [IH1 IH2]|d [IH1 IH2]|d [IH1 IH2]|d [IH1 IH2]|d [IH1 IH2]
                 |d [IH1 IH2]|d [IH1 IH2]|d [IH1 IH2]|d [IH1 IH2]|d [IH1 IH2]];
    simpl; lia.
Qed.

Lemma nb_digits_pos p :
  (Decimal.nb_digits (Pos.to_little_uint p) <= Pos.to_nat (Pos.size p))%nat.
Proof.
  induction p as [p IH|p IH|]; simpl.
  - pose proof (proj2 (nb_digits_double (Pos.to_little_uint p))). lia.
  - pose proof (proj1 (nb_digits_double (Pos.to_little_uint p))). lia.
  - lia.
Qed.

Lemma length_string_of_uint d :
  String.length (NilEmpty.string_of_uint d) = Decimal.nb_digits d.
Proof. induction d; simpl; auto. Qed.

Lemma pos_size_log2 p : Z.pos (Pos.size p) = Z.log2 (Z.pos p) + 1.
Proof. destruct p; simpl; lia. Qed.

Lemma pos_size_bound p : Z.pos p < 2 ^ 64 -> (Pos.to_nat (Pos.size p) <= 64)%nat.
Proof.
  intros H.
  assert (Z.log2 (Z.pos p) < 64) by (apply Z.log2_lt_pow2; lia).
  pose proof (pos_size_log2 p). lia.
Qed.

Lemma length_pos_to_uint p :
  Z.pos p < 2 ^ 64 ->
  (String.length (NilZero.string_of_uint (Pos.to_uint p)) <= 64)%nat.
Proof.
  intros H. unfold NilZero.string_of_uint.
  assert (Hn : (Decimal.nb_digits (Pos.to_uint p) <= 64)%nat).
  { unfold Pos.to_uint. rewrite DecimalFacts.nb_digits_rev.
    pose proof (nb_digits_pos p). pose proof (pos_size_bound p H). lia. }
  destruct (Pos.to_uint p) eqn:E; simpl in *; try lia;
    rewrite length_string_of_uint; lia.
Qed.

(** A value of a 64-bit type prints in at most 65 characters. *)
Lemma length_fmt_dec z :
  - 2 ^ 64 < z < 2 ^ 64 -> (String.length (fmt_dec z) <= 65)%nat.
Proof.
  intros H. unfold fmt_dec, NilZero.string_of_int.
  destruct z as [|p|p]; simpl.
  - lia.
  - pose proof (length_pos_to_uint p). lia.
  - pose proof (length_pos_to_uint p). lia.
Qed.

Lemma length_fmt_oct_aux fuel : forall z acc,
  (String.length (fmt_oct_aux fuel z acc) <= fuel + String.length acc)%nat.
Proof.
  induction fuel as [|k IH]; intros z acc; simpl; [lia|].
  destruct (z / 8 =? 0); simpl; [lia|].
  specialize (IH (z / 8) (String (octal_digit (z mod 8)) acc)). simpl in IH. lia.
Qed.

Lemma length_fmt_oct z : (String.length (fmt_oct z) <= 22)%nat.
Proof.
  pose proof (length_fmt_oct_aux 22 z EmptyString) as H.
  change (String.length EmptyString) with 0%nat in H.
  unfold fmt_oct. lia.
Qed.

Lemma length_csv_escape x :
  (String.length (csv_escape x) <= 2 * String.length x)%nat.
Proof.
  induction x as [|c x IH]; simpl; [lia|].
  destruct (Ascii.eqb c dquote); simpl; lia.
Qed.

Lemma length_str_plus x : forall n,
  (String.length (str_plus x n) <= String.length x)%nat.
Proof.
  induction x as [|c x IH]; intros [|n]; simpl; auto.
Qed.

Lemma length_filename_of path :
  (String.length (filename_of path) <= String.length path)%nat.
Proof.
  unfold filename_of. destruct (strrchr path slash); [apply length_str_plus|lia].
Qed.

Lemma length_ext_of x : (String.length (ext_of x) <= String.length x)%nat.
Proof.
  unfold ext_of. destruct (strrchr x dot) as [[|i]|]; simpl; try lia.
  apply length_str_plus.
Qed.

Lemma length_append x y :
  String.length (String.append x y) = (String.length x + String.length y)%nat.
Proof. induction x; simpl; auto. Qed.

Lemma length_quoted x : String.length (quoted x) = S (S (String.length x)).
Proof. unfold quoted. simpl. rewrite length_append. simpl. lia. Qed.

Lemma wrap_ranges z :
  (- 2 ^ 64 < wrap_ulong z < 2 ^ 64) /\ (- 2 ^ 64 < wrap_uint z < 2 ^ 64)
  /\ (- 2 ^ 64 < wrap_int z < 2 ^ 64) /\ (- 2 ^ 64 < wrap_long z < 2 ^ 64).
Proof.
  unfold wrap_ulong, wrap_uint, wrap_int, wrap_long.
  pose proof (Z.mod_pos_bound z (2 ^ 64)).
  pose proof (Z.mod_pos_bound z (2 ^ 32)).
  pose proof (Z.mod_pos_bound (z + 2 ^ 31) (2 ^ 32)).
  pose proof (Z.mod_pos_bound (z + 2 ^ 63) (2 ^ 64)).
  lia.
Qed.

(** The line of a record is at most four times its path plus the
    numeric fields, quotes, commas and the newline. *)
Lemma length_record_text r :
  (String.length (record_text r) <= 4 * String.length (r_path r) + 1000)%nat.
Proof.
  unfold record_text, record_fields, join_comma.
  rewrite !length_append, !length_quoted. simpl String.length.
  pose proof (length_csv_escape (filename_of (r_path r))).
  pose proof (length_csv_escape (ext_of (filename_of (r_path r)))).
  pose proof (length_filename_of (r_path r)).
  pose proof (length_ext_of (filename_of (r_path r))).
  pose proof (length_fmt_oct (wrap_uint (st_mode (r_st r)))).
  pose proof (length_fmt_dec _ (proj1 (wrap_ranges (st_ino (r_st r))))).
  pose proof (length_fmt_dec _ (proj1 (wrap_ranges (r_parent_inode r)))).
  pose proof (length_fmt_dec _ (proj1 (proj2 (proj2 (wrap_ranges (r_depth r)))))).
  pose proof (length_fmt_dec _ (proj1 (proj2 (wrap_ranges (st_uid (r_st r)))))).
  pose proof (length_fmt_dec _ (proj1 (proj2 (wrap_ranges (st_gid (r_st r)))))).
  pose proof (length_fmt_dec _ (proj2 (proj2 (proj2 (wrap_ranges (st_size (r_st r))))))).
  pose proof (length_fmt_dec _ (proj1 (wrap_ranges (st_dev (r_st r))))).
  pose proof (length_fmt_dec _ (proj2 (proj2 (proj2 (wrap_ranges (st_blocks (r_st r))))))).
  pose proof (length_fmt_dec _ (proj1 (wrap_ranges (st_nlink (r_st r))))).
  pose proof (length_fmt_dec _ (proj2 (proj2 (proj2 (wrap_ranges (st_atime (r_st r))))))).
  pose proof (length_fmt_dec _ (proj2 (proj2 (proj2 (wrap_ranges (st_mtime (r_st r))))))).
  pose proof (length_fmt_dec _ (proj2 (proj2 (proj2 (wrap_ranges (st_ctime (r_st r))))))).
  pose proof (length_fmt_dec _ (proj2 (proj2 (proj2 (wrap_ranges (r_fcount r)))))).
  pose proof (length_fmt_dec _ (proj2 (proj2 (proj2 (wrap_ranges (r_dirsum r)))))).
  lia.
Qed.

Lemma record_text_fits r :
  strlen (r_path r) < MAXPATH -> strlen (record_text r) < BUFFER_SIZE.
Proof.
  intros H. pose proof (length_record_text r).
  unfold strlen, MAXPATH, BUFFER_SIZE in *. lia.
Qed.

Lemma fullpath_of_fits dir name : strlen (fullpath_of dir name) < MAXPATH.
Proof.
  unfold fullpath_of, strlen. rewrite length_str_take.
  assert (0 < MAXPATH) by (unfold MAXPATH; lia). lia.
Qed.

(** *** No cell ever overflows *)

Definition cells_ok (s : state) : Prop :=
  forall b, used (buffer_at s b) < BUFFER_SIZE.

Lemma write_record_cells fid b r s :
  (b < length (buffers s))%nat -> 0 <= used (buffer_at s b) ->
  strlen (record_text r) < BUFFER_SIZE ->
  cells_ok s -> cells_ok (write_record fid b r s).
Proof.
  intros Hb Hu Hl Hc b'. destruct (decide (b = b')) as [<-|Hne].
  - rewrite write_record_used by exact Hb.
    assert (0 <= strlen (record_text r)) by (unfold strlen; lia).
    pose proof (make_room_bound b (strlen (record_text r)) s Hu). lia.
  - rewrite write_record_other by auto. apply Hc.
Qed.

Lemma flush_buffer_cells b s : cells_ok s -> cells_ok (flush_buffer b s).
Proof.
  intros Hc b'. destruct (decide (b = b')) as [<-|Hne].
  - rewrite flush_buffer_used. unfold BUFFER_SIZE. lia.
  - rewrite flush_buffer_other by auto. apply Hc.
Qed.

Lemma origin_fits a tr fid p :
  strlen (top a) < MAXPATH -> origin a tr fid p -> strlen p < MAXPATH.
Proof.
  intros Ht [[_ ->]|(fp & dp & es & d & _ & _ & ->)]; [exact Ht|].
  apply fullpath_of_fits.
Qed.

Lemma step_cells_ok a t s s' :
  pool_ok s -> bufs_ok s -> paths_ok a s -> strlen (top a) < MAXPATH ->
  cells_ok s -> step t s = Some s' -> cells_ok s'.
Proof.
  intros Hp Hb Hpa Htop Hc Hstep. unfold step in Hstep.
  destruct (threads s !! t) as [[|fr stk]|] eqn:Hth; try discriminate.
  injection Hstep as <-.
  destruct (pool_threads s Hp _ _ Hth) as [?|(i & Hi & Hst)]; [discriminate|].
  destruct (stack_ok_deref s i fr stk Hi Hst) as (Hbuf & _).
  assert (Hrange : (buf (deref s (cur fr)) < length (buffers s))%nat).
  { rewrite Hbuf, (pool_buffers s Hp). apply Hi. }
  pose proof (bufs_nonneg s Hb (buf (deref s (cur fr)))) as Hnn.
  assert (Hfr : fr ∈ frames s).
  { unfold frames. rewrite (frames_split _ _ _ Hth). by apply elem_of_cons; left. }
  pose proof (origin_fits _ _ _ _ Htop (paths_frames a s Hpa fr Hfr)) as Hdn.
  unfold step_frame.
  destruct (fr_pc fr) as [|[|d rest]| |] eqn:Hpc.
  - destruct (fr_dir fr); exact Hc.
  - apply write_record_cells; auto. by apply record_text_fits.
  - rewrite loop_body_considered.
    destruct (considered (SNAPSHOT s) d) as [f|]; [|exact Hc].
    destruct (S_ISDIR (st_mode f)).
    + match goal with |- context [fan_out ?a ?b ?c ?d ?e ?f ?g] =>
        destruct (fan_out_buffers a b c d e f g) as (Hbf & _) end.
      intros b'. unfold buffer_at. rewrite Hbf. apply Hc.
    + apply write_record_cells; auto.
      apply record_text_fits. apply fullpath_of_fits.
  - destruct (flag (deref s (cur fr)) =? 0); [|exact Hc].
    by apply flush_buffer_cells.
  - intros b'. destruct (cur fr); apply Hc.
Qed.

(** ** The counter of active workers *)

Definition live (stk : list frame) : bool :=
  match stk with [] => false | _ :: _ => true end.

(** Number of threads that have not ended. *)
Definition live_count (l : list (list frame)) : nat :=
  length (List.filter live l).

(** [ThreadCNT] counts the running workers. *)
Definition count_ok (s : state) : Prop :=
  ThreadCNT s = Z.of_nat (live_count (threads s)).

Lemma live_count_app l1 l2 : live_count (l1 ++ l2) = (live_count l1 + live_count l2)%nat.
Proof. unfold live_count. by rewrite List.filter_app, length_app. Qed.

Lemma live_count_insert (l : list (list frame)) t old new :
  l !! t = Some old ->
  (live_count (<[t := new]> l) + (if live old then 1 else 0)
   = live_count l + (if live new then 1 else 0))%nat.
Proof.
  intros H.
  assert (Hlt : (t < length l)%nat) by (eapply lookup_lt_Some; eauto).
  rewrite insert_take_drop by exact Hlt.
  rewrite <- (take_drop_middle l t old H) at 3.
  rewrite !live_count_app.
  change (new :: drop (S t) l) with ([new] ++ drop (S t) l).
  change (old :: drop (S t) l) with ([old] ++ drop (S t) l).
  rewrite !live_count_app. unfold live_count at 2 5. simpl.
  destruct (live old), (live new); simpl; lia.
Qed.

Lemma live_count_zero (l : list (list frame)) : live_count l = 0%nat -> concat l = [].
Proof.
  induction l as [|x l IH]; [reflexivity|].
  unfold live_count in *. simpl. destruct x; simpl; [exact IH|discriminate].
Qed.

Lemma quiescent_live_count (l : list (list frame)) :
  concat l = [] -> live_count l = 0%nat.
Proof.
  induction l as [|x l IH]; [reflexivity|]. simpl. intros H.
  apply app_eq_nil in H as [-> H]. unfold live_count in *. simpl. auto.
Qed.

Lemma step_count_ok t s s' :
  pool_ok s -> count_ok s -> step t s = Some s' -> count_ok s'.
Proof.
  intros Hp Hc Hstep. unfold step in Hstep.
  destruct (threads s !! t) as [[|fr stk]|] eqn:Hth; try discriminate.
  injection Hstep as <-.
  destruct (pool_threads s Hp _ _ Hth) as [?|(i & Hi & Hst)]; [discriminate|].
  destruct (stack_ok_deref s i fr stk Hi Hst) as (_ & _ & _ & _ & Hnz).
  unfold count_ok in *.
  assert (Hsame : forall x r, live_count (<[t := x :: r]> (threads s))
                              = live_count (threads s)).
  { intros x r. pose proof (live_count_insert _ t _ (x :: r) Hth). simpl in *. lia. }
  unfold step_frame.
  destruct (fr_pc fr) as [|[|d rest]| |] eqn:Hpc.
  - destruct (fr_dir fr); simpl; by rewrite Hsame.
  - walker_simpl. by rewrite Hsame.
  - rewrite loop_body_considered.
    destruct (considered (SNAPSHOT s) d) as [f|]; [|simpl; by rewrite Hsame].
    destruct (S_ISDIR (st_mode f)); [|walker_simpl; by rewrite Hsame].
    match goal with |- context [fan_out t ?fr' stk d f ?fp s] =>
      destruct (fan_out_cases t fr fr' stk d f fp s Hp Hth eq_refl)
        as [(j & _ & _ & _ & ->)| ->] end.
    + unfold spawned. simpl. rewrite live_count_app, Hsame, Hc.
      change (live_count [[new_frame (next_fid s) (SlotPtr j) (sub d)]]) with 1%nat. lia.
    + unfold inlined. simpl. by rewrite Hsame.
  - destruct (Z.eqb_spec (flag (deref s (cur fr))) 0) as [E|E].
    + walker_simpl. by rewrite Hsame.
    + simpl. pose proof (Hnz E) as Hs.
      destruct stk as [|x r]; [inversion Hs|]. by rewrite Hsame.
  - assert (Hcnt : ThreadCNT (log (EvRelease (cur fr))
               (set_stack t [] (release_ptr (cur fr)
                  (set_counts (ThreadCNT s - 1) (totalTHRDS s) s)))) = ThreadCNT s - 1)
      by (by destruct (cur fr)).
    assert (Hthr : threads (log (EvRelease (cur fr))
               (set_stack t [] (release_ptr (cur fr)
                  (set_counts (ThreadCNT s - 1) (totalTHRDS s) s))))
                   = <[t := []]> (threads s))
      by (by destruct (cur fr)).
    rewrite Hcnt, Hthr, Hc.
    pose proof (live_count_insert _ t _ [] Hth). simpl in *. lia.
Qed.

(** ** The walk as a whole *)

(** The arrays have their declared size. *)
Definition globals_ok (g : state) : Prop :=
  length (tdslot g) = Z.to_nat MAXTHRDS /\ length (buffers g) = Z.to_nat MAXTHRDS.

(** The state in which the first worker is created. *)
Definition walk_start (a : args) (room : option nat) (root : stat)
           (dir : option (list dirent)) (g : state) : state :=
  csv_write_start a root dir (csv_write_open a room g).

Record inv (a : args) (room0 : option nat) (pre : bytes)
       (z0 : option ZSTD_CStream) (s : state) : Prop := {
  inv_pool : pool_ok s;
  inv_events : events_ok s;
  inv_paths : paths_ok a s;
  inv_bufs : bufs_ok s;
  inv_stream : stream_ok s;
  inv_sink : sink_ok room0 pre z0 s;
  inv_snap : SNAPSHOT s = ignore_snaps a;
  inv_cells : strlen (top a) < MAXPATH -> cells_ok s;
  inv_count : count_ok s
}.

Lemma step_inv a room0 pre z0 t s s' :
  inv a room0 pre z0 s -> step t s = Some s' -> inv a room0 pre z0 s'.
Proof.
  intros [Hp He Hpa Hb Hs Hk Hn Hce Hco] Hstep. split.
  - by eapply step_pool_ok.
  - by eapply step_events_ok.
  - by eapply step_paths_ok.
  - by eapply step_bufs_ok.
  - by eapply step_stream_ok.
  - by eapply step_sink_ok.
  - rewrite <- Hn. unfold step in Hstep.
    destruct (threads s !! t) as [[|fr stk]|] eqn:Hth; try discriminate.
    injection Hstep as <-.
    by destruct (step_transition t s fr stk Hp Hth) as (? & ? & _ & _ & Hsn & _).
  - intros Htop. eapply step_cells_ok; eauto.
  - by eapply step_count_ok.
Qed.

Lemma sched_step_inv a room0 pre z0 t s :
  inv a room0 pre z0 s -> inv a room0 pre z0 (sched_step s t).
Proof.
  intros H. unfold sched_step. destruct (step t s) as [s'|] eqn:E; simpl; auto.
  by eapply step_inv.
Qed.

Lemma run_inv a room0 pre z0 sched : forall s,
  inv a room0 pre z0 s -> inv a room0 pre z0 (run sched s).
Proof.
  induction sched as [|t sched IH]; intros s H; simpl; auto.
  apply IH. by apply sched_step_inv.
Qed.

Lemma buffer_at_start a room root dir g b :
  used (buffer_at (walk_start a room root dir g) b) = 0.
Proof.
  unfold buffer_at, walk_start, csv_write_start, csv_write_open. simpl.
  rewrite list_lookup_fmap. by destruct (buffers g !! b).
Qed.

Lemma walk_start_inv a room root dir g :
  globals_ok g ->
  inv a room (bytes_of header) (compressor (walk_start a room root dir g))
      (walk_start a room root dir g).
Proof.
  intros [Hs Hb].
  assert (Hlen : (0 < length (reset_slot <$> tdslot g))%nat).
  { rewrite length_fmap, Hs. unfold MAXTHRDS. simpl. lia. }
  assert (Hslot0 : slot_at (walk_start a room root dir g) 0
                   = mkTD (top a) 0 (-1) 0 0 root 0).
  { unfold slot_at, walk_start, csv_write_start, csv_write_open. simpl.
    by rewrite list_lookup_insert_eq. }
  split.
  - split.
    + unfold walk_start, csv_write_start, csv_write_open. simpl.
      by rewrite length_insert, length_fmap.
    + unfold walk_start, csv_write_start, csv_write_open. simpl.
      by rewrite length_fmap.
    + intros [|t] stk Ht; simpl in Ht; [|by rewrite lookup_nil in Ht].
      injection Ht as <-. right. exists 0%nat. split.
      * unfold slot_ok. rewrite Hslot0. simpl. repeat split; auto; try lia.
        unfold MAXTHRDS. simpl. lia.
      * by apply stack_bottom.
    + intros [|t1] [|t2] stk1 stk2 i Hne H1 H2; simpl in *; try congruence;
        rewrite ?lookup_nil in *; discriminate.
  - split.
    + intros g0 Hg. unfold frames in Hg. simpl in Hg.
      apply list_elem_of_singleton in Hg as ->. split; [|simpl; lia].
      unfold frame_inv. simpl. auto.
    + unfold frames. simpl. apply NoDup_singleton.
    + intros fid Hlt Hnot. exfalso. apply Hnot. unfold frames. simpl in *.
      apply list_elem_of_singleton. lia.
    + intros fid _. reflexivity.
  - split.
    + intros g0 Hg. unfold frames in Hg. simpl in Hg.
      apply list_elem_of_singleton in Hg as ->. left.
      split; [reflexivity|].
      change (dname (slot_at (walk_start a room root dir g) 0) = top a).
      by rewrite Hslot0.
    + intros fid b r [].
  - split.
    + intros b. rewrite buffer_at_start. lia.
    + intros g0 Hg Hpc. unfold frames in Hg. simpl in Hg.
      apply list_elem_of_singleton in Hg as ->. discriminate.
  - intros b. unfold stream_eq, pending. rewrite buffer_at_start. reflexivity.
  - unfold walk_start, csv_write_start, csv_write_open.
    generalize (bytes_of header). intros hdr.
    destruct (fwrite_accept room [] hdr (mkFILE true [] room false))
      as (Hd & Hr & _).
    { simpl. destruct room; simpl; [by rewrite take_nil|reflexivity]. }
    { simpl. destruct room; simpl; [f_equal; lia|reflexivity]. }
    simpl in Hd, Hr.
    split; simpl.
    + rewrite Hd. f_equal. destruct (compressor _); simpl; by rewrite app_nil_r.
    + rewrite Hr. f_equal. destruct (compressor _); simpl; by rewrite app_nil_r.
    + by destruct (compressor _).
  - reflexivity.
  - intros _ b. rewrite buffer_at_start. unfold BUFFER_SIZE. lia.
  - reflexivity.
Qed.

(** The states the workers can reach from the start of a walk. *)
Definition reachable (s0 s : state) : Prop := exists sched, s = run sched s0.

Lemma reachable_inv a room root dir g s :
  globals_ok g -> reachable (walk_start a room root dir g) s ->
  inv a room (bytes_of header) (compressor (walk_start a room root dir g)) s.
Proof.
  intros Hg [sched ->]. apply run_inv. by apply walk_start_inv.
Qed.

(** The records written so far, oldest first. *)
Fixpoint records (tr : list event) : list record :=
  match tr with
  | [] => []
  | e :: r => records r ++ match e with EvRecord _ _ rec => [rec] | _ => [] end
  end.

(** ** Slots, cells and the counter *)

(** How a step changes the pool: it rewrites the stack of its thread,
    or it also claims a free slot and starts a thread on it, or it ends
    its thread and frees the slot. *)
Inductive pool_change (t : nat) (fr : frame) (stk : list frame) (s s' : state) : Prop :=
| pc_local stk' :
    threads s' = <[t := stk']> (threads s) ++ [] -> stk' <> [] ->
    bottom_slot stk' = bottom_slot (fr :: stk) ->
    tdslot s' = tdslot s -> ThreadCNT s' = ThreadCNT s ->
    totalTHRDS s' = totalTHRDS s ->
    pool_change t fr stk s s'
| pc_spawn stk' child j td :
    threads s' = <[t := stk']> (threads s) ++ [[child]] -> stk' <> [] ->
    bottom_slot stk' = bottom_slot (fr :: stk) ->
    cur child = SlotPtr j -> (j < Z.to_nat MAXTHRDS)%nat ->
    THRDid (slot_at s j) = -1 ->
    tdslot s' = <[j := td]> (tdslot s) -> THRDid td = totalTHRDS s ->
    ThreadCNT s < MAXTHRDS -> ThreadCNT s' = ThreadCNT s + 1 ->
    totalTHRDS s' = totalTHRDS s + 1 -> buffers s' = buffers s ->
    pool_change t fr stk s s'
| pc_exit i td :
    fr_pc fr = AtRelease -> stk = [] -> cur fr = SlotPtr i ->
    threads s' = <[t := []]> (threads s) ++ [] ->
    tdslot s' = <[i := td]> (tdslot s) -> THRDid td = -1 ->
    ThreadCNT s' = ThreadCNT s - 1 -> totalTHRDS s' = totalTHRDS s ->
    buffers s' = buffers s ->
    pool_change t fr stk s s'.

Lemma bottom_slot_top fr fr' stk :
  cur fr' = cur fr -> bottom_slot (fr' :: stk) = bottom_slot (fr :: stk).
Proof. intros H. destruct stk; simpl; [by rewrite H|reflexivity]. Qed.

Lemma step_pool_change t s fr stk :
  pool_ok s -> threads s !! t = Some (fr :: stk) ->
  pool_change t fr stk s (step_frame t fr stk s).
Proof.
  intros Hp Hth.
  destruct (pool_threads s Hp _ _ Hth) as [?|(i & Hi & Hst)]; [discriminate|].
  destruct (stack_ok_deref s i fr stk Hi Hst) as (_ & _ & _ & _ & Hnz).
  unfold step_frame.
  destruct (fr_pc fr) as [|[|d rest]| |] eqn:Hpc.
  - destruct (fr_dir fr); eapply pc_local; simpl; rewrite ?app_nil_r;
      try reflexivity; try discriminate; by apply bottom_slot_top.
  - eapply pc_local; walker_simpl; rewrite ?app_nil_r;
      try reflexivity; try discriminate; by apply bottom_slot_top.
  - rewrite loop_body_considered.
    destruct (considered (SNAPSHOT s) d) as [f|].
    2:{ eapply pc_local; simpl; rewrite ?app_nil_r;
          try reflexivity; try discriminate; by apply bottom_slot_top. }
    destruct (S_ISDIR (st_mode f)).
    + match goal with |- context [fan_out t ?fr' stk d f ?fp s] =>
        destruct (fan_out_cases t fr fr' stk d f fp s Hp Hth eq_refl)
          as [(j & Hj & Hfree & Hcnt & ->)| ->] end.
      * eapply pc_spawn with (j := j); unfold spawned; simpl;
          try reflexivity; try discriminate; auto; try (by apply bottom_slot_top).
      * eapply pc_local; unfold inlined; simpl; rewrite ?app_nil_r;
          try reflexivity; try discriminate; try (by apply bottom_slot_top).
    + eapply pc_local; walker_simpl; rewrite ?app_nil_r;
        try reflexivity; try discriminate; by apply bottom_slot_top.
  - destruct (Z.eqb_spec (flag (deref s (cur fr))) 0) as [E|E].
    + eapply pc_local; walker_simpl; rewrite ?app_nil_r;
        try reflexivity; try discriminate; by apply bottom_slot_top.
    + pose proof (Hnz E) as Hs.
      eapply pc_local; simpl; rewrite ?app_nil_r; try reflexivity.
      * intros ->. inversion Hs.
      * destruct stk; [inversion Hs|reflexivity].
  - destruct (stack_ok_release _ _ _ _ Hst Hpc) as [-> Hcur].
    rewrite Hcur. eapply pc_exit with (i := i); simpl; rewrite ?app_nil_r;
      try reflexivity; auto.
Qed.

(** Slot [i] is the slot of a running worker. *)
Definition owned (s : state) (i : nat) : Prop :=
  exists t stk, threads s !! t = Some stk /\ bottom_slot stk = Some i.

(** [tdslot[i].THRDid != -1] *)
Definition busy (c : threadData) : bool := negb (THRDid c =? -1).

(** Number of slots in use. *)
Definition busy_count (tab : list threadData) : nat :=
  length (List.filter busy tab).

Record tables_ok (s : state) : Prop := {
  tab_cells : forall b, used (buffer_at s b) <> 0 -> owned s b;
  tab_slots : forall i, (i < Z.to_nat MAXTHRDS)%nat ->
      THRDid (slot_at s i) <> -1 -> owned s i;
  tab_busy : Z.of_nat (busy_count (tdslot s)) = ThreadCNT s;
  tab_limit : ThreadCNT s <= MAXTHRDS;
  tab_total : totalTHRDS s = Z.of_nat (length (threads s))
}.

Lemma owned_after s s' t old stk' extra b :
  threads s !! t = Some old ->
  threads s' = <[t := stk']> (threads s) ++ extra ->
  owned s b ->
  (bottom_slot old = Some b -> bottom_slot stk' = Some b) ->
  owned s' b.
Proof.
  intros Hth Hs' (t' & stk0 & H1 & H2) Hkeep.
  assert (Hlt : (t < length (threads s))%nat) by (eapply lookup_lt_Some; eauto).
  destruct (decide (t' = t)) as [->|Hne].
  - exists t, stk'. split.
    + rewrite Hs', lookup_app_l by (by rewrite length_insert).
      by apply list_lookup_insert_eq.
    + apply Hkeep. congruence.
  - exists t', stk0. split; [|exact H2].
    assert (Hlt' : (t' < length (threads s))%nat) by (eapply lookup_lt_Some; eauto).
    rewrite Hs', lookup_app_l by (by rewrite length_insert).
    by rewrite list_lookup_insert_ne.
Qed.

Lemma busy_count_app l1 l2 : busy_count (l1 ++ l2) = (busy_count l1 + busy_count l2)%nat.
Proof. unfold busy_count. by rewrite List.filter_app, length_app. Qed.

Lemma busy_count_insert (l : list threadData) i old new :
  l !! i = Some old ->
  (busy_count (<[i := new]> l) + (if busy old then 1 else 0)
   = busy_count l + (if busy new then 1 else 0))%nat.
Proof.
  intros H.
  assert (Hlt : (i < length l)%nat) by (eapply lookup_lt_Some; eauto).
  rewrite insert_take_drop by exact Hlt.
  rewrite <- (take_drop_middle l i old H) at 3.
  rewrite !busy_count_app.
  change (new :: drop (S i) l) with ([new] ++ drop (S i) l).
  change (old :: drop (S i) l) with ([old] ++ drop (S i) l).
  rewrite !busy_count_app.
  change (busy_count [new]) with (length (if busy new then [new] else [])).
  change (busy_count [old]) with (length (if busy old then [old] else [])).
  destruct (busy old), (busy new); simpl; lia.
Qed.

Lemma slot_at_lookup s i :
  (i < length (tdslot s))%nat -> tdslot s !! i = Some (slot_at s i).
Proof.
  intros H. unfold slot_at. destruct (tdslot s !! i) eqn:E; [reflexivity|].
  apply lookup_ge_None in E. lia.
Qed.

Lemma step_tables_ok t s s' :
  pool_ok s -> bufs_ok s -> tables_ok s -> step t s = Some s' -> tables_ok s'.
Proof.
  intros Hp Hb [Hcells Hslots Hbusy Hlim Htot] Hstep. unfold step in Hstep.
  destruct (threads s !! t) as [[|fr stk]|] eqn:Hth; try discriminate.
  injection Hstep as <-.
  destruct (pool_threads s Hp _ _ Hth) as [?|(i & Hi & Hst)]; [discriminate|].
  destruct (stack_ok_deref s i fr stk Hi Hst) as (Hbuf & _).
  pose proof (stack_ok_bottom _ _ _ Hst) as Hbot.
  destruct (step_buffers t s fr stk) as (Hother & _ & _ & _).
  assert (Hlt : (t < length (threads s))%nat) by (eapply lookup_lt_Some; eauto).
  destruct (step_pool_change t s fr stk Hp Hth)
    as [stk' Hthr Hne Hbs Htd Hcnt Htt
       |stk' child j td Hthr Hne Hbs Hcur Hj Hfree Htd Hid Hbelow Hcnt Htt Hbf
       |k td Hpc Hnil Hcur Hthr Htd Hid Hcnt Htt Hbf].
  - split.
    + intros b Hu. destruct (decide (b = i)) as [->|Hbi].
      * exists t, stk'. split; [|congruence].
        rewrite Hthr, app_nil_r. by apply list_lookup_insert_eq.
      * rewrite Hother in Hu by congruence.
        eapply owned_after; eauto. congruence.
    + intros k Hk Hu. unfold slot_at in Hu. rewrite Htd in Hu.
      eapply owned_after; eauto. congruence.
    + by rewrite Htd, Hcnt.
    + by rewrite Hcnt.
    + rewrite Htt, Htot, Hthr, app_nil_r. by rewrite length_insert.
  - assert (Hjl : (j < length (tdslot s))%nat) by (by rewrite (pool_slots s Hp)).
    split.
    + intros b Hu. unfold buffer_at in Hu. rewrite Hbf in Hu.
      eapply owned_after; eauto. congruence.
    + intros k Hk Hu. destruct (decide (k = j)) as [->|Hkj].
      * exists (length (<[t := stk']> (threads s))), [child]. split.
        -- rewrite Hthr, lookup_app_r by lia. by rewrite Nat.sub_diag.
        -- simpl. by rewrite Hcur.
      * unfold slot_at in Hu. rewrite Htd, list_lookup_insert_ne in Hu by auto.
        eapply owned_after; eauto. congruence.
    + rewrite Htd, Hcnt, <- Hbusy.
      pose proof (busy_count_insert _ j _ td (slot_at_lookup s j Hjl)) as Hins.
      unfold busy in Hins at 1 2. rewrite Hfree, Hid, Htot in Hins. simpl in Hins.
      destruct (Z.eqb_spec (Z.of_nat (length (threads s))) (-1)); [lia|].
      simpl in Hins. lia.
    + rewrite Hcnt. lia.
    + rewrite Htt, Htot, Hthr, length_app, length_insert. simpl. lia.
  - subst stk. simpl in Hbot. rewrite Hcur in Hbot. injection Hbot as ->.
    assert (Hil : (i < length (tdslot s))%nat).
    { rewrite (pool_slots s Hp). apply Hi. }
    assert (Hfr : fr ∈ frames s).
    { unfold frames. rewrite (frames_split _ _ _ Hth). by apply elem_of_cons; left. }
    pose proof (bufs_release s Hb fr Hfr Hpc) as Hempty. rewrite Hbuf in Hempty.
    split.
    + intros b Hu. unfold buffer_at in Hu. rewrite Hbf in Hu.
      eapply owned_after; eauto. simpl. rewrite Hcur. intros E.
      injection E as <-. unfold buffer_at in Hempty. congruence.
    + intros k Hk Hu. destruct (decide (k = i)) as [->|Hki].
      * exfalso. apply Hu. unfold slot_at. rewrite Htd.
        by rewrite list_lookup_insert_eq.
      * unfold slot_at in Hu. rewrite Htd, list_lookup_insert_ne in Hu by auto.
        eapply owned_after; eauto. simpl. rewrite Hcur. congruence.
    + rewrite Htd, Hcnt, <- Hbusy.
      pose proof (busy_count_insert _ i _ td (slot_at_lookup s i Hil)) as Hins.
      unfold busy in Hins at 1 2. rewrite Hid in Hins.
      destruct Hi as (_ & _ & _ & Hrange).
      destruct (Z.eqb_spec (THRDid (slot_at s i)) (-1)); [lia|].
      simpl in Hins. lia.
    + rewrite Hcnt. lia.
    + rewrite Htt, Htot, Hthr, app_nil_r. by rewrite length_insert.
Qed.

Lemma busy_count_reset l : busy_count (reset_slot <$> l) = 0%nat.
Proof. induction l as [|c l IH]; [reflexivity|exact IH]. Qed.

Lemma walk_start_tables a room root dir g :
  globals_ok g -> tables_ok (walk_start a room root dir g).
Proof.
  intros [Hs Hb].
  assert (Hlen : (0 < length (reset_slot <$> tdslot g))%nat).
  { rewrite length_fmap, Hs. unfold MAXTHRDS. simpl. lia. }
  split.
  - intros b Hu. by rewrite buffer_at_start in Hu.
  - intros i Hi Hu. destruct i as [|i].
    + exists 0%nat, [new_frame 0 (SlotPtr 0) dir]. by split.
    + exfalso. apply Hu. unfold slot_at, walk_start, csv_write_start, csv_write_open.
      cbn [tdslot]. rewrite list_lookup_insert_ne by lia.
      rewrite list_lookup_fmap.
      destruct (tdslot g !! S i) eqn:E; [reflexivity|].
      apply lookup_ge_None in E. lia.
  - unfold walk_start, csv_write_start, csv_write_open. simpl.
    destruct (reset_slot <$> tdslot g) as [|c l] eqn:E; [simpl in Hlen; lia|].
    pose proof (busy_count_reset (tdslot g)) as H0. rewrite E in H0.
    change (c :: l) with ([c] ++ l) in H0. rewrite busy_count_app in H0.
    simpl. change (?x :: l) with ([x] ++ l). rewrite busy_count_app.
    assert (busy_count l = 0%nat) as -> by lia. reflexivity.
  - unfold MAXTHRDS. simpl. lia.
  - reflexivity.
Qed.

Lemma run_tables a room pre z0 sched : forall s,
  inv a room pre z0 s -> tables_ok s -> tables_ok (run sched s).
Proof.
  induction sched as [|t sched IH]; intros s Hi Ht; [exact Ht|].
  simpl. apply IH; [by apply sched_step_inv|].
  unfold sched_step. destruct (step t s) as [s'|] eqn:E; [|exact Ht].
  simpl. eapply step_tables_ok; eauto; apply Hi.
Qed.

Lemma reachable_tables a room root dir g s :
  globals_ok g -> reachable (walk_start a room root dir g) s -> tables_ok s.
Proof.
  intros Hg [sched ->].
  eapply run_tables; [by apply walk_start_inv|by apply walk_start_tables].
Qed.

Lemma quiescent_owned s i : quiescent s -> owned s i -> False.
Proof.
  intros Hq (t & stk & Ht & Hb).
  destruct stk as [|fr stk]; [discriminate|].
  assert (Hfr : fr ∈ frames s).
  { apply elem_of_frames. exists t, (fr :: stk). split; [exact Ht|].
    by apply elem_of_cons; left. }
  unfold quiescent in Hq. rewrite Hq in Hfr. by apply elem_of_nil in Hfr.
Qed.

(** Once all invocations have returned all cells are empty. *)
Lemma orderly_cells a room root dir g s2 :
  globals_ok g -> reachable (walk_start a room root dir g) s2 -> quiescent s2 ->
  forall b, used (buffer_at s2 b) = 0.
Proof.
  intros Hg Hr Hq b.
  pose proof (reachable_tables a room root dir g s2 Hg Hr) as Ht.
  destruct (Z.eq_dec (used (buffer_at s2 b)) 0) as [E|E]; [exact E|].
  exfalso. apply (quiescent_owned s2 b Hq). by apply (tab_cells s2 Ht).
Qed.

(** ** From the records to the lines of the file *)

(** The bytes [write_record] copies into the cell for a record. *)
Definition line_of (r : record) : bytes := line_bytes (record_text r).

(** The lines that are in the cells, each with its cell, oldest first:
    a record adds its line, a flush takes the lines of its cell away. *)
Fixpoint unflushed (tr : list event) : list (nat * bytes) :=
  match tr with
  | [] => []
  | e :: r =>
      match e with
      | EvRecord _ b rec => unflushed r ++ [(b, line_of rec)]
      | EvFlush b _ =>
          List.filter (fun x => negb (Nat.eqb (fst x) b)) (unflushed r)
      | _ => unflushed r
      end
  end.

(** The lines in cell [b]. *)
Definition queue (b : nat) (tr : list event) : list bytes :=
  map snd (List.filter (fun x => Nat.eqb (fst x) b) (unflushed tr)).

(** The flushed blocks in flush order, each as the list of its lines. *)
Fixpoint blocks (tr : list event) : list (list bytes) :=
  match tr with
  | [] => []
  | e :: r => blocks r ++ match e with EvFlush b _ => [queue b r] | _ => [] end
  end.

(** Every flush wrote what its cell held: the bytes written into the
    cell and not flushed before. *)
Fixpoint faithful (tr : list event) : Prop :=
  match tr with
  | [] => True
  | e :: r =>
      match e with
      | EvFlush b data => flushed b r ++ data = written b r
      | _ => True
      end /\ faithful r
  end.

Lemma filter_cell_same (b : nat) (l : list (nat * bytes)) :
  List.filter (fun x => Nat.eqb (fst x) b)
    (List.filter (fun x => negb (Nat.eqb (fst x) b)) l) = [].
Proof.
  induction l as [|x l IH]; simpl; [reflexivity|].
  destruct (Nat.eqb (fst x) b) eqn:E; simpl; [exact IH|].
  by rewrite E.
Qed.

Lemma filter_cell_other (b b' : nat) (l : list (nat * bytes)) :
  b' <> b ->
  List.filter (fun x => Nat.eqb (fst x) b)
    (List.filter (fun x => negb (Nat.eqb (fst x) b')) l)
  = List.filter (fun x => Nat.eqb (fst x) b) l.
Proof.
  intros Hne. induction l as [|x l IH]; simpl; [reflexivity|].
  destruct (Nat.eqb_spec (fst x) b') as [E|E]; simpl.
  - destruct (Nat.eqb_spec (fst x) b) as [E2|E2]; [congruence|exact IH].
  - destruct (Nat.eqb (fst x) b); by rewrite IH.
Qed.

Lemma filter_cell_split (b : nat) (l : list (nat * bytes)) :
  List.filter (fun x => Nat.eqb (fst x) b) l
  ++ List.filter (fun x => negb (Nat.eqb (fst x) b)) l ≡ₚ l.
Proof.
  induction l as [|x l IH]; simpl; [reflexivity|].
  destruct (Nat.eqb (fst x) b); simpl.
  - by rewrite IH.
  - rewrite <- Permutation_middle. by rewrite IH.
Qed.

Lemma queue_record fid b b' rec tr :
  queue b (EvRecord fid b' rec :: tr)
  = queue b tr ++ (if Nat.eqb b' b then [line_of rec] else []).
Proof.
  unfold queue. simpl. rewrite List.filter_app, map_app. simpl.
  by destruct (Nat.eqb b' b).
Qed.

Lemma queue_flush b b' data tr :
  queue b (EvFlush b' data :: tr) = if Nat.eqb b' b then [] else queue b tr.
Proof.
  unfold queue. simpl. destruct (Nat.eqb_spec b' b) as [->|Hne].
  - by rewrite filter_cell_same.
  - by rewrite filter_cell_other.
Qed.

Lemma queue_spec tr : faithful tr ->
  forall b, flushed b tr ++ concat (queue b tr) = written b tr.
Proof.
  induction tr as [|e tr IH]; intros Hf b; [reflexivity|].
  destruct Hf as [He Hf]. specialize (IH Hf).
  destruct e as [fid p o|fid b' rec|b' data|fid p d sp|sl];
    try (simpl; rewrite !app_nil_r; apply IH).
  - rewrite queue_record. simpl. rewrite app_nil_r, concat_app, app_assoc, IH.
    destruct (Nat.eqb b' b); simpl; by rewrite ?app_nil_r.
  - rewrite queue_flush. simpl. rewrite app_nil_r.
    destruct (Nat.eqb_spec b' b) as [->|Hne]; simpl.
    + by rewrite app_nil_r.
    + rewrite app_nil_r. apply IH.
Qed.

Lemma chunks_blocks tr : faithful tr -> chunks tr = map (@concat ascii) (blocks tr).
Proof.
  induction tr as [|e tr IH]; intros Hf; [reflexivity|].
  destruct Hf as [He Hf]. simpl. rewrite map_app. f_equal; [by apply IH|].
  destruct e as [fid p o|fid b' rec|b' data|fid p d sp|sl]; try reflexivity.
  simpl. f_equal.
  pose proof (queue_spec tr Hf b') as Hq. rewrite <- He in Hq.
  by apply app_inv_head in Hq.
Qed.

Lemma blocks_lines tr :
  concat (blocks tr) ++ map snd (unflushed tr) ≡ₚ map line_of (records tr).
Proof.
  induction tr as [|e tr IH]; [reflexivity|].
  destruct e as [fid p o|fid b' rec|b' data|fid p d sp|sl];
    try (simpl; by rewrite !app_nil_r).
  - simpl. rewrite app_nil_r, !map_app, app_assoc, IH. reflexivity.
  - simpl. rewrite app_nil_r, concat_app. simpl. rewrite app_nil_r, <- IH.
    rewrite <- app_assoc. f_equiv. unfold queue. rewrite <- map_app.
    by rewrite filter_cell_split.
Qed.

Lemma length_record_text_pos r : (0 < String.length (record_text r))%nat.
Proof. unfold record_text. rewrite length_append. simpl. lia. Qed.

Lemma unflushed_lines tr x : In x (unflushed tr) -> snd x <> [].
Proof.
  induction tr as [|e tr IH]; [intros []|].
  destruct e as [fid p o|fid b' rec|b' data|fid p d sp|sl]; simpl; auto.
  - intros H. apply in_app_or in H as [H|[<-|[]]]; [auto|].
    simpl. intros E. pose proof (length_line_bytes (record_text rec)) as Hl.
    unfold line_of in E. rewrite E in Hl.
    pose proof (length_record_text_pos rec). simpl in Hl. lia.
  - intros H. apply List.filter_In in H as [H _]. auto.
Qed.

Lemma unflushed_empty tr :
  (forall b, concat (queue b tr) = []) -> unflushed tr = [].
Proof.
  intros H. destruct (unflushed tr) as [|[b line] l] eqn:E; [reflexivity|exfalso].
  assert (Hin : In (b, line) (unflushed tr)) by (rewrite E; by left).
  apply unflushed_lines in Hin. simpl in Hin.
  specialize (H b). unfold queue in H. rewrite E in H. simpl in H.
  rewrite Nat.eqb_refl in H. simpl in H.
  apply app_eq_nil in H as [H _]. congruence.
Qed.

Lemma flush_buffer_faithful b s :
  stream_eq s b -> faithful (trace s) -> faithful (trace (flush_buffer b s)).
Proof.
  intros Hs Hf. rewrite trace_flush. unfold flush_events.
  destruct (used (buffer_at s b) =? 0); [exact Hf|]. by split.
Qed.

Lemma make_room_faithful b len s :
  stream_eq s b -> faithful (trace s) -> faithful (trace (make_room b len s)).
Proof.
  intros Hs Hf. unfold make_room. destruct (_ >=? _); [|exact Hf].
  by apply flush_buffer_faithful.
Qed.

Lemma write_record_faithful fid b r s :
  stream_eq s b -> faithful (trace s) -> faithful (trace (write_record fid b r s)).
Proof.
  intros Hs Hf. rewrite trace_write, <- make_room_trace.
  split; [exact I|]. by apply make_room_faithful.
Qed.

Lemma step_faithful t s s' :
  stream_ok s -> faithful (trace s) -> step t s = Some s' -> faithful (trace s').
Proof.
  intros Hs Hf Hstep. unfold step in Hstep.
  destruct (threads s !! t) as [[|fr stk]|] eqn:Hth; try discriminate.
  injection Hstep as <-. unfold step_frame.
  destruct (fr_pc fr) as [|[|d rest]| |] eqn:Hpc.
  - destruct (fr_dir fr); by split.
  - apply write_record_faithful; [exact (Hs _)|exact Hf].
  - rewrite loop_body_considered.
    destruct (considered (SNAPSHOT s) d) as [f|]; [|exact Hf].
    destruct (S_ISDIR (st_mode f)).
    + match goal with |- context [fan_out ?a ?b ?c ?d ?e ?f ?g] =>
        destruct (fan_out_buffers a b c d e f g)
          as (_ & _ & _ & _ & (ch & pa & sp & Ht)) end.
      rewrite Ht. by split.
    + apply write_record_faithful; [exact (Hs _)|exact Hf].
  - destruct (flag (deref s (cur fr)) =? 0); [|exact Hf].
    apply flush_buffer_faithful; [exact (Hs _)|exact Hf].
  - destruct (cur fr); by split.
Qed.

Lemma run_faithful a room pre z0 sched : forall s,
  inv a room pre z0 s -> faithful (trace s) -> faithful (trace (run sched s)).
Proof.
  induction sched as [|t sched IH]; intros s Hi Hf; [exact Hf|].
  simpl. apply IH; [by apply sched_step_inv|].
  unfold sched_step. destruct (step t s) as [s'|] eqn:E; [|exact Hf].
  simpl. eapply step_faithful; eauto. apply Hi.
Qed.

Lemma reachable_faithful a room root dir g s :
  globals_ok g -> reachable (walk_start a room root dir g) s -> faithful (trace s).
Proof.
  intros Hg [sched ->].
  eapply run_faithful; [by apply walk_start_inv|exact I].
Qed.




(** ** Reading the log of one invocation *)

(** A record with a count in [pw_fcount]; entry records carry -1. *)
Definition is_summary (r : record) : bool := negb (r_fcount r =? -1).






Lemma entry_events_records fid c snap l e :
  In e (entry_events fid c snap l) ->
  exists d f, In d l /\ considered snap d = Some f /\ S_ISDIR (st_mode f) = false
              /\ e = EvRecord fid (buf c) (entry_record c d f).
Proof.
  induction l as [|d l IH]; simpl; [intros []|].
  intros H. apply in_app_or in H as [H|H].
  - unfold entry_event in H. destruct (considered snap d) as [f|] eqn:E; [|destruct H].
    destruct (S_ISDIR (st_mode f)) eqn:E2; [destruct H|].
    destruct H as [<-|[]]. exists d, f. auto.
  - destruct (IH H) as (d' & f & ? & ?). exists d', f. auto.
Qed.

Lemma In_entry_events fid c snap l d f :
  In d l -> considered snap d = Some f -> S_ISDIR (st_mode f) = false ->
  In (EvRecord fid (buf c) (entry_record c d f)) (entry_events fid c snap l).
Proof.
  induction l as [|x l IH]; simpl; [intros []|].
  intros [->|H] Hc Hd; apply in_or_app.
  - left. unfold entry_event. rewrite Hc, Hd. by left.
  - right. by apply IH.
Qed.

(** The three shapes the log of an invocation can have. *)
Inductive shape (s : state) (fid : nat) : Prop :=
| shape_none : history fid (trace s) = [] -> shape s fid
| shape_loop c done rest g :
    history fid (trace s)
    = EvOpendir fid (dname c) (Some (done ++ rest))
      :: entry_events fid c (SNAPSHOT s) done ->
    g ∈ frames s -> fr_id g = fid -> fr_pc g = AtLoop rest ->
    shape s fid
| shape_full c dir :
    history fid (trace s) = full_events fid c (SNAPSHOT s) dir ->
    shape s fid.

Lemma events_shape s fid : events_ok s -> shape s fid.
Proof.
  intros He.
  destruct (decide (fid < next_fid s)%nat) as [Hlt|Hge].
  2:{ apply shape_none. apply (ev_fresh s He). lia. }
  destruct (decide (fid ∈ (fr_id <$> frames s))) as [Hin|Hnot].
  - apply list_elem_of_fmap in Hin as (g & -> & Hg).
    destruct (ev_frames s He g Hg) as [Hinv _]. unfold frame_inv in Hinv.
    destruct (fr_pc g) as [|rest| |] eqn:Hpc.
    + apply shape_none. apply Hinv.
    + destruct Hinv as (done & es & Hdir & -> & Hh & _).
      by eapply shape_loop.
    + by eapply shape_full.
    + by eapply shape_full.
  - destruct (ev_done s He fid Hlt Hnot) as (c & dir & Hh).
    by eapply shape_full.
Qed.


Lemma opendir_in_full_log fid c snap dir path es :
  In (EvOpendir fid path (Some es)) (full_events fid c snap dir) ->
  path = dname c /\ dir = Some es.
Proof.
  destruct dir as [es'|]; simpl.
  - intros [H|H].
    + injection H as -> ->. auto.
    + apply in_app_or in H as [H|[H|[]]]; [|discriminate].
      apply entry_events_records in H as (d & f & _ & _ & _ & H). discriminate.
  - intros [H|[]]. discriminate.
Qed.




Lemma split_at_last {A} (P : A -> Prop) (l1 l2 X : list A) (e y : A) :
  l1 ++ e :: l2 = X ++ [y] -> P e -> (forall x, In x X -> ~ P x) ->
  l1 = X /\ l2 = [] /\ e = y.
Proof.
  revert X. induction l1 as [|a l1 IH]; intros X Heq He Hno; simpl in Heq.
  - destruct X as [|x X]; simpl in Heq.
    + injection Heq as -> ->. auto.
    + injection Heq as -> _. exfalso. apply (Hno x); [by left|exact He].
  - destruct X as [|x X]; simpl in Heq.
    + injection Heq as _ Heq. by destruct l1.
    + injection Heq as -> Heq.
      destruct (IH X Heq He) as (-> & -> & ->); auto.
      intros z Hz. apply Hno. by right.
Qed.

Definition summary_event (e : event) : Prop :=
  match e with EvRecord _ _ r => is_summary r = true | _ => False end.

(** C2. Whenever a summary record of an invocation is written into a
    cell (event [EvRecord fid b r], the events [older] being those before
    it), the entry record of every considered non-directory child of the
    opened listing is already among the older events.  For each cell,
    the bytes flushed out of it followed by the bytes still pending in it
    are the lines of the records written into it, in the order of the
    [write_record] calls; and the sink holds the header followed by the
    payload of the flushed blocks in flush order. *)
Theorem summary_after_entries a room root dir g s :
  globals_ok g ->
  reachable (walk_start a room root dir g) s ->
  (forall newer older fid b r,
      trace s = newer ++ EvRecord fid b r :: older ->
      is_summary r = true ->
      forall path es d f,
        In (EvOpendir fid path (Some es)) (trace s) ->
        In d es -> considered (ignore_snaps a) d = Some f ->
        S_ISDIR (st_mode f) = false ->
        exists b' pin dep,
          In (EvRecord fid b'
                (mkRecord (fullpath_of path (d_name d)) f pin dep (-1) 0)) older)
  /\ (forall b, flushed b (trace s) ++ pending (buffer_at s b) = written b (trace s))
  /\ f_data (output_file s)
     = accept room
         (bytes_of header
          ++ payload (compressor (walk_start a room root dir g)) (chunks (trace s))).
Proof.
  intros Hg Hr.
  pose proof (reachable_inv a room root dir g s Hg Hr) as [Hp He _ _ Hst Hsk Hsn _ _].
  split; [|split; [exact Hst|apply Hsk]].
  intros newer older fid b r Htr Hsum path es d f Hin Hd Hc Hisd.
  apply (history_intro fid) in Hin; [|simpl; apply Nat.eqb_refl].
  assert (Hsplit : history fid (trace s)
                   = history fid older ++ EvRecord fid b r :: history fid newer).
  { rewrite Htr, history_app. simpl. rewrite Nat.eqb_refl.
    by rewrite <- app_assoc. }
  rewrite <- Hsn in Hc.
  destruct (events_shape s fid He) as [Hh|c done rest fr Hh Hfr Hid Hpc|c dir' Hh];
    rewrite Hh in Hin.
  - destruct Hin.
  - exfalso. rewrite Hh in Hsplit.
    assert (Hr' : In (EvRecord fid b r)
              (EvOpendir fid (dname c) (Some (done ++ rest))
               :: entry_events fid c (SNAPSHOT s) done)).
    { rewrite Hsplit. apply in_or_app. right. by left. }
    destruct Hr' as [Hr'|Hr']; [discriminate|].
    apply entry_events_records in Hr' as (d' & f' & _ & _ & _ & Hr').
    injection Hr' as _ ->. discriminate.
  - apply opendir_in_full_log in Hin as [-> ->].
    rewrite Hh in Hsplit. simpl in Hsplit.
    symmetry in Hsplit. rewrite app_comm_cons in Hsplit.
    apply (split_at_last summary_event) in Hsplit as (Hold & _ & _).
    + exists (buf c), (st_ino (pstat c)), (depth c).
      apply (history_elim fid). rewrite Hold. right.
      by apply (In_entry_events fid c (SNAPSHOT s) es d f).
    + exact Hsum.
    + intros x [<-|Hx]; [prop_solve|].
      apply entry_events_records in Hx as (d' & f' & _ & _ & _ & ->).
      simpl. discriminate.
Qed.

Lemma is_dot_spec name : is_dot name = true <-> name = "." \/ name = "..".
Proof.
  unfold is_dot. rewrite orb_true_iff, !String.eqb_eq. split; intros [H|H]; auto.
Qed.

Lemma is_snapshot_spec snap name :
  is_snapshot snap name = true <-> snap <> 0 /\ name = ".snapshot".
Proof.
  unfold is_snapshot. rewrite andb_true_iff, negb_true_iff, Z.eqb_neq, String.eqb_eq.
  split; intros [H1 H2]; auto.
Qed.

Lemma considered_none snap d :
  considered snap d = None
  <-> d_name d = "." \/ d_name d = ".."
      \/ (snap <> 0 /\ d_name d = ".snapshot") \/ lst d = None.
Proof.
  unfold considered.
  destruct (is_dot (d_name d)) eqn:E1.
  { apply is_dot_spec in E1. split; [prop_solve|auto]. }
  destruct (is_snapshot snap (d_name d)) eqn:E2.
  { apply is_snapshot_spec in E2. split; [prop_solve|auto]. }
  split; [auto|].
  intros [H|[H|[H|H]]]; auto.
  - assert (is_dot (d_name d) = true) by (apply is_dot_spec; auto). congruence.
  - assert (is_dot (d_name d) = true) by (apply is_dot_spec; auto). congruence.
  - assert (is_snapshot snap (d_name d) = true) by (by apply is_snapshot_spec). congruence.
Qed.

Lemma count_children_skip snap l1 l2 d :
  considered snap d = None ->
  count_children snap (l1 ++ d :: l2) = count_children snap (l1 ++ l2).
Proof.
  intros H. rewrite !count_children_app.
  change (d :: l2) with ([d] ++ l2). rewrite count_children_app.
  unfold count_children at 2. simpl. unfold is_considered. rewrite H. simpl. lia.
Qed.

Lemma sum_sizes_skip snap l1 l2 d :
  considered snap d = None ->
  sum_sizes snap (l1 ++ d :: l2) = sum_sizes snap (l1 ++ l2).
Proof.
  intros H. rewrite !sum_sizes_app.
  change (d :: l2) with ([d] ++ l2). rewrite sum_sizes_app.
  unfold sum_sizes at 2. simpl. unfold is_file. rewrite H. simpl. lia.
Qed.

Lemma entry_events_skip fid c snap l1 l2 d :
  considered snap d = None ->
  entry_events fid c snap (l1 ++ d :: l2) = entry_events fid c snap (l1 ++ l2).
Proof.
  intros H. rewrite !entry_events_app. simpl.
  by rewrite entry_event_skip.
Qed.

(** The stack of the stepping thread after [fan_out], and the number of
    the invocation it starts. *)
Lemma fan_out_stack t fr stk d f fullpath s old :
  threads s !! t = Some old ->
  next_fid (fan_out t fr stk d f fullpath s) = S (next_fid s)
  /\ (exists sp, trace (fan_out t fr stk d f fullpath s)
                 = EvEnter (next_fid s) (fr_id fr) d sp :: trace s)
  /\ (threads (fan_out t fr stk d f fullpath s) !! t = Some (fr :: stk)
      \/ exists child,
           threads (fan_out t fr stk d f fullpath s) !! t = Some (child :: fr :: stk)).
Proof.
  intros Hth.
  assert (Hlt : (t < length (threads s))%nat) by (eapply lookup_lt_Some; eauto).
  unfold fan_out.
  repeat match goal with |- context [if ?c then _ else _] => destruct c end;
    cbn [next_fid trace threads log set_threads set_stack set_counts set_tdslot
         set_next_fid];
    (split; [reflexivity|]); (split; [by eexists|]);
    first [ left; rewrite lookup_app_l by (by rewrite length_insert);
            by apply list_lookup_insert_eq
          | right; eexists; by apply list_lookup_insert_eq ].
Qed.

(** C5. The step of the loop on an entry passes it over (it moves to the
    next entry and changes nothing else: no record, no event, no counter,
    no new invocation) exactly when the entry is ".", "..", ".snapshot"
    with the ignore-snapshots flag set, or its [lstat] failed, in
    whatever directory the loop runs; an entry named ".snapshot" whose
    [lstat] succeeded is passed over if and only if the flag is set.
    Every other entry is taken into account by the step: [localCnt]
    grows by one and either its record is written and its size added to
    [localSz], or, for a directory, an invocation is started on it.  An
    entry that is passed over adds nothing to the count, the size sum or
    the entry records of the listing. *)
Theorem skipped_entries (s : state) (t : nat) (fr : frame) (stk : list frame)
        (d : dirent) (rest : list dirent) :
  threads s !! t = Some (fr :: stk) ->
  fr_pc fr = AtLoop (d :: rest) ->
  let c := deref s (cur fr) in
  let skip := set_stack t (with_pc (AtLoop rest) fr :: stk) s in
  (step t s = Some skip
   <-> d_name d = "." \/ d_name d = ".."
       \/ (SNAPSHOT s <> 0 /\ d_name d = ".snapshot") \/ lst d = None)
  /\ (d_name d = ".snapshot" -> lst d <> None ->
      (step t s = Some skip <-> SNAPSHOT s <> 0))
  /\ (trace skip = trace s /\ buffers skip = buffers s
      /\ output_file skip = output_file s /\ tdslot skip = tdslot s
      /\ ThreadCNT skip = ThreadCNT s /\ totalTHRDS skip = totalTHRDS s
      /\ next_fid skip = next_fid s
      /\ localCnt (with_pc (AtLoop rest) fr) = localCnt fr
      /\ localSz (with_pc (AtLoop rest) fr) = localSz fr)
  /\ (forall f,
        d_name d <> "." -> d_name d <> ".." ->
        (SNAPSHOT s = 0 \/ d_name d <> ".snapshot") -> lst d = Some f ->
        exists s' stk',
          step t s = Some s' /\ threads s' !! t = Some stk'
          /\ if S_ISDIR (st_mode f) then
               let fr' := mkFrame (fr_id fr) (cur fr) (fr_dir fr) (AtLoop rest)
                                  (localCnt fr + 1) (localSz fr) in
               (stk' = fr' :: stk \/ exists child, stk' = child :: fr' :: stk)
               /\ next_fid s' = S (next_fid s)
               /\ exists sp, trace s' = EvEnter (next_fid s) (fr_id fr) d sp :: trace s
             else
               let fr' := mkFrame (fr_id fr) (cur fr) (fr_dir fr) (AtLoop rest)
                                  (localCnt fr + 1)
                                  (wrap_long (localSz fr + st_size f)) in
               stk' = fr' :: stk
               /\ In (EvRecord (fr_id fr) (buf c)
                        (mkRecord (fullpath_of (dname c) (d_name d)) f
                                  (st_ino (pstat c)) (depth c) (-1) 0))
                     (trace s'))
  /\ (considered (SNAPSHOT s) d = None ->
      forall fid c l1 l2,
        count_children (SNAPSHOT s) (l1 ++ d :: l2)
        = count_children (SNAPSHOT s) (l1 ++ l2)
        /\ sum_sizes (SNAPSHOT s) (l1 ++ d :: l2) = sum_sizes (SNAPSHOT s) (l1 ++ l2)
        /\ entry_events fid c (SNAPSHOT s) (l1 ++ d :: l2)
           = entry_events fid c (SNAPSHOT s) (l1 ++ l2)).
Proof.
  intros Hth Hpc c skip.
  assert (Hlt : (t < length (threads s))%nat) by (eapply lookup_lt_Some; eauto).
  assert (Hstep : step t s = Some (loop_body t fr stk d rest s)).
  { unfold step. rewrite Hth. unfold step_frame. by rewrite Hpc. }
  assert (Hskip : threads skip !! t = Some (with_pc (AtLoop rest) fr :: stk)).
  { unfold skip. simpl. by apply list_lookup_insert_eq. }
  (* what the step does with an entry that survives the three tests *)
  assert (Htaken : forall f, considered (SNAPSHOT s) d = Some f ->
            exists stk',
              threads (loop_body t fr stk d rest s) !! t = Some stk'
              /\ if S_ISDIR (st_mode f) then
                   let fr' := mkFrame (fr_id fr) (cur fr) (fr_dir fr) (AtLoop rest)
                                      (localCnt fr + 1) (localSz fr) in
                   (stk' = fr' :: stk \/ exists child, stk' = child :: fr' :: stk)
                   /\ next_fid (loop_body t fr stk d rest s) = S (next_fid s)
                   /\ exists sp, trace (loop_body t fr stk d rest s)
                                 = EvEnter (next_fid s) (fr_id fr) d sp :: trace s
                 else
                   let fr' := mkFrame (fr_id fr) (cur fr) (fr_dir fr) (AtLoop rest)
                                      (localCnt fr + 1)
                                      (wrap_long (localSz fr + st_size f)) in
                   stk' = fr' :: stk
                   /\ In (EvRecord (fr_id fr) (buf c)
                            (mkRecord (fullpath_of (dname c) (d_name d)) f
                                      (st_ino (pstat c)) (depth c) (-1) 0))
                         (trace (loop_body t fr stk d rest s))).
  { intros f Hc. rewrite loop_body_considered, Hc.
    destruct (S_ISDIR (st_mode f)).
    - match goal with |- context [fan_out ?a ?b ?c ?d ?e ?f ?g] =>
        destruct (fan_out_stack a b c d e f g _ Hth) as (Hn & Hev & Hst) end.
      destruct Hst as [Hst|(child & Hst)]; eexists; (split; [exact Hst|]);
        (split; [|split; [exact Hn|exact Hev]]); eauto.
    - eexists. split; [|split; [reflexivity|]].
      + rewrite threads_write. simpl. by apply list_lookup_insert_eq.
      + rewrite trace_write. by left. }
  assert (Hiff : step t s = Some skip <-> considered (SNAPSHOT s) d = None).
  { split.
    - intros Hs. destruct (considered (SNAPSHOT s) d) as [f|] eqn:Hc; [|reflexivity].
      exfalso. rewrite Hstep in Hs. injection Hs as Hs.
      destruct (Htaken f eq_refl) as (stk' & Hst & Hcase).
      rewrite Hs, Hskip in Hst. injection Hst as Hst.
      destruct (S_ISDIR (st_mode f)).
      + destruct Hcase as ([E|(child & E)] & _); rewrite E in Hst.
        * apply (f_equal (fun l => localCnt <$> l)) in Hst. simpl in Hst.
          injection Hst. lia.
        * apply (f_equal length) in Hst. simpl in Hst. lia.
      + destruct Hcase as (E & _). rewrite E in Hst.
        apply (f_equal (fun l => localCnt <$> l)) in Hst. simpl in Hst.
        injection Hst. lia.
    - intros Hc. rewrite Hstep. by rewrite loop_body_considered, Hc. }
  split; [by rewrite Hiff, considered_none|]. split; [|split; [|split]].
  - intros Hn Hl. rewrite Hiff, considered_none. split.
    + intros [H|[H|[[H _]|H]]]; auto; rewrite Hn in H; discriminate.
    + intros H. right; right; left. auto.
  - repeat split; reflexivity.
  - intros f Hd1 Hd2 Hsn Hl.
    assert (Hc : considered (SNAPSHOT s) d = Some f).
    { destruct (considered (SNAPSHOT s) d) as [f'|] eqn:E.
      - unfold considered in E.
        destruct (is_dot (d_name d)); [discriminate|].
        destruct (is_snapshot (SNAPSHOT s) (d_name d)); [discriminate|]. congruence.
      - apply considered_none in E. destruct E as [E|[E|[[E1 E2]|E]]];
          try congruence. destruct Hsn; congruence. }
    destruct (Htaken f Hc) as (stk' & Hst & Hcase).
    exists (loop_body t fr stk d rest s), stk'. auto.
  - intros Hc fid c0 l1 l2. split; [|split].
    + by apply count_children_skip.
    + by apply sum_sizes_skip.
    + by apply entry_events_skip.
Qed.


(** ** The filename field *)

Lemma strrchr_split p c i :
  strrchr p c = Some i ->
  exists pre, p = String.append pre (String c (str_plus p (S i)))
              /\ String.length pre = i
              /\ strrchr (str_plus p (S i)) c = None.
Proof.
  revert i. induction p as [|x p IH]; intros i; simpl; [discriminate|].
  destruct (strrchr p c) as [j|] eqn:E.
  - intros H. injection H as <-.
    destruct (IH j eq_refl) as (pre & Hp & Hl & Hn).
    exists (String x pre). simpl. split; [by rewrite <- Hp|]. split; [by rewrite Hl|].
    exact Hn.
  - destruct (Ascii.eqb_spec x c) as [->|Hne]; [|discriminate].
    intros H. injection H as <-. exists EmptyString.
    assert (H0 : str_plus p 0 = p) by (by destruct p).
    simpl. rewrite H0. auto.
Qed.

(** The field is what follows the last separator, or the whole path. *)
Lemma filename_of_spec p :
  ((strrchr p slash = None /\ filename_of p = p)
   \/ exists pre, p = String.append pre (String slash (filename_of p)))
  /\ strrchr (filename_of p) slash = None.
Proof.
  unfold filename_of. destruct (strrchr p slash) as [i|] eqn:E.
  - destruct (strrchr_split p slash i E) as (pre & Hp & _ & Hn).
    split; [right; by exists pre|exact Hn].
  - split; [left; auto|exact E].
Qed.

Lemma strrchr_append dir name c :
  strrchr name c = None ->
  strrchr (String.append dir (String c name)) c = Some (String.length dir).
Proof.
  intros Hn. induction dir as [|x dir IH]; simpl.
  - by rewrite Hn, Ascii.eqb_refl.
  - by rewrite IH.
Qed.

Lemma str_plus_append dir c name :
  str_plus (String.append dir (String c name)) (S (String.length dir)) = name.
Proof.
  induction dir as [|x dir IH]; simpl; [by destruct name|exact IH].
Qed.

Lemma str_take_all n x : (String.length x <= n)%nat -> str_take n x = x.
Proof.
  revert x. induction n as [|n IH]; intros [|c x] H; simpl in *; auto; try lia.
  rewrite IH; [reflexivity|lia].
Qed.

(** A composed path that fits [MAXPATH] ends in the name it was composed
    from. *)
Lemma filename_of_fullpath dir name :
  strrchr name slash = None ->
  strlen dir + 1 + strlen name < MAXPATH ->
  filename_of (fullpath_of dir name) = name.
Proof.
  intros Hn Hfit. unfold fullpath_of.
  rewrite str_take_all.
  - unfold filename_of. rewrite strrchr_append by exact Hn.
    apply str_plus_append.
  - rewrite length_append. simpl. unfold strlen, MAXPATH in *. lia.
Qed.

(** C6 (as amended). The filename field of every record, the summary
    record of the root included, is the part of the record's path after
    its last separator, or the whole path if it has none.  The path of a
    record of the first invocation may be the root path as given; every
    other path was composed from an opened directory and a name read from
    it, and then the field is that name, hence not empty, provided the
    name is not empty, holds no separator and the composed path fits
    [MAXPATH]. *)
Theorem filename_field a room root dir g s fid b r :
  globals_ok g ->
  reachable (walk_start a room root dir g) s ->
  In (EvRecord fid b r) (trace s) ->
  record_fields r !! 3%nat = Some (quoted (csv_escape (filename_of (r_path r))))
  /\ ((strrchr (r_path r) slash = None /\ filename_of (r_path r) = r_path r)
      \/ exists pre,
           r_path r = String.append pre (String slash (filename_of (r_path r))))
  /\ strrchr (filename_of (r_path r)) slash = None
  /\ ((fid = 0%nat /\ r_path r = top a)
      \/ exists fidp dirp es d,
           In (EvOpendir fidp dirp (Some es)) (trace s) /\ In d es
           /\ r_path r = fullpath_of dirp (d_name d)
           /\ (d_name d <> EmptyString -> strrchr (d_name d) slash = None ->
               strlen dirp + 1 + strlen (d_name d) < MAXPATH ->
               filename_of (r_path r) = d_name d
               /\ filename_of (r_path r) <> EmptyString)).
Proof.
  intros Hg Hr Hin.
  pose proof (reachable_inv a room root dir g s Hg Hr) as [_ _ Hpa _ _ _ _ _ _].
  split; [reflexivity|].
  destruct (filename_of_spec (r_path r)) as [H1 H2].
  split; [exact H1|]. split; [exact H2|].
  destruct (paths_records a s Hpa fid b r Hin)
    as [H|(fidp & dirp & es & d & Ho & Hd & Hp)]; [by left|right].
  exists fidp, dirp, es, d. repeat split; auto.
  - rewrite Hp. by apply filename_of_fullpath.
  - rewrite Hp, filename_of_fullpath by auto. auto.
Qed.

(** ** The entry point *)

Lemma wait_loop_run fuel : forall iterations active sched s,
  exists sched', fst (fst (wait_loop fuel iterations active sched s)) = run sched' s.
Proof.
  induction fuel as [|k IH]; intros it act sched s; simpl.
  - by exists [].
  - destruct (it <? max_iterations); [|by exists []].
    destruct (ThreadCNT (run (hd [] sched) s) =? 0).
    + by exists (hd [] sched).
    + destruct (IH (it + 1) (ThreadCNT (run (hd [] sched) s)) (tl sched)
                   (run (hd [] sched) s)) as [sched' Hs].
      exists (hd [] sched ++ sched'). by rewrite run_app.
Qed.

(** The loop left before its last round has read a zero counter. *)
Lemma wait_loop_exit fuel : forall iterations active sched s,
  max_iterations <= iterations + Z.of_nat fuel ->
  snd (fst (wait_loop fuel iterations active sched s)) < max_iterations ->
  ThreadCNT (fst (fst (wait_loop fuel iterations active sched s))) = 0.
Proof.
  induction fuel as [|k IH]; intros it act sched s Hfuel; simpl.
  - lia.
  - destruct (Z.ltb_spec it max_iterations) as [Hlt|Hge]; [|simpl; lia].
    destruct (Z.eqb_spec (ThreadCNT (run (hd [] sched) s)) 0) as [E|E].
    + intros _. exact E.
    + apply IH. lia.
Qed.

(** C10. When [fopen] succeeds and [lstat] of the root fails, the entry
    point returns the OSError for the root path, and by then the stream
    has been opened, given the header and closed: its content is the
    header line (as far as the device took it, the whole line when it
    fits), no thread was created and no record was written. *)
Theorem root_lstat_failure w a sched g room :
  fopen_answer w = Some room ->
  root_lstat w = None ->
  let s' := snd (csv_write w a sched g) in
  fst (csv_write w a sched g) = PyErr_OSError (top a)
  /\ f_open (output_file s') = false
  /\ f_data (output_file s') = accept room (bytes_of header)
  /\ threads s' = [] /\ trace s' = []
  /\ (match room with
      | None => True
      | Some n => (length (bytes_of header) <= n)%nat
      end ->
      f_data (output_file s') = bytes_of header
      /\ f_error (output_file s') = false).
Proof.
  intros Hf Hl. unfold csv_write. rewrite Hf, Hl.
  unfold csv_write_open. generalize (bytes_of header). intros hdr. simpl.
  unfold fwrite. simpl.
  destruct room as [n|]; simpl.
  - destruct (Nat.leb_spec (length hdr) n) as [Hle|Hgt]; simpl.
    + rewrite take_ge by lia. repeat split; auto.
    + repeat split; auto; intros; lia.
  - repeat split; auto.
Qed.

(** *** After the polling loop *)

Lemma end_frame_frame a s :
  buffers (end_frame a s) = buffers s
  /\ tdslot (end_frame a s) = tdslot s
  /\ ThreadCNT (end_frame a s) = ThreadCNT s
  /\ threads (end_frame a s) = threads s
  /\ trace (end_frame a s) = trace s
  /\ f_open (output_file (end_frame a s)) = f_open (output_file s).
Proof.
  unfold end_frame.
  destruct (frame_open a s)
    as [z2|]; [destruct (ZSTD_compressStream2 z2 [] ZSTD_e_end) as [z3 out]|];
    repeat split; try reflexivity.
  cbn [output_file set_output]. unfold fwrite.
  destruct (f_room (output_file s)) as [n|]; [|reflexivity].
  by destruct (length out <=? n)%nat.
Qed.

(** Without a compressor in use the block is not entered. *)
Lemma frame_open_raw a s : compressor s = None -> frame_open a s = None.
Proof.
  unfold compressor, frame_open. intros H.
  destruct HAVE_ZSTD; simpl; [rewrite H; by destruct (negb _)|reflexivity].
Qed.

Lemma frame_open_unset a s : compress a = 0 -> frame_open a s = None.
Proof. unfold frame_open. intros ->. simpl. by rewrite andb_false_r. Qed.

Lemma end_frame_raw a s : compressor s = None -> end_frame a s = s.
Proof. intros H. unfold end_frame. by rewrite (frame_open_raw a s H). Qed.

(** With no worker left, the steps scheduled during the finalization
    are steps of no one. *)
Lemma csv_write_finish_at_rest a late s :
  quiescent s -> csv_write_finish a late s = finish_at_rest a s.
Proof.
  intros Hq. unfold csv_write_finish, finish_at_rest, end_frame.
  rewrite (quiescent_run s Hq).
  destruct (frame_open a s) as [z|].
  - destruct (ZSTD_compressStream2 z [] ZSTD_e_end) as [z' out].
    rewrite (quiescent_run (set_output (output_file s) (Some z') s)) by exact Hq.
    cbn [output_file zstd_stream set_output].
    rewrite (quiescent_run (set_output (fwrite out (output_file s)) (Some z') s))
      by exact Hq.
    cbn [output_file zstd_stream set_output].
    by rewrite (quiescent_run (set_output (fwrite out (output_file s)) None s))
      by exact Hq.
  - by rewrite (quiescent_run s Hq).
Qed.

Lemma csv_write_finish_run a late s :
  frame_open a (run (late_steps late 0) s) = None ->
  csv_write_finish a late s
  = close_output (run (late_steps late 0 ++ late_steps late 1
                       ++ late_steps late 2 ++ late_steps late 3) s).
Proof.
  intros H. unfold csv_write_finish. cbv zeta. rewrite H.
  by rewrite (run_app (late_steps late 0)).
Qed.

(** The state in which the entry point leaves its loop is one the
    workers have reached; without the timeout warning the counter is
    zero there. *)
Lemma csv_write_return w a sched g room root :
  fopen_answer w = Some room -> root_lstat w = Some root ->
  exists s2 late,
    reachable (walk_start a room root (root_dir w) g) s2
    /\ snd (csv_write w a sched g) = csv_write_finish a late s2
    /\ (timeout_warning w a sched g = false -> ThreadCNT s2 = 0).
Proof.
  intros Hf Hl. unfold csv_write, timeout_warning. rewrite Hf, Hl.
  change (csv_write_start a root (root_dir w) (csv_write_open a room g))
    with (walk_start a room root (root_dir w) g).
  set (s0 := walk_start a room root (root_dir w) g).
  pose proof (wait_loop_exit (Z.to_nat max_iterations) 0 1 sched s0) as Hx.
  destruct (wait_loop_run (Z.to_nat max_iterations) 0 1 sched s0) as [sched' Hr].
  destruct (wait_loop (Z.to_nat max_iterations) 0 1 sched s0) as [[s2 it] act].
  cbn [fst snd] in Hx, Hr. cbv beta iota. cbn [snd].
  exists s2, (drop (Z.to_nat max_iterations) sched).
  split; [by exists sched'|]. split; [reflexivity|].
  intros Hno. apply Hx; [rewrite Z2Nat.id; unfold max_iterations; lia|].
  by apply Z.leb_gt.
Qed.

Lemma reachable_run s0 s sched : reachable s0 s -> reachable s0 (run sched s).
Proof. intros [l ->]. exists (l ++ sched). by rewrite run_app. Qed.

(** The state at an orderly return: reached by the workers, all of them
    ended. *)
Lemma orderly_return w a sched g room root :
  globals_ok g ->
  fopen_answer w = Some room -> root_lstat w = Some root ->
  timeout_warning w a sched g = false ->
  exists s2,
    reachable (walk_start a room root (root_dir w) g) s2
    /\ snd (csv_write w a sched g) = finish_at_rest a s2
    /\ quiescent s2.
Proof.
  intros Hg Hf Hl Hno.
  destruct (csv_write_return w a sched g room root Hf Hl) as (s2 & late & Hr & Hs & Hz).
  specialize (Hz Hno). exists s2. split; [exact Hr|].
  pose proof (reachable_inv a room root (root_dir w) g s2 Hg Hr) as Hi.
  assert (Hq : quiescent s2).
  { apply live_count_zero. pose proof (inv_count _ _ _ _ _ Hi) as Hco.
    unfold count_ok in Hco. lia. }
  split; [|exact Hq]. by rewrite Hs, csv_write_finish_at_rest.
Qed.

(** *** Compressed output *)

Lemma end_frame_data a room pre z s :
  HAVE_ZSTD = true -> compress a <> 0 ->
  sink_ok room pre (Some z) s ->
  let X := pre ++ snd (compress_all z (chunks (trace s)))
               ++ snd (ZSTD_compressStream2 (fst (compress_all z (chunks (trace s))))
                                            [] ZSTD_e_end) in
  f_data (output_file (end_frame a s)) = accept room X
  /\ f_room (output_file (end_frame a s)) = room_left room (length X)
  /\ zstd_stream (end_frame a s) = None
  /\ trace (end_frame a s) = trace s.
Proof.
  intros Hz Hc [Hd Hr Hs]. unfold compressor in Hs. simpl in Hs, Hd, Hr.
  unfold end_frame, frame_open. rewrite Hz in *.
  rewrite (proj2 (Z.eqb_neq _ _) Hc). simpl. rewrite Hs.
  destruct (ZSTD_compressStream2 _ [] ZSTD_e_end) as [z' out]. simpl.
  destruct (fwrite_accept room _ out _ Hd Hr) as (Hd' & Hr' & _).
  rewrite Hd', Hr', <- app_assoc. auto.
Qed.














(** *** Write errors *)

(** The state with another stream in place of [output_file]. *)
Definition with_file (f : FILE) (s : state) : state :=
  set_output f (zstd_stream s) s.

(** The state without its stream. *)
Definition hide_file (s : state) : state :=
  with_file (mkFILE false [] None false) s.

Lemma flush_buffer_with_file b f s :
  exists f', flush_buffer b (with_file f s) = with_file f' (flush_buffer b s).
Proof.
  unfold flush_buffer.
  change (buffer_at (with_file f s) b) with (buffer_at s b).
  change (zstd_stream (with_file f s)) with (zstd_stream s).
  destruct (used (buffer_at s b) =? 0); [by exists f|].
  destruct (if HAVE_ZSTD then zstd_stream s else None) as [z|].
  - destruct (ZSTD_compressStream2 z _ _) as [z' out]. by eexists.
  - by eexists.
Qed.

Lemma write_record_with_file fid b r f s :
  exists f', write_record fid b r (with_file f s)
             = with_file f' (write_record fid b r s).
Proof.
  unfold write_record, make_room.
  change (buffer_at (with_file f s) b) with (buffer_at s b).
  destruct (_ >=? _); [|by eexists].
  destruct (flush_buffer_with_file b f s) as [f' ->]. by eexists.
Qed.

Lemma fan_out_with_file t fr stk d st fullpath f s :
  fan_out t fr stk d st fullpath (with_file f s)
  = with_file f (fan_out t fr stk d st fullpath s).
Proof.
  unfold fan_out, free_slot, deref, slot_at. simpl.
  destruct (cur fr); simpl;
    repeat match goal with |- context [if ?c then _ else _] => destruct c end;
    reflexivity.
Qed.

Lemma step_frame_with_file t fr stk f s :
  exists f', step_frame t fr stk (with_file f s)
             = with_file f' (step_frame t fr stk s).
Proof.
  unfold step_frame.
  change (deref (with_file f s) (cur fr)) with (deref s (cur fr)).
  destruct (fr_pc fr) as [|[|d rest]| |].
  - destruct (fr_dir fr); by eexists.
  - apply (write_record_with_file _ _ _ f (set_stack t _ s)).
  - rewrite !loop_body_considered.
    change (SNAPSHOT (with_file f s)) with (SNAPSHOT s).
    change (deref (with_file f s) (cur fr)) with (deref s (cur fr)).
    destruct (considered (SNAPSHOT s) d) as [st|]; [|by eexists].
    destruct (S_ISDIR (st_mode st)).
    + exists f. apply fan_out_with_file.
    + apply (write_record_with_file _ _ _ f (set_stack t _ s)).
  - destruct (flag (deref s (cur fr)) =? 0); [|by eexists].
    apply (flush_buffer_with_file _ f (set_stack t _ s)).
  - exists f. by destruct (cur fr).
Qed.

Lemma run_with_file sched : forall f s,
  exists f', run sched (with_file f s) = with_file f' (run sched s).
Proof.
  induction sched as [|t sched IH]; intros f s; simpl; [by exists f|].
  assert (Hone : exists f', sched_step (with_file f s) t = with_file f' (sched_step s t)).
  { unfold sched_step, step.
    change (threads (with_file f s)) with (threads s).
    destruct (threads s !! t) as [[|fr stk]|]; simpl; try (by exists f).
    apply step_frame_with_file. }
  destruct Hone as [f' ->]. apply IH.
Qed.

Lemma wait_loop_with_file fuel : forall it act sched f s,
  exists f',
    wait_loop fuel it act sched (with_file f s)
    = (with_file f' (fst (fst (wait_loop fuel it act sched s))),
       snd (fst (wait_loop fuel it act sched s)),
       snd (wait_loop fuel it act sched s)).
Proof.
  induction fuel as [|k IH]; intros it act sched f s; simpl; [by exists f|].
  destruct (it <? max_iterations); [|by exists f].
  destruct (run_with_file (hd [] sched) f s) as [f1 ->].
  change (ThreadCNT (with_file f1 (run (hd [] sched) s)))
    with (ThreadCNT (run (hd [] sched) s)).
  destruct (ThreadCNT (run (hd [] sched) s) =? 0); [by exists f1|].
  apply IH.
Qed.

Lemma hide_with_file f s : hide_file (with_file f s) = hide_file s.
Proof. reflexivity. Qed.

Lemma csv_write_finish_with_file a late f s :
  exists f', csv_write_finish a late (with_file f s)
             = with_file f' (csv_write_finish a late s).
Proof.
  unfold csv_write_finish.
  destruct (run_with_file (late_steps late 0) f s) as [f0 ->].
  change (frame_open a (with_file f0 (run (late_steps late 0) s)))
    with (frame_open a (run (late_steps late 0) s)).
  set (sa := run (late_steps late 0) s).
  destruct (frame_open a sa) as [z|].
  - destruct (ZSTD_compressStream2 z [] ZSTD_e_end) as [z' out].
    change (set_output (output_file (with_file f0 sa)) (Some z') (with_file f0 sa))
      with (with_file f0 (set_output (output_file sa) (Some z') sa)).
    destruct (run_with_file (late_steps late 1) f0
                (set_output (output_file sa) (Some z') sa)) as [f1 ->].
    set (s1 := run (late_steps late 1) (set_output (output_file sa) (Some z') sa)).
    change (set_output (fwrite out (output_file (with_file f1 s1)))
                       (zstd_stream (with_file f1 s1)) (with_file f1 s1))
      with (with_file (fwrite out f1)
              (set_output (fwrite out (output_file s1)) (zstd_stream s1) s1)).
    destruct (run_with_file (late_steps late 2) (fwrite out f1)
                (set_output (fwrite out (output_file s1)) (zstd_stream s1) s1))
      as [f2 ->].
    set (s2 := run (late_steps late 2)
                   (set_output (fwrite out (output_file s1)) (zstd_stream s1) s1)).
    change (set_output (output_file (with_file f2 s2)) None (with_file f2 s2))
      with (with_file f2 (set_output (output_file s2) None s2)).
    destruct (run_with_file (late_steps late 3) f2
                (set_output (output_file s2) None s2)) as [f3 ->].
    by exists (fclose f3).
  - destruct (run_with_file (late_steps late 1 ++ late_steps late 2
                             ++ late_steps late 3) f0 sa) as [f1 ->].
    by exists (fclose f1).
Qed.

(** C7 (as amended). A failed write does not stop the workers and is
    not surfaced: once [fopen] and the root [lstat] have succeeded the
    entry point returns the dictionary of the output path and the
    compress flag, whatever the device accepted; and whatever it
    accepted, the run is the same in everything but the stream itself
    (threads, slots, cells, compressor context, records and flushes in
    the same order).  A failure leaves its only mark in the error
    indicator of the stream, which the program never reads. *)
Theorem write_errors_ignored w a sched g room root :
  fopen_answer w = Some room -> root_lstat w = Some root ->
  fst (csv_write w a sched g) = Py_Dict (output a) (compress a)
  /\ forall room',
       fst (csv_write (mkOs (Some room') (root_lstat w) (root_dir w)) a sched g)
       = fst (csv_write w a sched g)
       /\ hide_file (snd (csv_write (mkOs (Some room') (root_lstat w) (root_dir w))
                                    a sched g))
          = hide_file (snd (csv_write w a sched g)).
Proof.
  intros Hf Hl.
  assert (Hres : forall w' r,
            fopen_answer w' = Some r -> root_lstat w' = Some root ->
            fst (csv_write w' a sched g) = Py_Dict (output a) (compress a)).
  { intros w' r Hf' Hl'. unfold csv_write. rewrite Hf', Hl'.
    destruct (wait_loop _ _ _ _ _) as [[s2 it] act]. reflexivity. }
  split; [by apply (Hres w room)|].
  intros room'. split.
  - rewrite (Hres w room Hf Hl).
    apply (Hres _ room'); [reflexivity|exact Hl].
  - unfold csv_write. cbn [fopen_answer root_lstat root_dir]. rewrite Hf, Hl.
    set (s0 := csv_write_start a root (root_dir w) (csv_write_open a room g)).
    assert (Hs0 : csv_write_start a root (root_dir w) (csv_write_open a room' g)
                  = with_file (fwrite (bytes_of header) (mkFILE true [] room' false)) s0)
      by reflexivity.
    rewrite Hs0.
    destruct (wait_loop_with_file (Z.to_nat max_iterations) 0 1 sched
                (fwrite (bytes_of header) (mkFILE true [] room' false)) s0)
      as [f1 ->].
    destruct (wait_loop (Z.to_nat max_iterations) 0 1 sched s0) as [[s2 it] act].
    cbv beta iota. cbn [fst snd].
    destruct (csv_write_finish_with_file a (drop (Z.to_nat max_iterations) sched)
                f1 s2) as [f2 ->].
    apply hide_with_file.
Qed.


(** * Further properties *)

(** ** Escaping and the extension *)

(** Number of double quotes in a string. *)
Fixpoint count_quotes (s : string) : nat :=
  match s with
  | EmptyString => 0
  | String a r => (if Ascii.eqb a dquote then 1 else 0) + count_quotes r
  end.

(** [char esc_name[MAXPATH * 2], esc_ext[256]] *)
Definition ESC_NAME_SIZE : Z := MAXPATH * 2.
Definition ESC_EXT_SIZE : Z := 256.

Lemma csv_escape_inj s1 : forall s2, csv_escape s1 = csv_escape s2 -> s1 = s2.
Proof.
  induction s1 as [|a r IH]; intros [|b r2]; simpl.
  - reflexivity.
  - destruct (Ascii.eqb b dquote); discriminate.
  - destruct (Ascii.eqb a dquote); discriminate.
  - destruct (Ascii.eqb_spec a dquote) as [->|Ha];
      destruct (Ascii.eqb_spec b dquote) as [->|Hb]; intros H.
    + injection H as H. f_equal. by apply IH.
    + exfalso. apply Hb. congruence.
    + exfalso. apply Ha. congruence.
    + injection H as -> H. f_equal. by apply IH.
Qed.

Lemma csv_escape_length s :
  String.length (csv_escape s) = (String.length s + count_quotes s)%nat.
Proof.
  induction s as [|a r IH]; simpl; [reflexivity|].
  destruct (Ascii.eqb a dquote); simpl; lia.
Qed.

Lemma csv_escape_quotes s :
  count_quotes (csv_escape s) = (2 * count_quotes s)%nat.
Proof.
  induction s as [|a r IH]; simpl; [reflexivity|].
  destruct (Ascii.eqb a dquote) eqn:E; simpl.
  - rewrite ?Ascii.eqb_refl. lia.
  - rewrite ?E. lia.
Qed.

Lemma csv_escape_append s1 s2 :
  csv_escape (String.append s1 s2) = String.append (csv_escape s1) (csv_escape s2).
Proof.
  induction s1 as [|a r IH]; simpl; [reflexivity|].
  destruct (Ascii.eqb a dquote); simpl; by rewrite IH.
Qed.

Lemma csv_escape_plain s : count_quotes s = 0%nat -> csv_escape s = s.
Proof.
  induction s as [|a r IH]; simpl; [reflexivity|].
  destruct (Ascii.eqb a dquote); simpl; [discriminate|].
  intros H. by rewrite IH.
Qed.

(** X1. [csv_escape] doubles the double quotes and copies everything else:
    the result is as long as the input plus its number of quotes, holds
    twice as many quotes, is the input itself exactly when the input has
    no quote, goes through concatenation, and two different inputs never
    give the same field. *)
Theorem csv_escape_doubles_quotes (s1 s2 : string) :
  (csv_escape s1 = csv_escape s2 <-> s1 = s2)
  /\ String.length (csv_escape s1) = (String.length s1 + count_quotes s1)%nat
  /\ count_quotes (csv_escape s1) = (2 * count_quotes s1)%nat
  /\ (csv_escape s1 = s1 <-> count_quotes s1 = 0%nat)
  /\ csv_escape (String.append s1 s2)
     = String.append (csv_escape s1) (csv_escape s2).
Proof.
  split; [split; [apply csv_escape_inj|by intros ->]|].
  split; [apply csv_escape_length|].
  split; [apply csv_escape_quotes|].
  split; [|apply csv_escape_append].
  split; [|apply csv_escape_plain].
  intros H. pose proof (csv_escape_length s1) as Hl. rewrite H in Hl. lia.
Qed.

(** X2. The two arrays [csv_escape] writes into.  The escaped filename of a
    path shorter than [MAXPATH] fits [esc_name] with its terminator.
    The escaped extension fits [esc_ext] exactly when the extension and
    its quotes together stay below 256 characters, in particular for
    every extension of at most 127 characters; the source does not check
    it. *)
Theorem escaped_fields_fit (path : string) :
  strlen path < MAXPATH ->
  strlen (csv_escape (filename_of path)) + 1 <= ESC_NAME_SIZE
  /\ (strlen (csv_escape (ext_of (filename_of path))) + 1 <= ESC_EXT_SIZE
      <-> strlen (ext_of (filename_of path))
          + Z.of_nat (count_quotes (ext_of (filename_of path))) < ESC_EXT_SIZE)
  /\ (strlen (ext_of (filename_of path)) <= 127 ->
      strlen (csv_escape (ext_of (filename_of path))) + 1 <= ESC_EXT_SIZE).
Proof.
  intros H.
  pose proof (length_csv_escape (filename_of path)).
  pose proof (length_filename_of path).
  pose proof (length_csv_escape (ext_of (filename_of path))).
  pose proof (csv_escape_length (ext_of (filename_of path))).
  unfold strlen, ESC_NAME_SIZE, ESC_EXT_SIZE, MAXPATH in *.
  split; [lia|]. split; [lia|lia].
Qed.

Lemma strrchr_str_plus s c : forall n,
  strrchr s c = None -> strrchr (str_plus s n) c = None.
Proof.
  induction s as [|a r IH]; intros [|n]; simpl; auto.
  destruct (strrchr r c); [discriminate|].
  destruct (Ascii.eqb a c); [discriminate|]. intros _. by apply IH.
Qed.

(** X3. The extension field.  It is what follows the last dot of the
    filename, unless the filename has no dot or its only dot is the first
    character (a hidden file), in which case it is empty; it never holds
    a dot or a separator, and a filename with a dot past its first
    character is its stem, a dot and the extension. *)
Theorem ext_of_spec (path : string) :
  let name := filename_of path in
  strrchr (ext_of name) dot = None
  /\ strrchr (ext_of name) slash = None
  /\ (strrchr name dot = None \/ strrchr name dot = Some 0%nat ->
      ext_of name = EmptyString)
  /\ (forall i, strrchr name dot = Some (S i) ->
      exists stem, String.length stem = S i
        /\ name = String.append stem (String dot (ext_of name))).
Proof.
  intros name.
  assert (Hs : strrchr name slash = None) by apply filename_of_spec.
  unfold ext_of.
  destruct (strrchr name dot) as [[|i]|] eqn:E.
  - repeat split; auto. intros i Hi. discriminate.
  - destruct (strrchr_split name dot (S i) E) as (stem & Hn & Hl & Hd).
    split; [exact Hd|]. split; [by apply strrchr_str_plus|].
    split; [intros [H|H]; discriminate|].
    intros j Hj. injection Hj as <-. by exists stem.
  - repeat split; auto. intros i Hi. discriminate.
Qed.

(** ** Cells and paths *)

(** X6. Two invocations write into the same cell exactly when they run in
    the same worker: a cell has one writer at a time, so the cell itself
    needs no lock.  The cell of a running invocation is one of the
    [MAXTHRDS] cells. *)
Theorem cells_not_shared a room root dir g s t1 t2 stk1 stk2 g1 g2 :
  globals_ok g ->
  reachable (walk_start a room root dir g) s ->
  threads s !! t1 = Some stk1 -> threads s !! t2 = Some stk2 ->
  g1 ∈ stk1 -> g2 ∈ stk2 ->
  (buf (deref s (cur g1)) < Z.to_nat MAXTHRDS)%nat
  /\ (buf (deref s (cur g1)) = buf (deref s (cur g2)) <-> t1 = t2).
Proof.
  intros Hg Hr H1 H2 Hg1 Hg2.
  pose proof (inv_pool _ _ _ _ _ (reachable_inv a room root dir g s Hg Hr)) as Hp.
  destruct (frame_owner s t1 stk1 g1 Hp H1 Hg1) as (i1 & Hi1 & Hb1 & Hc1 & _).
  destruct (frame_owner s t2 stk2 g2 Hp H2 Hg2) as (i2 & Hi2 & Hb2 & Hc2 & _).
  rewrite Hc1, Hc2. split; [apply Hi1|]. split.
  - intros ->. destruct (decide (t1 = t2)) as [E|E]; [exact E|exfalso].
    by apply (pool_distinct s Hp t1 t2 stk1 stk2 i2).
  - intros ->. congruence.
Qed.

(** X7. When the root path is shorter than [MAXPATH], so is the directory
    name of every invocation in progress ([strcpy] into [dname] stays
    inside the array) and the path of every record written. *)
Theorem paths_fit a room root dir g s :
  globals_ok g -> strlen (top a) < MAXPATH ->
  reachable (walk_start a room root dir g) s ->
  (forall fr, fr ∈ frames s -> strlen (dname (deref s (cur fr))) < MAXPATH)
  /\ (forall fid b r, In (EvRecord fid b r) (trace s) -> strlen (r_path r) < MAXPATH).
Proof.
  intros Hg Htop Hr.
  pose proof (inv_paths _ _ _ _ _ (reachable_inv a room root dir g s Hg Hr)) as Hpa.
  split.
  - intros fr Hfr. eapply origin_fits; [exact Htop|]. by apply (paths_frames a s Hpa).
  - intros fid b r Hin. eapply origin_fits; [exact Htop|].
    by apply (paths_records a s Hpa fid b).
Qed.

(** ** The pool in numbers *)

(** X8. The counter, the slot table and the threads agree, in every state
    the workers reach: [ThreadCNT] is the number of running workers and
    the number of slots in use, it never exceeds [MAXTHRDS], and
    [totalTHRDS] is the number of threads created so far.  The limit is
    the constant: the [max_threads] argument is parsed and never read,
    the walk starts from the same state whatever its value. *)
Theorem workers_bounded a room root dir g s :
  globals_ok g ->
  reachable (walk_start a room root dir g) s ->
  ThreadCNT s = Z.of_nat (live_count (threads s))
  /\ ThreadCNT s = Z.of_nat (busy_count (tdslot s))
  /\ 0 <= ThreadCNT s <= MAXTHRDS
  /\ totalTHRDS s = Z.of_nat (length (threads s))
  /\ (forall m,
        walk_start (mkArgs (top a) (output a) m (ignore_snaps a) (compress a))
                   room root dir g
        = walk_start a room root dir g).
Proof.
  intros Hg Hr.
  pose proof (inv_count _ _ _ _ _ (reachable_inv a room root dir g s Hg Hr)) as Hc.
  destruct (reachable_tables a room root dir g s Hg Hr) as [_ _ Hbusy Hlim Htot].
  unfold count_ok in Hc.
  split; [exact Hc|]. split; [by rewrite Hbusy|]. split; [lia|].
  split; [exact Htot|]. intros m. reflexivity.
Qed.

Lemma busy_free (l : list threadData) :
  (busy_count l < length l)%nat -> exists j c, l !! j = Some c /\ busy c = false.
Proof.
  induction l as [|c l IH]; simpl; [lia|].
  change (c :: l) with ([c] ++ l). rewrite busy_count_app.
  change (busy_count [c]) with (length (if busy c then [c] else [])).
  destruct (busy c) eqn:E; simpl.
  - intros H. destruct IH as (j & c' & Hj & Hc'); [lia|]. by exists (S j), c'.
  - intros _. by exists 0%nat, c.
Qed.

Lemma scan_slots_finds tab fuel : forall slot,
  (exists j, (slot <= j < slot + fuel)%nat /\ Z.of_nat j < MAXTHRDS
             /\ THRDid (default td0 (tab !! j)) = -1) ->
  Z.of_nat (scan_slots tab slot fuel) < MAXTHRDS.
Proof.
  induction fuel as [|k IH]; intros slot (j & Hj & Hlt & Hfree); simpl; [lia|].
  destruct (Z.ltb_spec (Z.of_nat slot) MAXTHRDS) as [Hs|Hs]; simpl; [|lia].
  destruct (Z.eqb_spec (THRDid (default td0 (tab !! slot))) (-1)) as [E|E]; simpl;
    [exact Hs|].
  apply IH. exists j. repeat split; auto; try lia.
  destruct (decide (j = slot)) as [->|Hne]; [congruence|lia].
Qed.

Lemma fan_out_claims t fr stk d f fullpath s :
  ThreadCNT s < MAXTHRDS -> Z.of_nat (free_slot s) < MAXTHRDS ->
  ThreadCNT (fan_out t fr stk d f fullpath s) = ThreadCNT s + 1.
Proof.
  intros H1 H2. unfold fan_out.
  change (ThreadCNT (set_next_fid (S (next_fid s)) s)) with (ThreadCNT s).
  change (free_slot (set_next_fid (S (next_fid s)) s)) with (free_slot s).
  rewrite (proj2 (Z.ltb_lt _ _) H1), (proj2 (Z.ltb_lt _ _) H2). simpl.
  by destruct (negb _).
Qed.

(** X9. The fan-out decision.  A subdirectory gets a worker of its own
    exactly when the counter is below [MAXTHRDS]: a free slot then always
    exists, so the branch of the source for a counter below the limit
    with no free slot is never taken.  The new worker starts on the
    claimed slot with [flag = 0], the next thread id and the slot's own
    cell; at the limit the directory is traversed by the same worker, on a
    [local] with [flag + 1], the caller's id and the caller's cell, and
    neither the counter nor the slot table changes. *)
Theorem spawn_iff_below_limit a room root dir g s t fr stk d rest f :
  globals_ok g ->
  reachable (walk_start a room root dir g) s ->
  threads s !! t = Some (fr :: stk) ->
  fr_pc fr = AtLoop (d :: rest) ->
  considered (SNAPSHOT s) d = Some f -> S_ISDIR (st_mode f) = true ->
  let c := deref s (cur fr) in
  let fr' := mkFrame (fr_id fr) (cur fr) (fr_dir fr) (AtLoop rest)
                     (localCnt fr + 1) (localSz fr) in
  let p := fullpath_of (dname c) (d_name d) in
  (ThreadCNT s < MAXTHRDS ->
   exists j s', step t s = Some s'
     /\ (j < Z.to_nat MAXTHRDS)%nat /\ THRDid (slot_at s j) = -1
     /\ ThreadCNT s' = ThreadCNT s + 1
     /\ slot_at s' j = mkTD p (st_ino (pstat c)) (depth c + 1) (totalTHRDS s) 0 f j
     /\ threads s' = <[t := fr' :: stk]> (threads s)
                     ++ [[new_frame (next_fid s) (SlotPtr j) (sub d)]])
  /\ (MAXTHRDS <= ThreadCNT s ->
      exists s', step t s = Some s'
        /\ ThreadCNT s' = ThreadCNT s /\ tdslot s' = tdslot s
        /\ threads s'
           = <[t := new_frame (next_fid s)
                      (LocalPtr (mkTD p (st_ino (pstat c)) (depth c + 1)
                                      (THRDid c) (flag c + 1) f (buf c))) (sub d)
                    :: fr' :: stk]> (threads s)).
Proof.
  intros Hg Hr Hth Hpc Hcons Hisd c fr' p.
  pose proof (inv_pool _ _ _ _ _ (reachable_inv a room root dir g s Hg Hr)) as Hp.
  destruct (reachable_tables a room root dir g s Hg Hr) as [_ _ Hbusy _ _].
  assert (Hstep : step t s = Some (fan_out t fr' stk d f p s)).
  { unfold step. rewrite Hth. unfold step_frame. rewrite Hpc.
    by rewrite loop_body_considered, Hcons, Hisd. }
  destruct (fan_out_cases t fr fr' stk d f p s Hp Hth eq_refl)
    as [(j & Hj & Hfree & Hcnt & Hs)|Hs]; rewrite Hs in Hstep.
  - split; [|lia]. intros _. exists j. eexists. split; [exact Hstep|].
    assert (Hjl : (j < length (tdslot s))%nat) by (by rewrite (pool_slots s Hp)).
    unfold spawned, claimed_td, slot_at. simpl.
    rewrite list_lookup_insert_eq by auto. repeat split; auto.
  - split; [|intros _; eexists; split; [exact Hstep|]; by unfold inlined, inline_td].
    intros Hlt. exfalso.
    assert (Hfs : Z.of_nat (free_slot s) < MAXTHRDS).
    { destruct (busy_free (tdslot s)) as (j & cj & Hj & Hcj).
      - rewrite (pool_slots s Hp). unfold MAXTHRDS in *. lia.
      - apply scan_slots_finds. exists j.
        pose proof (lookup_lt_Some _ _ _ Hj) as Hjl.
        rewrite (pool_slots s Hp) in Hjl. rewrite Hj. simpl.
        unfold busy in Hcj. apply negb_false_iff, Z.eqb_eq in Hcj.
        unfold MAXTHRDS in *. repeat split; auto; lia. }
    pose proof (fan_out_claims t fr' stk d f p s Hlt Hfs) as Hc.
    rewrite Hs in Hc. unfold inlined in Hc. simpl in Hc. lia.
Qed.

(** ** What is left when the entry point returns *)

Lemma finish_at_rest_frame a s :
  buffers (finish_at_rest a s) = buffers s
  /\ tdslot (finish_at_rest a s) = tdslot s
  /\ ThreadCNT (finish_at_rest a s) = ThreadCNT s
  /\ threads (finish_at_rest a s) = threads s
  /\ trace (finish_at_rest a s) = trace s
  /\ f_open (output_file (finish_at_rest a s)) = false.
Proof.
  unfold finish_at_rest, close_output.
  destruct (end_frame_frame a s) as (Hb & Htd & Hc & Hth & Htr & _).
  cbn [buffers tdslot ThreadCNT threads trace output_file set_output fclose f_open].
  repeat split; assumption.
Qed.

(** X10. When the entry point returns without the timeout warning, every
    worker has ended and has left nothing behind: the counter is zero,
    every slot is free, every cell is empty, so all the bytes of all the
    records written have been handed to the stream, cell by cell in the
    order written; and the stream is closed. *)
Theorem nothing_left_behind w a sched g room root :
  globals_ok g ->
  fopen_answer w = Some room -> root_lstat w = Some root ->
  timeout_warning w a sched g = false ->
  let s' := snd (csv_write w a sched g) in
  ThreadCNT s' = 0
  /\ frames s' = []
  /\ (forall i, (i < Z.to_nat MAXTHRDS)%nat -> THRDid (slot_at s' i) = -1)
  /\ (forall b, used (buffer_at s' b) = 0)
  /\ (forall b, flushed b (trace s') = written b (trace s'))
  /\ f_open (output_file s') = false.
Proof.
  intros Hg Hf Hl Hno.
  destruct (orderly_return w a sched g room root Hg Hf Hl Hno) as (s2 & Hr & -> & Hq).
  destruct (finish_at_rest_frame a s2) as (Hb & Htd & Hc & Hth & Htr & Hop).
  pose proof (reachable_inv a room root (root_dir w) g s2 Hg Hr) as Hi.
  pose proof (reachable_tables a room root (root_dir w) g s2 Hg Hr) as Ht.
  assert (Hz : ThreadCNT s2 = 0).
  { pose proof (inv_count _ _ _ _ _ Hi) as Hco. unfold count_ok in Hco.
    rewrite Hco. unfold quiescent, frames in Hq.
    by rewrite (quiescent_live_count _ Hq). }
  assert (Hu : forall b, used (buffer_at s2 b) = 0).
  { intros b. destruct (Z.eq_dec (used (buffer_at s2 b)) 0) as [E|E]; [exact E|].
    exfalso. apply (quiescent_owned s2 b Hq). by apply (tab_cells s2 Ht). }
  cbv zeta. unfold frames, slot_at, buffer_at. rewrite Hb, Htd, Hc, Hth, Htr.
  split; [exact Hz|]. split; [exact Hq|]. split; [|split; [exact Hu|split; [|exact Hop]]].
  - intros i Hi'.
    destruct (Z.eq_dec (THRDid (slot_at s2 i)) (-1)) as [E|E]; [exact E|].
    exfalso. apply (quiescent_owned s2 i Hq). by apply (tab_slots s2 Ht).
  - intros b. pose proof (inv_stream _ _ _ _ _ Hi b) as Hs.
    unfold stream_eq, pending in Hs. rewrite (Hu b) in Hs. simpl in Hs.
    by rewrite app_nil_r in Hs.
Qed.

(** ** The records of a walk *)

(** What [traverse] writes for the entry [d] of a directory named [dir]
    with inode [ino] at depth [dep], when every subdirectory is traversed
    by the recursive call: nothing for an entry that is passed over, the
    entry record for a non-directory, and for a directory that can be
    opened the records of its entries followed by its summary record. *)
Fixpoint walk_entry (snap : Z) (dir : string) (ino dep : Z) (d : dirent)
  : list record :=
  let 'Dirent name l s := d in
  match considered snap (Dirent name l s) with
  | None => []
  | Some f =>
      let p := fullpath_of dir name in
      if S_ISDIR (st_mode f) then
        match s with
        | None => []
        | Some es =>
            concat (map (walk_entry snap p (st_ino f) (dep + 1)) es)
            ++ [mkRecord p f ino (dep + 1)
                         (count_children snap es) (wrap_long (sum_sizes snap es))]
        end
      else [mkRecord p f ino dep (-1) 0]
  end.

(** What [traverse] writes for the directory [path] with [stat] [st],
    parent inode [pin] and depth [dep], [dir] being the answer of
    [opendir]. *)
Definition walk_dir (snap : Z) (path : string) (st : stat) (pin dep : Z)
           (dir : option (list dirent)) : list record :=
  match dir with
  | None => []
  | Some es =>
      concat (map (walk_entry snap path (st_ino st) dep) es)
      ++ [mkRecord path st pin dep (count_children snap es)
                   (wrap_long (sum_sizes snap es))]
  end.

Lemma walk_entry_unfold snap dir ino dep d :
  walk_entry snap dir ino dep d
  = match considered snap d with
    | None => []
    | Some f =>
        if S_ISDIR (st_mode f)
        then walk_dir snap (fullpath_of dir (d_name d)) f ino (dep + 1) (sub d)
        else [mkRecord (fullpath_of dir (d_name d)) f ino dep (-1) 0]
    end.
Proof.
  destruct d as [name l [es|]]; simpl;
    destruct (considered snap _) as [f|]; try reflexivity;
    by destruct (S_ISDIR (st_mode f)).
Qed.

(** [localSz] after the entries [es], starting from [sz]. *)
Fixpoint add_sizes (snap : Z) (sz : Z) (es : list dirent) : Z :=
  match es with
  | [] => sz
  | d :: r =>
      add_sizes snap
        (match considered snap d with
         | Some f => if S_ISDIR (st_mode f) then sz else wrap_long (sz + st_size f)
         | None => sz
         end) r
  end.

(** What an invocation on [c] still has to write when its counters
    stand at [cnt] and [sz] and the entries [es] are left to read. *)
Definition rest_of (snap : Z) (c : threadData) (cnt sz : Z) (es : list dirent)
  : list record :=
  concat (map (walk_entry snap (dname c) (st_ino (pstat c)) (depth c)) es)
  ++ [mkRecord (dname c) (pstat c) (pinode c) (depth c)
               (cnt + count_children snap es) (add_sizes snap sz es)].

Definition todo (s : state) (fr : frame) : list record :=
  let c := deref s (cur fr) in
  match fr_pc fr with
  | AtOpen =>
      match fr_dir fr with
      | None => []
      | Some es => rest_of (SNAPSHOT s) c (localCnt fr) (localSz fr) es
      end
  | AtLoop rest => rest_of (SNAPSHOT s) c (localCnt fr) (localSz fr) rest
  | AtCleanup | AtRelease => []
  end.

Definition todos (s : state) (l : list frame) : list record :=
  concat (map (todo s) l).

Lemma count_children_cons snap d l :
  count_children snap (d :: l)
  = (if is_considered snap d then 1 else 0) + count_children snap l.
Proof.
  unfold count_children. simpl. destruct (is_considered snap d); simpl; lia.
Qed.

Lemma sum_sizes_cons snap d l :
  sum_sizes snap (d :: l)
  = match considered snap d with
    | Some f => if S_ISDIR (st_mode f) then 0 else st_size f
    | None => 0
    end + sum_sizes snap l.
Proof.
  unfold sum_sizes. simpl. unfold is_file at 1.
  destruct (considered snap d) as [f|] eqn:E; [|reflexivity].
  destruct (S_ISDIR (st_mode f)); simpl; rewrite ?E; reflexivity.
Qed.

Lemma add_sizes_sum snap es : forall sz,
  wrap_long sz = sz -> add_sizes snap sz es = wrap_long (sz + sum_sizes snap es).
Proof.
  induction es as [|d es IH]; intros sz Hsz; simpl.
  - unfold sum_sizes. simpl. by rewrite Z.add_0_r.
  - rewrite sum_sizes_cons.
    destruct (considered snap d) as [f|]; [destruct (S_ISDIR (st_mode f))|].
    + by rewrite (IH sz Hsz).
    + rewrite IH by apply wrap_long_idem.
      by rewrite wrap_long_add_l, Z.add_assoc.
    + by rewrite (IH sz Hsz).
Qed.

Lemma rest_of_nil snap c cnt sz :
  rest_of snap c cnt sz []
  = [mkRecord (dname c) (pstat c) (pinode c) (depth c) cnt sz].
Proof.
  unfold rest_of. simpl. f_equal. f_equal.
  unfold count_children. simpl. lia.
Qed.

Lemma rest_of_skip snap c cnt sz d es :
  considered snap d = None ->
  rest_of snap c cnt sz (d :: es) = rest_of snap c cnt sz es.
Proof.
  intros H. unfold rest_of. simpl.
  rewrite walk_entry_unfold, H, count_children_cons.
  unfold is_considered. rewrite H. simpl. reflexivity.
Qed.

Lemma rest_of_file snap c cnt sz d es f :
  considered snap d = Some f -> S_ISDIR (st_mode f) = false ->
  rest_of snap c cnt sz (d :: es)
  = entry_record c d f :: rest_of snap c (cnt + 1) (wrap_long (sz + st_size f)) es.
Proof.
  intros H Hd. unfold rest_of. simpl.
  rewrite walk_entry_unfold, H, Hd, count_children_cons.
  unfold is_considered. rewrite H. simpl. unfold entry_record.
  by rewrite !Z.add_assoc.
Qed.

Lemma rest_of_dir snap c cnt sz d es f :
  considered snap d = Some f -> S_ISDIR (st_mode f) = true ->
  rest_of snap c cnt sz (d :: es)
  = walk_dir snap (fullpath_of (dname c) (d_name d)) f (st_ino (pstat c))
             (depth c + 1) (sub d)
    ++ rest_of snap c (cnt + 1) sz es.
Proof.
  intros H Hd. unfold rest_of. simpl.
  rewrite walk_entry_unfold, H, Hd, count_children_cons.
  unfold is_considered. rewrite H. rewrite <- app_assoc.
  by rewrite !Z.add_assoc.
Qed.

Lemma walk_dir_rest_of snap p pin dep id fl f b dir :
  walk_dir snap p f pin dep dir
  = match dir with
    | None => []
    | Some es => rest_of snap (mkTD p pin dep id fl f b) 0 0 es
    end.
Proof.
  destruct dir as [es|]; [|reflexivity].
  unfold walk_dir, rest_of. cbn [dname pstat pinode depth].
  by rewrite (add_sizes_sum snap es 0 eq_refl).
Qed.

Lemma records_app l1 l2 : records (l1 ++ l2) = records l2 ++ records l1.
Proof.
  induction l1 as [|e l1 IH]; simpl.
  - by rewrite app_nil_r.
  - by rewrite IH, app_assoc.
Qed.

Lemma records_flush_events b s : records (flush_events b s) = [].
Proof. unfold flush_events. by destruct (_ =? _). Qed.

Lemma records_room_events b len s : records (room_events b len s) = [].
Proof.
  unfold room_events. destruct (_ >=? _); [apply records_flush_events|reflexivity].
Qed.

Lemma todo_ext s s' g :
  deref s' (cur g) = deref s (cur g) -> SNAPSHOT s' = SNAPSHOT s ->
  todo s' g = todo s g.
Proof. unfold todo. by intros -> ->. Qed.

Lemma todos_ext s s' l :
  (forall g, g ∈ l -> deref s' (cur g) = deref s (cur g)) ->
  SNAPSHOT s' = SNAPSHOT s -> todos s' l = todos s l.
Proof.
  intros H Hs. unfold todos. f_equal. induction l as [|g l IH]; [reflexivity|].
  simpl. rewrite (todo_ext s s' g); [|apply H; by apply elem_of_cons; left|exact Hs].
  f_equal. apply IH. intros x Hx. apply H. by apply elem_of_cons; right.
Qed.

Lemma todos_perm s l1 l2 : l1 ≡ₚ l2 -> todos s l1 ≡ₚ todos s l2.
Proof.
  unfold todos. induction 1 as [|x l l' H IH|x y l|l l' l'' H1 IH1 H2 IH2]; simpl.
  - reflexivity.
  - by rewrite IH.
  - rewrite !app_assoc. f_equiv. apply Permutation_app_comm.
  - by rewrite IH1.
Qed.

Lemma todos_app s l1 l2 : todos s (l1 ++ l2) = todos s l1 ++ todos s l2.
Proof. unfold todos. by rewrite map_app, concat_app. Qed.

(** One step, seen from the records: what the step writes and what the
    invocations it leaves still have to write is what the stepping
    invocation had to write before. *)
Lemma output_step s s' t fr stk news newr :
  threads s !! t = Some (fr :: stk) ->
  frames s' ≡ₚ news ++ stk ++ others t (threads s) ->
  records (trace s') = records (trace s) ++ newr ->
  (forall g, g ∈ stk ++ others t (threads s) ->
             deref s' (cur g) = deref s (cur g)) ->
  SNAPSHOT s' = SNAPSHOT s ->
  newr ++ todos s' news = todo s fr ->
  records (trace s') ++ todos s' (frames s')
  ≡ₚ records (trace s) ++ todos s (frames s).
Proof.
  intros Hth Hfr Hrec Hder Hsnap Hnew.
  rewrite (todos_perm s' _ _ Hfr), todos_app.
  rewrite (todos_ext s s' _ Hder Hsnap).
  unfold frames. rewrite (todos_perm s _ _ (frames_split _ _ _ Hth)).
  change ((fr :: stk) ++ others t (threads s))
    with ([fr] ++ (stk ++ others t (threads s))).
  rewrite (todos_app s [fr]).
  assert (Hone : todos s [fr] = todo s fr) by (unfold todos; simpl; apply app_nil_r).
  rewrite Hone, Hrec, <- Hnew, <- !app_assoc. reflexivity.
Qed.

Lemma spawned_deref t fr stk d f fullpath j s g :
  pool_ok s -> THRDid (slot_at s j) = -1 -> g ∈ frames s ->
  deref (spawned t fr stk d f fullpath j s) (cur g) = deref s (cur g).
Proof.
  intros Hp Hfree Hg. destruct (cur g) as [k|td] eqn:Ek; [|reflexivity].
  pose proof (slot_in_use s g Hp Hg k Ek) as (_ & _ & _ & Hr).
  assert (j <> k) by (intros ->; lia).
  simpl. unfold slot_at. simpl. by rewrite list_lookup_insert_ne.
Qed.

Lemma step_output t s fr stk :
  pool_ok s -> threads s !! t = Some (fr :: stk) ->
  records (trace (step_frame t fr stk s)) ++ todos (step_frame t fr stk s)
                                               (frames (step_frame t fr stk s))
  ≡ₚ records (trace s) ++ todos s (frames s).
Proof.
  intros Hp Hth.
  destruct (step_transition t s fr stk Hp Hth)
    as (news0 & evs0 & _ & _ & Hsnap & _ & Hder & _).
  assert (Hfr : fr ∈ frames s).
  { unfold frames. rewrite (frames_split _ _ _ Hth). by apply elem_of_cons; left. }
  revert Hsnap Hder. unfold step_frame.
  destruct (fr_pc fr) as [|[|d rest]| |] eqn:Hpc; intros Hsnap Hder.
  - (* opendir *)
    destruct (fr_dir fr) as [es|] eqn:Hdir.
    + eapply (output_step _ _ _ _ _ [with_pc (AtLoop es) fr] []);
      [exact Hth| | |exact Hder|exact Hsnap|].
      * unfold frames; simpl; by rewrite (frames_insert _ _ _ _ Hth).
      * simpl. by rewrite ?app_nil_r.
      * unfold todos, todo. simpl. rewrite Hpc, Hdir. by rewrite app_nil_r.
    + eapply (output_step _ _ _ _ _ [with_pc AtCleanup fr] []);
      [exact Hth| | |exact Hder|exact Hsnap|].
      * unfold frames; simpl; by rewrite (frames_insert _ _ _ _ Hth).
      * simpl. by rewrite ?app_nil_r.
      * unfold todos, todo. simpl. by rewrite Hpc, Hdir.
  - (* the summary record *)
    eapply (output_step _ _ _ _ _ [with_pc AtCleanup fr] [_]);
      [exact Hth| | |exact Hder|exact Hsnap|].
    + unfold frames; walker_simpl; by rewrite (frames_insert _ _ _ _ Hth).
    + walker_simpl. rewrite records_app, records_room_events, ?app_nil_r. reflexivity.
    + unfold todos, todo. simpl. rewrite Hpc. by rewrite rest_of_nil.
  - (* one entry *)
    revert Hsnap Hder. rewrite loop_body_considered.
    destruct (considered (SNAPSHOT s) d) as [f|] eqn:Hcons; intros Hsnap Hder.
    2:{ eapply (output_step _ _ _ _ _ [with_pc (AtLoop rest) fr] []);
      [exact Hth| | |exact Hder|exact Hsnap|].
        - unfold frames; simpl; by rewrite (frames_insert _ _ _ _ Hth).
        - by rewrite ?app_nil_r.
        - unfold todos, todo. simpl. rewrite Hpc, app_nil_r.
          by rewrite rest_of_skip. }
    destruct (S_ISDIR (st_mode f)) eqn:Hdirp.
    + set (fr' := mkFrame (fr_id fr) (cur fr) (fr_dir fr) (AtLoop rest)
                          (localCnt fr + 1) (localSz fr)) in *.
      set (p := fullpath_of (dname (deref s (cur fr))) (d_name d)) in *.
      revert Hsnap Hder.
      destruct (fan_out_cases t fr fr' stk d f p s Hp Hth eq_refl)
        as [(j & Hj & Hfree & _ & ->)| ->]; intros Hsnap Hder.
      * assert (Hjl : (j < length (tdslot s))%nat) by (by rewrite (pool_slots s Hp)).
        eapply (output_step _ _ _ _ _
                  [new_frame (next_fid s) (SlotPtr j) (sub d); fr'] []);
      [exact Hth| | |exact Hder|exact Hsnap|].
        -- unfold frames; simpl; by rewrite (frames_spawn _ _ _ _ _ Hth).
        -- simpl. by rewrite ?app_nil_r.
        -- unfold todos. cbn [map concat app].
           rewrite (todo_ext s _ fr') by
             (try reflexivity; by apply (spawned_deref t fr' stk d f p j s fr)).
           unfold todo at 2. cbn [fr_pc fr' cur localCnt localSz].
           unfold todo at 2. rewrite Hpc.
           rewrite (rest_of_dir _ _ _ _ _ _ f) by auto.
           rewrite app_nil_r. f_equal.
           unfold todo. cbn [deref cur new_frame fr_pc fr_dir localCnt localSz].
           unfold slot_at, spawned, claimed_td. cbn [tdslot log set_threads set_counts set_tdslot].
           rewrite list_lookup_insert_eq by auto. cbn [default].
           by rewrite (walk_dir_rest_of _ _ _ _ (totalTHRDS s) 0 f j).
      * eapply (output_step _ _ _ _ _
                  [new_frame (next_fid s)
                     (LocalPtr (inline_td (deref s (cur fr')) f p)) (sub d); fr'] []);
      [exact Hth| | |exact Hder|exact Hsnap|].
        -- unfold frames; simpl; by rewrite (frames_insert _ _ _ _ Hth).
        -- simpl. by rewrite ?app_nil_r.
        -- unfold todos. cbn [map concat app].
           rewrite (todo_ext s _ fr') by reflexivity.
           unfold todo at 2. cbn [fr_pc fr' cur localCnt localSz].
           unfold todo at 2. rewrite Hpc.
           rewrite (rest_of_dir _ _ _ _ _ _ f) by auto.
           rewrite app_nil_r. f_equal.
           unfold todo. cbn [deref cur new_frame fr_pc fr_dir localCnt localSz].
           unfold inline_td.
           by rewrite (walk_dir_rest_of _ _ _ _ (THRDid (deref s (cur fr)))
                         (flag (deref s (cur fr)) + 1) f (buf (deref s (cur fr)))).
    + eapply (output_step _ _ _ _ _
                [mkFrame (fr_id fr) (cur fr) (fr_dir fr) (AtLoop rest)
                         (localCnt fr + 1) (wrap_long (localSz fr + st_size f))]
                [entry_record (deref s (cur fr)) d f]);
      [exact Hth| | |exact Hder|exact Hsnap|].
      * unfold frames; walker_simpl; by rewrite (frames_insert _ _ _ _ Hth).
      * walker_simpl. rewrite records_app, records_room_events, ?app_nil_r. reflexivity.
      * unfold todos. cbn [map concat]. rewrite app_nil_r.
        rewrite (todo_ext s) by
          (first [exact Hsnap | apply deref_tdslot; by walker_simpl]).
        unfold todo. simpl. rewrite Hpc.
        by rewrite (rest_of_file _ _ _ _ _ _ f).
  - (* cleanup *)
    revert Hsnap Hder.
    destruct (Z.eqb_spec (flag (deref s (cur fr))) 0) as [E|E]; intros Hsnap Hder.
    + eapply (output_step _ _ _ _ _ [with_pc AtRelease fr] []);
      [exact Hth| | |exact Hder|exact Hsnap|].
      * unfold frames; walker_simpl; by rewrite (frames_insert _ _ _ _ Hth).
      * walker_simpl. rewrite records_app, records_flush_events.
        by rewrite !app_nil_r.
      * unfold todos, todo. simpl. by rewrite Hpc.
    + eapply (output_step _ _ _ _ _ [] []);
      [exact Hth| | |exact Hder|exact Hsnap|].
      * unfold frames; simpl; by rewrite (frames_insert _ _ _ _ Hth).
      * by rewrite ?app_nil_r.
      * unfold todos, todo. simpl. by rewrite Hpc.
  - (* release and exit *)
    destruct (pool_threads s Hp _ _ Hth) as [?|(i & Hi & Hst)]; [discriminate|].
    destruct (stack_ok_release _ _ _ _ Hst Hpc) as [-> Hcur].
    eapply (output_step _ _ _ _ _ [] []);
      [exact Hth| | |exact Hder|exact Hsnap|].
    + unfold frames. destruct (cur fr); simpl; by rewrite (frames_insert _ _ _ _ Hth).
    + destruct (cur fr); simpl; by rewrite ?app_nil_r.
    + unfold todos, todo. simpl. by rewrite Hpc.
Qed.

Lemma run_output a room pre z0 sched : forall s,
  inv a room pre z0 s ->
  records (trace (run sched s)) ++ todos (run sched s) (frames (run sched s))
  ≡ₚ records (trace s) ++ todos s (frames s).
Proof.
  induction sched as [|t sched IH]; intros s Hi; [reflexivity|].
  simpl. rewrite IH by (by apply sched_step_inv).
  unfold sched_step, step.
  destruct (threads s !! t) as [[|fr stk]|] eqn:Hth; try reflexivity.
  simpl. apply step_output; [apply Hi|exact Hth].
Qed.

Lemma walk_start_output a room root dir g :
  globals_ok g ->
  records (trace (walk_start a room root dir g))
  ++ todos (walk_start a room root dir g) (frames (walk_start a room root dir g))
  = walk_dir (ignore_snaps a) (top a) root 0 (-1) dir.
Proof.
  intros [Hs Hb].
  assert (Hlen : (0 < length (reset_slot <$> tdslot g))%nat).
  { rewrite length_fmap, Hs. unfold MAXTHRDS. simpl. lia. }
  assert (Hslot0 : slot_at (walk_start a room root dir g) 0
                   = mkTD (top a) 0 (-1) 0 0 root 0).
  { unfold slot_at, walk_start, csv_write_start, csv_write_open. simpl.
    by rewrite list_lookup_insert_eq. }
  assert (Htodo : todo (walk_start a room root dir g) (new_frame 0 (SlotPtr 0) dir)
                  = walk_dir (ignore_snaps a) (top a) root 0 (-1) dir).
  { unfold todo. cbn [fr_pc fr_dir new_frame cur deref localCnt localSz].
    rewrite Hslot0. by rewrite (walk_dir_rest_of _ _ _ _ 0 0 root 0%nat). }
  change (frames (walk_start a room root dir g)) with [new_frame 0 (SlotPtr 0) dir].
  change (trace (walk_start a room root dir g)) with (@nil event).
  unfold todos. cbn [records map concat app]. by rewrite app_nil_r.
Qed.

Lemma In_records fid b r tr : In (EvRecord fid b r) tr -> In r (records tr).
Proof.
  induction tr as [|e tr IH]; simpl; [auto|].
  intros [->|H]; apply in_or_app; [right; by left|left; auto].
Qed.

(** X11. The records of a walk do not depend on the schedule.  In every
    state the workers reach, each record written is one of the records
    the recursive traversal of the tree writes ([walk_dir] from the root,
    with parent inode 0 and depth -1), and no more records have been
    written than those; once all invocations have returned, the records
    written are these records, each as often as there, in some order.  So
    two complete walks of the same tree write the same records whatever
    the interleaving of the workers and wherever directories were handed
    to new workers or traversed inline. *)
Theorem records_are_the_tree a room root dir g s :
  globals_ok g ->
  reachable (walk_start a room root dir g) s ->
  let expected := walk_dir (ignore_snaps a) (top a) root 0 (-1) dir in
  (forall fid b r, In (EvRecord fid b r) (trace s) -> In r expected)
  /\ (length (records (trace s)) <= length expected)%nat
  /\ (quiescent s -> records (trace s) ≡ₚ expected)
  /\ (forall s2, reachable (walk_start a room root dir g) s2 ->
        quiescent s -> quiescent s2 ->
        records (trace s) ≡ₚ records (trace s2)).
Proof.
  intros Hg Hr expected.
  assert (Hall : forall x, reachable (walk_start a room root dir g) x ->
            records (trace x) ++ todos x (frames x) ≡ₚ expected).
  { intros x [sched ->]. subst expected.
    rewrite <- (walk_start_output a room root dir g Hg).
    eapply run_output. by apply walk_start_inv. }
  assert (Hq : forall x, reachable (walk_start a room root dir g) x ->
            quiescent x -> records (trace x) ≡ₚ expected).
  { intros x Hx Hqx. rewrite <- (Hall x Hx). unfold quiescent in Hqx.
    rewrite Hqx. unfold todos. simpl. by rewrite app_nil_r. }
  split; [|split; [|split]].
  - intros fid b r Hin. apply (Permutation_in _ (Hall s Hr)).
    apply in_or_app. left. by eapply In_records.
  - rewrite <- (Permutation_length (Hall s Hr)), length_app. lia.
  - by apply Hq.
  - intros s2 Hr2 Hq1 Hq2. rewrite (Hq s Hr Hq1). symmetry. by apply Hq.
Qed.

(** ** The records and the file *)

Lemma concat_map_concat {A} (l : list (list (list A))) :
  concat (map (@concat A) l) = concat (concat l).
Proof.
  induction l as [|x l IH]; simpl; [reflexivity|].
  by rewrite concat_app, IH.
Qed.

Lemma reachable_output a room root dir g s :
  globals_ok g -> reachable (walk_start a room root dir g) s ->
  records (trace s) ++ todos s (frames s)
  ≡ₚ walk_dir (ignore_snaps a) (top a) root 0 (-1) dir.
Proof.
  intros Hg [sched ->]. rewrite <- (walk_start_output a room root dir g Hg).
  eapply run_output. by apply walk_start_inv.
Qed.

Lemma quiescent_records a room root dir g s :
  globals_ok g -> reachable (walk_start a room root dir g) s -> quiescent s ->
  records (trace s) ≡ₚ walk_dir (ignore_snaps a) (top a) root 0 (-1) dir.
Proof.
  intros Hg Hr Hq. rewrite <- (reachable_output a room root dir g s Hg Hr).
  unfold quiescent in Hq. rewrite Hq. unfold todos. simpl. by rewrite app_nil_r.
Qed.

(** When all cells are empty, the flushed blocks hold the lines of all
    records written. *)
Lemma empty_cells_blocks s :
  stream_ok s -> faithful (trace s) -> (forall b, used (buffer_at s b) = 0) ->
  concat (blocks (trace s)) ≡ₚ map line_of (records (trace s)).
Proof.
  intros Hs Hf Hu. rewrite <- blocks_lines.
  rewrite (unflushed_empty (trace s)); [by rewrite app_nil_r|].
  intros b. pose proof (queue_spec _ Hf b) as Hq.
  pose proof (Hs b) as Hb. unfold stream_eq, pending in Hb.
  rewrite (Hu b) in Hb. simpl in Hb. rewrite <- Hb in Hq.
  by apply app_inv_head in Hq.
Qed.

Lemma finish_at_rest_raw a s :
  compressor s = None ->
  f_data (output_file (finish_at_rest a s)) = f_data (output_file s).
Proof. intros H. unfold finish_at_rest. by rewrite (end_frame_raw a s H). Qed.

(** X12. The file of a walk without compression.  When the entry point
    returns without the timeout warning, the stream holds the header line
    followed by the lines of the records of the tree ([walk_dir] from the
    root), each line whole and each as often as its record, in some
    order; on a device that runs out of room, the part of it that the
    device accepted. *)
Theorem csv_file_is_the_tree w a sched g room root :
  globals_ok g ->
  fopen_answer w = Some room -> root_lstat w = Some root ->
  timeout_warning w a sched g = false ->
  compressor (walk_start a room root (root_dir w) g) = None ->
  exists lines,
    lines ≡ₚ map line_of
               (walk_dir (ignore_snaps a) (top a) root 0 (-1) (root_dir w))
    /\ f_data (output_file (snd (csv_write w a sched g)))
       = accept room (bytes_of header ++ concat lines).
Proof.
  intros Hg Hf Hl Hno Hraw.
  destruct (orderly_return w a sched g room root Hg Hf Hl Hno)
    as (s2 & Hr & -> & Hq).
  pose proof (orderly_cells a room root (root_dir w) g s2 Hg Hr Hq) as Hu.
  pose proof (reachable_inv a room root (root_dir w) g s2 Hg Hr) as Hi.
  pose proof (reachable_faithful a room root (root_dir w) g s2 Hg Hr) as Hfa.
  destruct (inv_sink _ _ _ _ _ Hi) as [Hd _ Hz]. rewrite Hraw in Hd, Hz.
  exists (concat (blocks (trace s2))). split.
  - rewrite (empty_cells_blocks s2 (inv_stream _ _ _ _ _ Hi) Hfa Hu).
    by rewrite (quiescent_records a room root (root_dir w) g s2 Hg Hr Hq).
  - rewrite (finish_at_rest_raw a s2 Hz), Hd. cbn [payload].
    by rewrite (chunks_blocks _ Hfa), concat_map_concat.
Qed.

(** X13. The file of a walk with compression.  When the entry point returns
    without the timeout warning, the compressor has been fed, block by
    block, with the lines of the records of the tree, each line whole and
    each as often as its record, in some order; the stream holds the
    header line, what the compressor returned for these blocks and what
    it returned for the closing call. *)
Theorem compressed_file_is_the_tree w a sched g room root :
  globals_ok g ->
  fopen_answer w = Some room -> root_lstat w = Some root ->
  timeout_warning w a sched g = false ->
  HAVE_ZSTD = true -> compress a <> 0 ->
  let z := ZSTD_createCStream in
  exists bl : list (list bytes),
    concat bl ≡ₚ map line_of
                   (walk_dir (ignore_snaps a) (top a) root 0 (-1) (root_dir w))
    /\ f_data (output_file (snd (csv_write w a sched g)))
       = accept room
           (bytes_of header
            ++ snd (compress_all z (map (@concat ascii) bl))
            ++ snd (ZSTD_compressStream2
                      (fst (compress_all z (map (@concat ascii) bl)))
                      [] ZSTD_e_end)).
Proof.
  intros Hg Hf Hl Hno Hz Hc z.
  destruct (orderly_return w a sched g room root Hg Hf Hl Hno)
    as (s2 & Hr & -> & Hq).
  pose proof (orderly_cells a room root (root_dir w) g s2 Hg Hr Hq) as Hu.
  pose proof (reachable_inv a room root (root_dir w) g s2 Hg Hr) as Hi.
  pose proof (reachable_faithful a room root (root_dir w) g s2 Hg Hr) as Hfa.
  assert (Hz0 : compressor (walk_start a room root (root_dir w) g) = Some z).
  { unfold compressor, walk_start, csv_write_start, csv_write_open. simpl.
    by rewrite Hz, (proj2 (Z.eqb_neq _ _) Hc). }
  pose proof (inv_sink _ _ _ _ _ Hi) as Hk. rewrite Hz0 in Hk.
  exists (blocks (trace s2)). split.
  - rewrite (empty_cells_blocks s2 (inv_stream _ _ _ _ _ Hi) Hfa Hu).
    by rewrite (quiescent_records a room root (root_dir w) g s2 Hg Hr Hq).
  - unfold finish_at_rest.
    destruct (end_frame_data a room _ z s2 Hz Hc Hk) as (Hd & _).
    cbn [close_output output_file set_output fclose f_data].
    rewrite Hd. by rewrite (chunks_blocks _ Hfa).
Qed.

Lemma written_no_records b tr : records tr = [] -> written b tr = [].
Proof.
  induction tr as [|e tr IH]; [reflexivity|]. simpl.
  intros H. apply app_eq_nil in H as [H1 H2]. rewrite (IH H1).
  by destruct e.
Qed.

Lemma chunks_no_flushed tr :
  (forall b, flushed b tr = []) -> concat (chunks tr) = [].
Proof.
  induction tr as [|e tr IH]; [reflexivity|]. intros H.
  assert (Hr : forall b, flushed b tr = []).
  { intros b. specialize (H b). simpl in H. by apply app_eq_nil in H as [H _]. }
  simpl. rewrite concat_app, (IH Hr). simpl.
  destruct e as [fid p o|fid b' rec|b' data|fid p d sp|sl]; try reflexivity.
  specialize (H b'). simpl in H. rewrite Nat.eqb_refl in H.
  apply app_eq_nil in H as [_ ->]. reflexivity.
Qed.

(** X14. A root that passes [lstat] and cannot be opened (not a directory,
    or no permission).  The walk writes no record at all, under any
    schedule; without compression the file is the header line alone, and
    the entry point returns its success dictionary. *)
Theorem unopenable_root w a sched g room root :
  globals_ok g ->
  fopen_answer w = Some room -> root_lstat w = Some root ->
  root_dir w = None ->
  compressor (walk_start a room root (root_dir w) g) = None ->
  fst (csv_write w a sched g) = Py_Dict (output a) (compress a)
  /\ (forall s, reachable (walk_start a room root (root_dir w) g) s ->
        records (trace s) = []
        /\ f_data (output_file s) = accept room (bytes_of header))
  /\ f_data (output_file (snd (csv_write w a sched g)))
     = accept room (bytes_of header).
Proof.
  intros Hg Hf Hl Hdir Hraw.
  assert (Hall : forall s, reachable (walk_start a room root (root_dir w) g) s ->
            records (trace s) = []
            /\ f_data (output_file s) = accept room (bytes_of header)).
  { intros s Hr.
    pose proof (reachable_output a room root (root_dir w) g s Hg Hr) as Ho.
    rewrite Hdir in Ho. simpl in Ho. apply Permutation_nil_r in Ho.
    apply app_eq_nil in Ho as [Hrec _]. split; [exact Hrec|].
    pose proof (reachable_inv a room root (root_dir w) g s Hg Hr) as Hi.
    destruct (inv_sink _ _ _ _ _ Hi) as [Hd _ _]. rewrite Hraw in Hd.
    rewrite Hd. cbn [payload]. rewrite chunks_no_flushed; [by rewrite app_nil_r|].
    intros b. pose proof (inv_stream _ _ _ _ _ Hi b) as Hs.
    unfold stream_eq in Hs. rewrite (written_no_records b _ Hrec) in Hs.
    by apply app_eq_nil in Hs as [Hs _]. }
  split; [|split; [exact Hall|]].
  - unfold csv_write. rewrite Hf, Hl.
    destruct (wait_loop _ _ _ _ _) as [[s2 it] act]. reflexivity.
  - destruct (csv_write_return w a sched g room root Hf Hl)
      as (s2 & late & Hr & -> & _).
    assert (Hnone : forall s, reachable (walk_start a room root (root_dir w) g) s ->
              compressor s = None).
    { intros s Hs.
      pose proof (reachable_inv a room root (root_dir w) g s Hg Hs) as Hi.
      destruct (inv_sink _ _ _ _ _ Hi) as [_ _ Hz]. by rewrite Hraw in Hz. }
    rewrite csv_write_finish_run
      by (apply frame_open_raw, Hnone; by apply reachable_run).
    apply (Hall (run _ s2)). by apply reachable_run.
Qed.

(** ** The compressor context across calls *)

(** X15. The context is a global.  A call with the compress flag whose root
    [lstat] fails returns its OSError with the context it created still
    in place.  A later call without the compress flag then passes every
    block through that context: the stream holds the header and
    compressed blocks only, no closing call is made, the context stays
    in place, and the dictionary says [compressed = 0]. *)
Theorem compressor_outlives_failed_call w1 a1 sched1 g room1 :
  globals_ok g ->
  HAVE_ZSTD = true -> compress a1 <> 0 ->
  fopen_answer w1 = Some room1 -> root_lstat w1 = None ->
  let z := ZSTD_createCStream in
  let g1 := snd (csv_write w1 a1 sched1 g) in
  fst (csv_write w1 a1 sched1 g) = PyErr_OSError (top a1)
  /\ zstd_stream g1 = Some z
  /\ forall w2 a2 sched2 room root,
       compress a2 = 0 ->
       fopen_answer w2 = Some room -> root_lstat w2 = Some root ->
       let s' := snd (csv_write w2 a2 sched2 g1) in
       fst (csv_write w2 a2 sched2 g1) = Py_Dict (output a2) 0
       /\ f_data (output_file s')
          = accept room
              (bytes_of header ++ snd (compress_all z (chunks (trace s'))))
       /\ zstd_stream s' = Some (fst (compress_all z (chunks (trace s')))).
Proof.
  intros [Hgs Hgb] Hz Hc Hf1 Hl1 z g1.
  assert (Hg1 : g1 = set_output (fclose (output_file (csv_write_open a1 room1 g)))
                       (zstd_stream (csv_write_open a1 room1 g))
                       (csv_write_open a1 room1 g)).
  { subst g1. unfold csv_write. by rewrite Hf1, Hl1. }
  assert (Hz1 : zstd_stream g1 = Some z).
  { rewrite Hg1. unfold csv_write_open. simpl.
    by rewrite Hz, (proj2 (Z.eqb_neq _ _) Hc). }
  assert (Hok : globals_ok g1).
  { rewrite Hg1. unfold globals_ok, csv_write_open. simpl.
    by rewrite !length_fmap. }
  split; [unfold csv_write; by rewrite Hf1, Hl1|]. split; [exact Hz1|].
  intros w2 a2 sched2 room root Hc2 Hf2 Hl2 s'.
  split.
  { unfold csv_write. rewrite Hf2, Hl2.
    destruct (wait_loop _ _ _ _ _) as [[s2 it] act]. simpl. by rewrite Hc2. }
  subst s'.
  destruct (csv_write_return w2 a2 sched2 g1 room root Hf2 Hl2)
    as (s1 & late & Hr1 & -> & _).
  rewrite csv_write_finish_run by (by apply frame_open_unset).
  set (s2 := run _ s1).
  assert (Hr : reachable (walk_start a2 room root (root_dir w2) g1) s2)
    by (by apply reachable_run).
  pose proof (reachable_inv a2 room root (root_dir w2) g1 s2 Hok Hr) as Hi.
  assert (Hz0 : compressor (walk_start a2 room root (root_dir w2) g1) = Some z).
  { unfold compressor, walk_start, csv_write_start, csv_write_open. simpl.
    rewrite Hz, Hc2. simpl. exact Hz1. }
  destruct (inv_sink _ _ _ _ _ Hi) as [Hd _ Hs]. rewrite Hz0 in Hd, Hs.
  unfold compressor in Hs. rewrite Hz in Hs. cbn [payload stream_after] in Hd, Hs.
  split; [exact Hd|exact Hs].
Qed.

(** ** The records form a tree *)

(** Record [r] belongs to the directory with path [ppath], inode [pino]
    and depth [pdep]: it names that inode as its parent, its path was
    composed from [ppath] and a name, and its depth is [pdep] for an
    entry record and [pdep + 1] for the summary record of a
    subdirectory. *)
Definition child_of (ppath : string) (pino pdep : Z) (r : record) : Prop :=
  r_parent_inode r = pino
  /\ (exists name, r_path r = fullpath_of ppath name)
  /\ r_depth r = pdep + (if is_summary r then 1 else 0).

Lemma cost_in d es : In d es -> (cost d <= list_sum (map cost es))%nat.
Proof.
  induction es as [|x es IH]; [intros []|]. simpl.
  intros [->|H]; [lia|]. specialize (IH H). lia.
Qed.

Lemma records_In r tr : In r (records tr) -> exists fid b, In (EvRecord fid b r) tr.
Proof.
  induction tr as [|e tr IH]; [intros []|]. simpl.
  intros H. apply in_app_or in H as [H|H].
  - destruct (IH H) as (fid & b & Hin). exists fid, b. by right.
  - destruct e as [fid p o|fid b' rec|b' data|fid p d sp|sl]; try destruct H.
    + subst. exists fid, b'. by left.
    + destruct H.
Qed.

Lemma walk_entry_tree snap n : forall d, (cost d <= n)%nat ->
  forall dir ino dep r, In r (walk_entry snap dir ino dep d) ->
  child_of dir ino dep r
  \/ exists rp, In rp (walk_entry snap dir ino dep d) /\ is_summary rp = true
                /\ child_of (r_path rp) (st_ino (r_st rp)) (r_depth rp) r.
Proof.
  induction n as [|n IH]; intros d Hc dir ino dep r Hin.
  { rewrite cost_unfold in Hc. lia. }
  rewrite walk_entry_unfold in Hin |- *.
  destruct (considered snap d) as [f|]; [|destruct Hin].
  destruct (S_ISDIR (st_mode f)).
  - unfold walk_dir in *. rewrite cost_unfold in Hc. unfold cost_dir in Hc.
    destruct (sub d) as [es|]; [|destruct Hin].
    set (rs := mkRecord (fullpath_of dir (d_name d)) f ino (dep + 1)
                        (count_children snap es) (wrap_long (sum_sizes snap es))) in *.
    assert (Hsum : is_summary rs = true).
    { unfold is_summary. simpl. apply negb_true_iff, Z.eqb_neq.
      pose proof (count_children_nonneg snap es). lia. }
    apply in_app_or in Hin as [Hin|[<-|[]]].
    + apply in_concat in Hin as (l & Hl & Hr).
      apply in_map_iff in Hl as (d' & <- & Hd').
      pose proof (cost_in d' es Hd') as Hcd.
      destruct (IH d' ltac:(lia) _ _ _ r Hr) as [Hch|(rp & Hrp & Hs & Hch)].
      * right. exists rs. split; [apply in_or_app; right; by left|].
        split; [exact Hsum|exact Hch].
      * right. exists rp. split; [|by split].
        apply in_or_app. left. apply in_concat.
        exists (walk_entry snap (fullpath_of dir (d_name d)) (st_ino f) (dep + 1) d').
        split; [by apply in_map|exact Hrp].
    + left. unfold child_of. rewrite Hsum. simpl.
      split; [reflexivity|]. split; [by exists (d_name d)|reflexivity].
  - destruct Hin as [<-|[]]. left. unfold child_of, is_summary. simpl.
    split; [reflexivity|]. split; [by exists (d_name d)|lia].
Qed.

(** X16. The records of a complete walk form a tree.  One record is the
    summary record of the root: the root path, the root's [stat], parent
    inode 0 and depth -1.  Every other record belongs to a directory
    whose summary record has been written too: it names that record's
    inode as its parent, its path was composed from that record's path
    and a name, and its depth is that record's depth for an entry record,
    one more for the summary record of a subdirectory.  So entries of the
    root carry depth -1 and subdirectories of the root depth 0. *)
Theorem records_form_a_tree a room root dir g s :
  globals_ok g ->
  reachable (walk_start a room root dir g) s -> quiescent s ->
  forall fid b r, In (EvRecord fid b r) (trace s) ->
    (r_path r = top a /\ r_st r = root /\ r_parent_inode r = 0
     /\ r_depth r = -1 /\ is_summary r = true)
    \/ exists fid' b' rp,
         In (EvRecord fid' b' rp) (trace s) /\ is_summary rp = true
         /\ r_parent_inode r = st_ino (r_st rp)
         /\ (exists name, r_path r = fullpath_of (r_path rp) name)
         /\ r_depth r = r_depth rp + (if is_summary r then 1 else 0).
Proof.
  intros Hg Hr Hq fid b r Hin.
  pose proof (quiescent_records a room root dir g s Hg Hr Hq) as Hp.
  assert (Hback : forall x,
            In x (walk_dir (ignore_snaps a) (top a) root 0 (-1) dir) ->
            exists fid' b', In (EvRecord fid' b' x) (trace s)).
  { intros x Hx. apply records_In. apply (Permutation_in _ (Permutation_sym Hp) Hx). }
  apply In_records in Hin. apply (Permutation_in _ Hp) in Hin.
  unfold walk_dir in Hin, Hback. destruct dir as [es|]; [|destruct Hin].
  set (rs := mkRecord (top a) root 0 (-1)
                      (count_children (ignore_snaps a) es)
                      (wrap_long (sum_sizes (ignore_snaps a) es))) in *.
  assert (Hsum : is_summary rs = true).
  { unfold is_summary. simpl. apply negb_true_iff, Z.eqb_neq.
    pose proof (count_children_nonneg (ignore_snaps a) es). lia. }
  apply in_app_or in Hin as [Hin|[<-|[]]]; [|left; by repeat split].
  right. apply in_concat in Hin as (l & Hl & Hrl).
  apply in_map_iff in Hl as (d' & <- & Hd').
  destruct (walk_entry_tree (ignore_snaps a) (cost d') d' (Nat.le_refl _) _ _ _ r Hrl)
    as [(H1 & H2 & H3)|(rp & Hrp & Hs & H1 & H2 & H3)].
  - destruct (Hback rs) as (fid' & b' & Hrs); [apply in_or_app; right; by left|].
    exists fid', b', rs. repeat split; auto.
  - destruct (Hback rp) as (fid' & b' & Hrs).
    { apply in_or_app. left. apply in_concat.
      exists (walk_entry (ignore_snaps a) (top a) (st_ino root) (-1) d').
      split; [by apply in_map|exact Hrp]. }
    exists fid', b', rp. repeat split; auto.
Qed.

(** ** The counter as the signal of completion *)



(** X17. The counter is incremented before a thread is created and
    decremented as the last act of a worker, so in every state the
    workers reach it is zero exactly when no invocation is left; and
    once it is zero nothing happens any more, whatever is scheduled: the
    entry point that reads a zero counter cannot be overtaken by a late
    worker. *)
Theorem zero_counter_means_done a room root dir g s :
  globals_ok g ->
  reachable (walk_start a room root dir g) s ->
  (ThreadCNT s = 0 <-> quiescent s)
  /\ (ThreadCNT s = 0 -> forall sched, run sched s = s).
Proof.
  intros Hg Hr.
  pose proof (inv_count _ _ _ _ _ (reachable_inv a room root dir g s Hg Hr)) as Hc.
  unfold count_ok in Hc.
  assert (H1 : ThreadCNT s = 0 -> quiescent s).
  { intros H0. apply live_count_zero. lia. }
  split; [split; [exact H1|]|].
  - intros Hq. rewrite Hc, (quiescent_live_count _ Hq). reflexivity.
  - intros H0. by apply quiescent_run, H1.
Qed.

(** ** Reading a line back *)

Definition comma : ascii := Ascii.ascii_of_nat 44.

(** A reader of one line of comma-separated values in the usual
    convention: a field is plain or enclosed in double quotes; inside
    quotes a doubled quote stands for one quote, and commas and line
    breaks are data; the line ends with a line break.  The reader is not
    part of the source: it is the reference against which the lines of
    [write_record] are read back. *)
Inductive reader : Type := FieldStart | Plain | Quoted | QuoteSeen.

Definition snoc_char (f : string) (c : ascii) : string :=
  String.append f (String c EmptyString).

Definition end_of_line (r : string) (fields : list string) : option (list string) :=
  match r with EmptyString => Some fields | String _ _ => None end.

Fixpoint csv_read (st : reader) (field : string) (done : list string) (s : string)
  : option (list string) :=
  match s with
  | EmptyString => None
  | String c r =>
      match st with
      | FieldStart =>
          if Ascii.eqb c dquote then csv_read Quoted EmptyString done r
          else if Ascii.eqb c comma then
            csv_read FieldStart EmptyString (done ++ [EmptyString]) r
          else if Ascii.eqb c newline then end_of_line r (done ++ [EmptyString])
          else csv_read Plain (String c EmptyString) done r
      | Plain =>
          if Ascii.eqb c dquote then None
          else if Ascii.eqb c comma then
            csv_read FieldStart EmptyString (done ++ [field]) r
          else if Ascii.eqb c newline then end_of_line r (done ++ [field])
          else csv_read Plain (snoc_char field c) done r
      | Quoted =>
          if Ascii.eqb c dquote then csv_read QuoteSeen field done r
          else csv_read Quoted (snoc_char field c) done r
      | QuoteSeen =>
          if Ascii.eqb c dquote then csv_read Quoted (snoc_char field dquote) done r
          else if Ascii.eqb c comma then
            csv_read FieldStart EmptyString (done ++ [field]) r
          else if Ascii.eqb c newline then end_of_line r (done ++ [field])
          else None
      end
  end.

(** A text without comma, double quote and line break. *)
Fixpoint plain_text (s : string) : bool :=
  match s with
  | EmptyString => true
  | String c r =>
      negb (Ascii.eqb c dquote || Ascii.eqb c comma || Ascii.eqb c newline)
      && plain_text r
  end.

(** A field of a line as the format string writes it: as it is (the
    numbers) or escaped and enclosed in quotes. *)
Inductive field : Type :=
| PlainF (x : string)
| QuotedF (x : string).

Definition encode (f : field) : string :=
  match f with
  | PlainF x => x
  | QuotedF x => quoted (csv_escape x)
  end.

Definition value (f : field) : string :=
  match f with PlainF x | QuotedF x => x end.

Definition well_formed (f : field) : Prop :=
  match f with PlainF x => plain_text x = true | QuotedF _ => True end.

(** The fields of the line of a record, by the way they are written. *)
Definition typed_fields (r : record) : list field :=
  let st := r_st r in
  let filename := filename_of (r_path r) in
  [ PlainF (fmt_dec (wrap_ulong (st_ino st)));
    PlainF (fmt_dec (wrap_ulong (r_parent_inode r)));
    PlainF (fmt_dec (wrap_int (r_depth r)));
    QuotedF filename;
    QuotedF (ext_of filename);
    PlainF (fmt_dec (wrap_uint (st_uid st)));
    PlainF (fmt_dec (wrap_uint (st_gid st)));
    PlainF (fmt_dec (wrap_long (st_size st)));
    PlainF (fmt_dec (wrap_ulong (st_dev st)));
    PlainF (fmt_dec (wrap_long (st_blocks st)));
    PlainF (fmt_dec (wrap_ulong (st_nlink st)));
    QuotedF (fmt_oct (wrap_uint (st_mode st)));
    PlainF (fmt_dec (wrap_long (st_atime st)));
    PlainF (fmt_dec (wrap_long (st_mtime st)));
    PlainF (fmt_dec (wrap_long (st_ctime st)));
    PlainF (fmt_dec (wrap_long (r_fcount r)));
    PlainF (fmt_dec (wrap_long (r_dirsum r))) ].

(** The values a reader should find in the line of a record. *)
Definition field_values (r : record) : list string := map value (typed_fields r).

Definition header_names : list string :=
  [ "inode"; "parent-inode"; "directory-depth"; "filename"; "fileExtension";
    "UID"; "GID"; "st_size"; "st_dev"; "st_blocks"; "st_nlink"; "st_mode";
    "st_atime"; "st_mtime"; "st_ctime"; "pw_fcount"; "pw_dirsum" ].

Lemma append_nil_r s : String.append s EmptyString = s.
Proof. induction s as [|c s IH]; simpl; [reflexivity|by rewrite IH]. Qed.

Lemma append_assoc a b c :
  String.append (String.append a b) c = String.append a (String.append b c).
Proof. induction a as [|x a IH]; simpl; [reflexivity|by rewrite IH]. Qed.

Lemma snoc_char_append f c x :
  String.append (snoc_char f c) x = String.append f (String c x).
Proof. unfold snoc_char. by rewrite append_assoc. Qed.

Lemma read_plain_text x : forall f done tail,
  plain_text x = true ->
  csv_read Plain f done (String.append x tail)
  = csv_read Plain (String.append f x) done tail.
Proof.
  induction x as [|c x IH]; intros f done tail H; simpl.
  - by rewrite append_nil_r.
  - simpl in H. apply andb_true_iff in H as [Hc Hx].
    apply negb_true_iff in Hc. apply orb_false_iff in Hc as [Hc Hn].
    apply orb_false_iff in Hc as [Hq Hc]. rewrite Hq, Hc, Hn.
    rewrite IH by exact Hx. by rewrite snoc_char_append.
Qed.

Lemma read_escaped x : forall f done tail,
  csv_read Quoted f done (String.append (csv_escape x) tail)
  = csv_read Quoted (String.append f x) done tail.
Proof.
  induction x as [|c x IH]; intros f done tail; simpl.
  - by rewrite append_nil_r.
  - destruct (Ascii.eqb c dquote) eqn:E; simpl.
    + rewrite IH, snoc_char_append.
      apply Ascii.eqb_eq in E. by subst c.
    + rewrite E, IH. by rewrite snoc_char_append.
Qed.

Lemma append_quoted y tail :
  String.append (quoted y) tail = String dquote (String.append y (String dquote tail)).
Proof. unfold quoted. simpl. by rewrite append_assoc. Qed.

(** A field followed by a comma is read as its value. *)
Lemma read_field fld done rest :
  well_formed fld ->
  csv_read FieldStart EmptyString done (String.append (encode fld) (String comma rest))
  = csv_read FieldStart EmptyString (done ++ [value fld]) rest.
Proof.
  destruct fld as [x|x]; intros H; cbn [encode value].
  - destruct x as [|c x]; simpl; [reflexivity|].
    simpl in H. apply andb_true_iff in H as [Hc Hx].
    apply negb_true_iff in Hc. apply orb_false_iff in Hc as [Hc Hn].
    apply orb_false_iff in Hc as [Hq Hc]. rewrite Hq, Hc, Hn.
    rewrite read_plain_text by exact Hx. reflexivity.
  - rewrite append_quoted. simpl. rewrite read_escaped. reflexivity.
Qed.

(** A field followed by the line break that ends the text. *)
Lemma read_last_field fld done :
  well_formed fld ->
  csv_read FieldStart EmptyString done
           (String.append (encode fld) (String newline EmptyString))
  = Some (done ++ [value fld]).
Proof.
  destruct fld as [x|x]; intros H; cbn [encode value].
  - destruct x as [|c x]; simpl; [reflexivity|].
    simpl in H. apply andb_true_iff in H as [Hc Hx].
    apply negb_true_iff in Hc. apply orb_false_iff in Hc as [Hc Hn].
    apply orb_false_iff in Hc as [Hq Hc]. rewrite Hq, Hc, Hn.
    rewrite read_plain_text by exact Hx. reflexivity.
  - rewrite append_quoted. simpl. rewrite read_escaped. reflexivity.
Qed.

Lemma read_fields fs : forall done,
  fs <> [] -> Forall well_formed fs ->
  csv_read FieldStart EmptyString done
           (String.append (join_comma (map encode fs)) (String newline EmptyString))
  = Some (done ++ map value fs).
Proof.
  induction fs as [|f fs IH]; intros done Hne Hwf; [congruence|].
  inversion Hwf as [|x l Hf Hfs]; subst.
  destruct fs as [|f2 fs].
  - simpl. by apply read_last_field.
  - change (join_comma (map encode (f :: f2 :: fs)))
      with (String.append (encode f)
              (String.append "," (join_comma (map encode (f2 :: fs))))).
    rewrite append_assoc.
    change (String.append (String.append "," (join_comma (map encode (f2 :: fs))))
                          (String newline EmptyString))
      with (String comma (String.append (join_comma (map encode (f2 :: fs)))
                                        (String newline EmptyString))).
    rewrite read_field by exact Hf.
    rewrite IH by (auto; discriminate).
    by rewrite <- app_assoc.
Qed.

Lemma plain_uint d : plain_text (NilEmpty.string_of_uint d) = true.
Proof. induction d; simpl; rewrite ?IHd; reflexivity. Qed.

Lemma plain_fmt_dec z : plain_text (fmt_dec z) = true.
Proof.
  unfold fmt_dec, NilZero.string_of_int, NilZero.string_of_uint.
  destruct (Z.to_int z) as [d|d]; destruct d; try reflexivity;
    try apply plain_uint; simpl; rewrite plain_uint; reflexivity.
Qed.

Lemma plain_octal_digit z : plain_text (String (octal_digit (z mod 8)) EmptyString) = true.
Proof.
  pose proof (Z.mod_pos_bound z 8 ltac:(lia)) as H.
  assert (Hc : z mod 8 = 0 \/ z mod 8 = 1 \/ z mod 8 = 2 \/ z mod 8 = 3
               \/ z mod 8 = 4 \/ z mod 8 = 5 \/ z mod 8 = 6 \/ z mod 8 = 7) by lia.
  destruct Hc as [->|[->|[->|[->|[->|[->|[->| ->]]]]]]]; reflexivity.
Qed.

Lemma plain_fmt_oct_aux fuel : forall z acc,
  plain_text acc = true -> plain_text (fmt_oct_aux fuel z acc) = true.
Proof.
  induction fuel as [|k IH]; intros z acc H; cbn [fmt_oct_aux]; [exact H|].
  assert (Hacc : plain_text (String (octal_digit (z mod 8)) acc) = true).
  { pose proof (plain_octal_digit z) as Hd. cbn [plain_text] in Hd |- *.
    rewrite andb_true_r in Hd. by rewrite Hd, H. }
  destruct (z / 8 =? 0); [exact Hacc|by apply IH].
Qed.

Lemma plain_no_quotes x : plain_text x = true -> count_quotes x = 0%nat.
Proof.
  induction x as [|c x IH]; simpl; [reflexivity|].
  intros H. apply andb_true_iff in H as [Hc Hx].
  apply negb_true_iff in Hc. apply orb_false_iff in Hc as [Hc _].
  apply orb_false_iff in Hc as [Hq _]. rewrite Hq. by apply IH.
Qed.

Lemma record_fields_typed r : record_fields r = map encode (typed_fields r).
Proof.
  unfold record_fields, typed_fields. cbn [map encode].
  rewrite (csv_escape_plain (fmt_oct (wrap_uint (st_mode (r_st r))))); [reflexivity|].
  apply plain_no_quotes. by apply plain_fmt_oct_aux.
Qed.

Lemma typed_fields_well_formed r : Forall well_formed (typed_fields r).
Proof.
  unfold typed_fields.
  repeat (apply List.Forall_cons; [first [exact (plain_fmt_dec _) | exact I]|]).
  apply List.Forall_nil.
Qed.

(** X18. The line of a record read back.  For a record whose escaped
    extension fits [esc_ext] and whose line fits [line] (the escaped
    filename then fits [esc_name]), the bytes copied into the cell are
    the text the format string expands to, and the usual reader of
    comma-separated values finds in it the seventeen fields of the
    header, whatever characters the name contains (commas, double quotes
    and line breaks included): the numbers as printed, and as fourth and
    fifth field the filename and the extension themselves, unescaped.
    The header line reads back as the seventeen column names. *)
Theorem record_line_reads_back (r : record) :
  let filename := filename_of (r_path r) in
  strlen (csv_escape (ext_of filename)) < ESC_EXT_SIZE ->
  strlen (record_text r) < LINE_SIZE ->
  strlen (csv_escape filename) < ESC_NAME_SIZE
  /\ line_of r = bytes_of (record_text r)
  /\ csv_read FieldStart EmptyString [] (record_text r) = Some (field_values r)
  /\ length (field_values r) = 17%nat
  /\ field_values r !! 3%nat = Some filename
  /\ field_values r !! 4%nat = Some (ext_of filename)
  /\ csv_read FieldStart EmptyString [] header = Some header_names
  /\ length header_names = 17%nat.
Proof.
  intros filename Hext Hline.
  split; [|split; [|split; [|split; [reflexivity|split; [reflexivity|split;
           [reflexivity|split; [vm_compute; reflexivity|reflexivity]]]]]]].
  - (* the escaped filename is a part of the line *)
    revert Hline. unfold record_text, record_fields, strlen.
    cbn [join_comma]. fold filename.
    rewrite !length_append, length_quoted.
    unfold ESC_NAME_SIZE, LINE_SIZE. lia.
  - unfold line_of, line_bytes.
    by rewrite (proj2 (Z.ltb_lt _ _) Hline).
  - unfold record_text, field_values. rewrite record_fields_typed.
    apply (read_fields (typed_fields r) []); [discriminate|].
    apply typed_fields_well_formed.
Qed.

(** ** The compress flag without the compressor *)

(** The arguments with the compress flag cleared. *)
Definition without_compress (a : args) : args :=
  mkArgs (top a) (output a) (max_threads a) (ignore_snaps a) 0.

(** X19. In an extension built without the compressor ([HAVE_ZSTD] not
    defined) the compress flag changes nothing in the walk and nothing in
    the file: the final state is the one of the same call without the
    flag, under every schedule.  The dictionary returned repeats the
    flag all the same. *)
Theorem compress_flag_without_zstd w a sched g room root :
  fopen_answer w = Some room -> root_lstat w = Some root ->
  HAVE_ZSTD = false ->
  snd (csv_write w a sched g) = snd (csv_write w (without_compress a) sched g)
  /\ fst (csv_write w a sched g) = Py_Dict (output a) (compress a)
  /\ fst (csv_write w (without_compress a) sched g) = Py_Dict (output a) 0.
Proof.
  intros Hf Hl Hno.
  assert (Hopen : csv_write_open a room g = csv_write_open (without_compress a) room g).
  { unfold csv_write_open, without_compress. cbn [compress ignore_snaps].
    by rewrite Hno. }
  unfold csv_write. rewrite Hf, Hl.
  change (top (without_compress a)) with (top a).
  assert (Hstart : csv_write_start (without_compress a) root (root_dir w)
                     (csv_write_open (without_compress a) room g)
                   = csv_write_start a root (root_dir w) (csv_write_open a room g)).
  { by rewrite <- Hopen. }
  rewrite Hstart.
  destruct (wait_loop (Z.to_nat max_iterations) 0 1 sched _) as [[s2 it] act].
  cbv beta iota. cbn [fst snd].
  split; [|split; reflexivity].
  unfold csv_write_finish, frame_open, without_compress. cbn [compress].
  by rewrite Hno.
Qed.

End Walker.

(** * Concrete runs *)

(** A stand-in compressor: it counts its calls, passes a block through
    and closes the frame with one byte. *)
Definition toy_compress (z : nat) (b : bytes) (d : directive) : nat * bytes :=
  (S z, match d with ZSTD_e_continue => b | ZSTD_e_end => ["E"%char] end).

Definition st_root : stat := mkStat 200 5 2 16877 1000 1000 4096 8 1 2 3.
Definition st_a : stat := mkStat 201 5 1 33188 1000 1000 10 8 1 2 3.
Definition st_b : stat := mkStat 202 5 1 33188 1000 1000 3 8 1 2 3.
Definition st_sub : stat := mkStat 203 5 2 16877 1000 1000 4096 8 1 2 3.
Definition st_c : stat := mkStat 204 5 1 33188 1000 1000 5 8 1 2 3.
Definition st_locked : stat := mkStat 205 5 2 16832 1000 1000 4096 8 1 2 3.
Definition st_snap : stat := mkStat 206 5 2 16877 1000 1000 4096 8 1 2 3.

(** /t2: two files, a snapshot directory, an entry whose lstat fails, a
    subdirectory with one file and a directory that cannot be opened. *)
Definition tree : list dirent :=
  [ Dirent "." (Some st_root) None; Dirent ".." (Some st_root) None;
    Dirent "a.txt" (Some st_a) None; Dirent "b" (Some st_b) None;
    Dirent ".snapshot" (Some st_snap) (Some []);
    Dirent "gone" None None;
    Dirent "sub" (Some st_sub)
      (Some [Dirent "." (Some st_sub) None; Dirent ".." (Some st_root) None;
             Dirent "c" (Some st_c) None]);
    Dirent "locked" (Some st_locked) None ].

Definition sargs : args := mkArgs "/t2" "out.csv" 8 1 0.
Definition zargs : args := mkArgs "/t2" "out.csv" 8 1 1.

Definition s_start : state nat :=
  walk_start nat true 0%nat sargs None st_root (Some tree) (static_init nat).

(** The root worker runs to its end, then the two workers it created. *)
Definition sched : list nat := repeat 0%nat 12 ++ repeat 1%nat 8 ++ repeat 2%nat 3.

Definition s_end : state nat := run nat true toy_compress sched s_start.
Definition s_loop : state nat := run nat true toy_compress [0%nat] s_start.

Definition rec_a : record := mkRecord "/t2/a.txt" st_a 200 (-1) (-1) 0.
Definition rec_root : record := mkRecord "/t2" st_root 0 (-1) 4 13.

Definition os_ok : os := mkOs (Some None) (Some st_root) (Some tree).
Definition os_full : os := mkOs (Some (Some 0%nat)) (Some st_root) (Some tree).
Definition os_noroot : os := mkOs (Some None) None None.

Ltac find_in := vm_compute; repeat (first [left; reflexivity | right]).

Lemma static_init_ok : globals_ok nat (static_init nat).
Proof. split; reflexivity. Defined.

Lemma s_end_reachable : reachable nat true toy_compress s_start s_end.
Proof. exists sched. reflexivity. Defined.


Lemma summary_after_entries_witness :
  globals_ok nat (static_init nat)
  /\ reachable nat true toy_compress s_start s_end
  /\ trace nat s_end
     = take 9 (trace nat s_end) ++ EvRecord 0 0 rec_root :: drop 10 (trace nat s_end)
  /\ exists b' pin dep,
       In (EvRecord 0 b' (mkRecord "/t2/a.txt" st_a pin dep (-1) 0))
          (drop 10 (trace nat s_end)).
Proof.
  assert (Ht : trace nat s_end
               = take 9 (trace nat s_end) ++ EvRecord 0 0 rec_root
                 :: drop 10 (trace nat s_end)) by (vm_compute; reflexivity).
  assert (Hin : In (EvOpendir 0 "/t2" (Some tree)) (trace nat s_end)) by find_in.
  assert (Hd : In (Dirent "a.txt" (Some st_a) None) tree) by find_in.
  split; [exact static_init_ok|]. split; [exact s_end_reachable|].
  split; [exact Ht|].
  exact (proj1 (summary_after_entries nat true 0%nat toy_compress
                  sargs None st_root (Some tree) (static_init nat) s_end
                  static_init_ok s_end_reachable)
               _ _ 0%nat 0%nat rec_root Ht eq_refl
               "/t2" tree (Dirent "a.txt" (Some st_a) None) st_a
               Hin Hd eq_refl eq_refl).
Defined.






Definition fr_loop : frame := mkFrame 0 (SlotPtr 0) (Some tree) (AtLoop tree) 0 0.

Lemma skipped_entries_witness :
  threads nat s_loop !! 0%nat = Some [fr_loop]
  /\ fr_pc fr_loop = AtLoop tree
  /\ step nat true toy_compress 0 s_loop
     = Some (set_stack nat 0 [with_pc (AtLoop (tl tree)) fr_loop] s_loop).
Proof.
  assert (Hth : threads nat s_loop !! 0%nat = Some [fr_loop])
    by (vm_compute; reflexivity).
  split; [exact Hth|]. split; [reflexivity|].
  exact (proj2 (proj1
           (skipped_entries nat true toy_compress s_loop 0%nat fr_loop []
              (Dirent "." (Some st_root) None) (tl tree) Hth eq_refl))
           (or_introl eq_refl)).
Defined.

Lemma filename_field_witness :
  globals_ok nat (static_init nat)
  /\ reachable nat true toy_compress s_start s_end
  /\ In (EvRecord 0 0 rec_a) (trace nat s_end)
  /\ record_fields rec_a !! 3%nat = Some (quoted "a.txt").
Proof.
  assert (Hin : In (EvRecord 0 0 rec_a) (trace nat s_end)) by find_in.
  split; [exact static_init_ok|]. split; [exact s_end_reachable|].
  split; [exact Hin|].
  exact (proj1 (filename_field nat true 0%nat toy_compress
                  sargs None st_root (Some tree) (static_init nat) s_end
                  0%nat 0%nat rec_a static_init_ok s_end_reachable Hin)).
Defined.

Lemma write_errors_ignored_witness :
  fopen_answer os_full = Some (Some 0%nat)
  /\ root_lstat os_full = Some st_root
  /\ fst (csv_write nat true 0%nat toy_compress os_full sargs [sched]
                    (static_init nat))
     = Py_Dict "out.csv" 0.
Proof.
  split; [reflexivity|]. split; [reflexivity|].
  exact (proj1 (write_errors_ignored nat true 0%nat toy_compress
                  os_full sargs [sched] (static_init nat) (Some 0%nat) st_root
                  eq_refl eq_refl)).
Defined.


Lemma flush_buffer_idempotent_witness :
  used (buffer_at nat (static_init nat) 0) = 0
  /\ flush_buffer nat true toy_compress 0 (static_init nat) = static_init nat.
Proof.
  split; [reflexivity|].
  exact (proj1 (flush_buffer_idempotent nat true toy_compress 0%nat (static_init nat))
               eq_refl).
Defined.

Lemma root_lstat_failure_witness :
  fopen_answer os_noroot = Some None
  /\ root_lstat os_noroot = None
  /\ fst (csv_write nat true 0%nat toy_compress os_noroot sargs [sched]
                    (static_init nat))
     = PyErr_OSError "/t2"
  /\ f_data (output_file nat
       (snd (csv_write nat true 0%nat toy_compress os_noroot sargs [sched]
                       (static_init nat))))
     = bytes_of header.
Proof.
  split; [reflexivity|]. split; [reflexivity|].
  pose proof (root_lstat_failure nat true 0%nat toy_compress
                os_noroot sargs [sched] (static_init nat) None eq_refl eq_refl) as H.
  split; [exact (proj1 H)|].
  exact (proj1 (proj2 (proj2 H))).
Defined.

(** C6, the claim as written: the summary record of the root /t2 would
    carry the root path itself in its filename field.  It carries the
    last component. *)
Lemma root_filename_is_last_component :
  In (EvRecord 0 0 rec_root) (trace nat s_end)
  /\ is_summary rec_root = true
  /\ r_path rec_root = top sargs
  /\ record_fields rec_root !! 3%nat = Some (quoted "t2")
  /\ record_fields rec_root !! 3%nat <> Some (quoted (csv_escape (top sargs))).
Proof.
  split; [find_in|]. repeat split; try reflexivity.
  vm_compute. discriminate.
Qed.

(** C7, the claim as written: the first write error would be returned by
    the entry point.  On a device that accepts no byte every write fails,
    the stream's error indicator is set, and the entry point returns its
    usual dictionary. *)
Lemma write_error_not_returned :
  f_error (output_file nat
     (snd (csv_write nat true 0%nat toy_compress os_full sargs [sched]
                     (static_init nat)))) = true
  /\ fst (csv_write nat true 0%nat toy_compress os_full sargs [sched]
                    (static_init nat))
     = Py_Dict "out.csv" 0.
Proof.
  split; vm_compute; reflexivity.
Qed.







(** * Concrete runs for the further properties *)

Definition os_locked : os := mkOs (Some None) (Some st_locked) None.

(** The root worker has read its entries up to "sub". *)
Definition s_sub : state nat := run nat true toy_compress (repeat 0%nat 7) s_start.
(** It has handed "sub" to a second worker. *)
Definition s_two : state nat := run nat true toy_compress (repeat 0%nat 8) s_start.

Definition d_sub : dirent :=
  Dirent "sub" (Some st_sub)
    (Some [Dirent "." (Some st_sub) None; Dirent ".." (Some st_root) None;
           Dirent "c" (Some st_c) None]).
Definition d_locked : dirent := Dirent "locked" (Some st_locked) None.

Definition fr_sub : frame :=
  mkFrame 0 (SlotPtr 0) (Some tree) (AtLoop [d_sub; d_locked]) 2 13.
Definition fr_two_0 : frame :=
  mkFrame 0 (SlotPtr 0) (Some tree) (AtLoop [d_locked]) 3 13.
Definition fr_two_1 : frame := new_frame 1 (SlotPtr 1) (sub d_sub).

Lemma s_sub_reachable : reachable nat true toy_compress s_start s_sub.
Proof. exists (repeat 0%nat 7). reflexivity. Defined.

Lemma s_two_reachable : reachable nat true toy_compress s_start s_two.
Proof. exists (repeat 0%nat 8). reflexivity. Defined.

Lemma csv_escape_doubles_quotes_witness :
  csv_escape "a.txt" = "a.txt" /\ count_quotes "a.txt" = 0%nat.
Proof.
  split; [|reflexivity].
  exact (proj2 (proj1 (proj2 (proj2 (proj2
           (csv_escape_doubles_quotes "a.txt" "b"))))) eq_refl).
Defined.

Lemma escaped_fields_fit_witness :
  strlen "/t2/a.txt" < MAXPATH
  /\ strlen (csv_escape (filename_of "/t2/a.txt")) + 1 <= ESC_NAME_SIZE.
Proof.
  assert (H : strlen "/t2/a.txt" < MAXPATH) by (vm_compute; reflexivity).
  split; [exact H|]. exact (proj1 (escaped_fields_fit "/t2/a.txt" H)).
Defined.

Lemma ext_of_spec_witness :
  strrchr (filename_of "/t2/.bashrc") dot = Some 0%nat
  /\ ext_of (filename_of "/t2/.bashrc") = EmptyString.
Proof.
  split; [reflexivity|].
  exact (proj1 (proj2 (proj2 (ext_of_spec "/t2/.bashrc"))) (or_intror eq_refl)).
Defined.

Lemma cells_not_shared_witness :
  threads nat s_two !! 0%nat = Some [fr_two_0]
  /\ threads nat s_two !! 1%nat = Some [fr_two_1]
  /\ buf (deref nat s_two (cur fr_two_0)) <> buf (deref nat s_two (cur fr_two_1)).
Proof.
  assert (H0 : threads nat s_two !! 0%nat = Some [fr_two_0])
    by (vm_compute; reflexivity).
  assert (H1 : threads nat s_two !! 1%nat = Some [fr_two_1])
    by (vm_compute; reflexivity).
  assert (G0 : fr_two_0 ∈ [fr_two_0]) by (apply elem_of_cons; by left).
  assert (G1 : fr_two_1 ∈ [fr_two_1]) by (apply elem_of_cons; by left).
  split; [exact H0|]. split; [exact H1|].
  intros E.
  pose proof (proj1 (proj2
    (cells_not_shared nat true 0%nat toy_compress
       sargs None st_root (Some tree) (static_init nat) s_two
       0%nat 1%nat [fr_two_0] [fr_two_1] fr_two_0 fr_two_1
       static_init_ok s_two_reachable H0 H1 G0 G1)) E) as H.
  discriminate H.
Defined.

Lemma paths_fit_witness :
  strlen (top sargs) < MAXPATH
  /\ In (EvRecord 0 0 rec_a) (trace nat s_end)
  /\ strlen (r_path rec_a) < MAXPATH.
Proof.
  assert (Ht : strlen (top sargs) < MAXPATH) by (vm_compute; reflexivity).
  assert (Hin : In (EvRecord 0 0 rec_a) (trace nat s_end)) by find_in.
  split; [exact Ht|]. split; [exact Hin|].
  exact (proj2 (paths_fit nat true 0%nat toy_compress
                  sargs None st_root (Some tree) (static_init nat) s_end
                  static_init_ok Ht s_end_reachable) 0%nat 0%nat rec_a Hin).
Defined.

Lemma workers_bounded_witness :
  ThreadCNT nat s_two = Z.of_nat (live_count (threads nat s_two))
  /\ ThreadCNT nat s_two = 2.
Proof.
  split; [|reflexivity].
  exact (proj1 (workers_bounded nat true 0%nat toy_compress
                  sargs None st_root (Some tree) (static_init nat) s_two
                  static_init_ok s_two_reachable)).
Defined.

Lemma spawn_iff_below_limit_witness :
  threads nat s_sub !! 0%nat = Some [fr_sub]
  /\ ThreadCNT nat s_sub < MAXTHRDS
  /\ exists j s', step nat true toy_compress 0 s_sub = Some s'
       /\ (j < Z.to_nat MAXTHRDS)%nat
       /\ ThreadCNT nat s' = ThreadCNT nat s_sub + 1.
Proof.
  assert (Hth : threads nat s_sub !! 0%nat = Some [fr_sub])
    by (vm_compute; reflexivity).
  assert (Hc : ThreadCNT nat s_sub < MAXTHRDS) by (vm_compute; reflexivity).
  split; [exact Hth|]. split; [exact Hc|].
  destruct (proj1
    (spawn_iff_below_limit nat true 0%nat toy_compress
       sargs None st_root (Some tree) (static_init nat) s_sub
       0%nat fr_sub [] d_sub [d_locked] st_sub
       static_init_ok s_sub_reachable Hth eq_refl eq_refl eq_refl) Hc)
    as (j & s' & H1 & H2 & _ & H3 & _).
  exists j, s'. auto.
Defined.

Lemma nothing_left_behind_witness :
  timeout_warning nat true 0%nat toy_compress os_ok sargs [sched]
    (static_init nat) = false
  /\ forall b,
       flushed b (trace nat (snd (csv_write nat true 0%nat toy_compress
                                    os_ok sargs [sched] (static_init nat))))
       = written b (trace nat (snd (csv_write nat true 0%nat toy_compress
                                      os_ok sargs [sched] (static_init nat)))).
Proof.
  assert (Hw : timeout_warning nat true 0%nat toy_compress os_ok sargs [sched]
                 (static_init nat) = false) by (vm_compute; reflexivity).
  split; [exact Hw|].
  exact (proj1 (proj2 (proj2 (proj2 (proj2
           (nothing_left_behind nat true 0%nat toy_compress
              os_ok sargs [sched] (static_init nat) None st_root
              static_init_ok eq_refl eq_refl Hw)))))).
Defined.

Lemma records_are_the_tree_witness :
  quiescent nat s_end
  /\ records (trace nat s_end) ≡ₚ walk_dir 1 "/t2" st_root 0 (-1) (Some tree).
Proof.
  assert (Hq : quiescent nat s_end) by (vm_compute; reflexivity).
  split; [exact Hq|].
  exact (proj1 (proj2 (proj2
           (records_are_the_tree nat true 0%nat toy_compress
              sargs None st_root (Some tree) (static_init nat) s_end
              static_init_ok s_end_reachable))) Hq).
Defined.

Lemma csv_file_is_the_tree_witness :
  timeout_warning nat true 0%nat toy_compress os_ok sargs [sched]
    (static_init nat) = false
  /\ exists lines,
       lines ≡ₚ map line_of (walk_dir 1 "/t2" st_root 0 (-1) (Some tree))
       /\ f_data (output_file nat
            (snd (csv_write nat true 0%nat toy_compress os_ok sargs [sched]
                            (static_init nat))))
          = bytes_of header ++ concat lines.
Proof.
  assert (Hw : timeout_warning nat true 0%nat toy_compress os_ok sargs [sched]
                 (static_init nat) = false) by (vm_compute; reflexivity).
  split; [exact Hw|].
  exact (csv_file_is_the_tree nat true 0%nat toy_compress
           os_ok sargs [sched] (static_init nat) None st_root
           static_init_ok eq_refl eq_refl Hw eq_refl).
Defined.

Lemma compressed_file_is_the_tree_witness :
  timeout_warning nat true 0%nat toy_compress os_ok zargs [sched]
    (static_init nat) = false
  /\ exists bl : list (list bytes),
       concat bl ≡ₚ map line_of (walk_dir 1 "/t2" st_root 0 (-1) (Some tree))
       /\ f_data (output_file nat
            (snd (csv_write nat true 0%nat toy_compress os_ok zargs [sched]
                            (static_init nat))))
          = bytes_of header
            ++ snd (compress_all nat toy_compress 0%nat (map (@concat ascii) bl))
            ++ ["E"%char].
Proof.
  assert (Hw : timeout_warning nat true 0%nat toy_compress os_ok zargs [sched]
                 (static_init nat) = false) by (vm_compute; reflexivity).
  assert (Hc : zargs.(compress) <> 0) by (vm_compute; discriminate).
  split; [exact Hw|].
  exact (compressed_file_is_the_tree nat true 0%nat toy_compress
           os_ok zargs [sched] (static_init nat) None st_root
           static_init_ok eq_refl eq_refl Hw eq_refl Hc).
Defined.

Lemma unopenable_root_witness :
  root_dir os_locked = None
  /\ fst (csv_write nat true 0%nat toy_compress os_locked sargs [sched]
                    (static_init nat))
     = Py_Dict "out.csv" 0
  /\ f_data (output_file nat
       (snd (csv_write nat true 0%nat toy_compress os_locked sargs [sched]
                       (static_init nat))))
     = bytes_of header.
Proof.
  pose proof (unopenable_root nat true 0%nat toy_compress
                os_locked sargs [sched] (static_init nat) None st_locked
                static_init_ok eq_refl eq_refl eq_refl eq_refl) as (H1 & _ & H3).
  split; [reflexivity|]. split; [exact H1|exact H3].
Defined.

Lemma compressor_outlives_failed_call_witness :
  zargs.(compress) <> 0 /\ sargs.(compress) = 0
  /\ root_lstat os_noroot = None
  /\ zstd_stream nat
       (snd (csv_write nat true 0%nat toy_compress os_noroot zargs [sched]
                       (static_init nat))) = Some 0%nat
  /\ fst (csv_write nat true 0%nat toy_compress os_ok sargs [sched]
            (snd (csv_write nat true 0%nat toy_compress os_noroot zargs
                            [sched] (static_init nat))))
     = Py_Dict "out.csv" 0.
Proof.
  assert (Hc : zargs.(compress) <> 0) by (vm_compute; discriminate).
  pose proof (compressor_outlives_failed_call nat true 0%nat toy_compress
                os_noroot zargs [sched] (static_init nat) None
                static_init_ok eq_refl Hc eq_refl eq_refl) as (_ & H2 & H3).
  split; [exact Hc|]. split; [reflexivity|]. split; [reflexivity|].
  split; [exact H2|].
  exact (proj1 (H3 os_ok sargs [sched] None st_root eq_refl eq_refl eq_refl)).
Defined.

Lemma records_form_a_tree_witness :
  quiescent nat s_end
  /\ In (EvRecord 0 0 rec_a) (trace nat s_end)
  /\ ((r_path rec_a = top sargs /\ r_st rec_a = st_root /\ r_parent_inode rec_a = 0
       /\ r_depth rec_a = -1 /\ is_summary rec_a = true)
      \/ exists fid' b' rp,
           In (EvRecord fid' b' rp) (trace nat s_end) /\ is_summary rp = true
           /\ r_parent_inode rec_a = st_ino (r_st rp)
           /\ (exists name, r_path rec_a = fullpath_of (r_path rp) name)
           /\ r_depth rec_a = r_depth rp + (if is_summary rec_a then 1 else 0)).
Proof.
  assert (Hq : quiescent nat s_end) by (vm_compute; reflexivity).
  assert (Hin : In (EvRecord 0 0 rec_a) (trace nat s_end)) by find_in.
  split; [exact Hq|]. split; [exact Hin|].
  exact (records_form_a_tree nat true 0%nat toy_compress
           sargs None st_root (Some tree) (static_init nat) s_end
           static_init_ok s_end_reachable Hq 0%nat 0%nat rec_a Hin).
Defined.

Lemma zero_counter_means_done_witness :
  ThreadCNT nat s_end = 0
  /\ run nat true toy_compress [0%nat; 1%nat; 2%nat] s_end = s_end.
Proof.
  assert (H0 : ThreadCNT nat s_end = 0) by reflexivity.
  split; [exact H0|].
  exact (proj2 (zero_counter_means_done nat true 0%nat toy_compress
                  sargs None st_root (Some tree) (static_init nat) s_end
                  static_init_ok s_end_reachable) H0 [0%nat; 1%nat; 2%nat]).
Defined.

Lemma record_line_reads_back_witness :
  strlen (csv_escape (ext_of (filename_of (r_path rec_a)))) < ESC_EXT_SIZE
  /\ strlen (record_text rec_a) < LINE_SIZE
  /\ line_of rec_a = bytes_of (record_text rec_a)
  /\ csv_read FieldStart EmptyString [] (record_text rec_a)
     = Some (field_values rec_a)
  /\ field_values rec_a !! 3%nat = Some "a.txt"
  /\ field_values rec_a !! 4%nat = Some "txt".
Proof.
  assert (He : strlen (csv_escape (ext_of (filename_of (r_path rec_a)))) < ESC_EXT_SIZE)
    by (vm_compute; reflexivity).
  assert (H : strlen (record_text rec_a) < LINE_SIZE) by (vm_compute; reflexivity).
  pose proof (record_line_reads_back rec_a He H) as (_ & H2 & H3 & _ & H5 & H6 & _).
  split; [exact He|]. split; [exact H|]. split; [exact H2|].
  split; [exact H3|]. split; [exact H5|exact H6].
Defined.

Lemma compress_flag_without_zstd_witness :
  snd (csv_write nat false 0%nat toy_compress os_ok zargs [sched]
                 (static_init nat))
  = snd (csv_write nat false 0%nat toy_compress os_ok sargs [sched]
                   (static_init nat))
  /\ fst (csv_write nat false 0%nat toy_compress os_ok zargs [sched]
                    (static_init nat))
     = Py_Dict "out.csv" 1.
Proof.
  pose proof (compress_flag_without_zstd nat false 0%nat toy_compress
                os_ok zargs [sched] (static_init nat) None st_root
                eq_refl eq_refl eq_refl) as (H1 & H2 & _).
  split; [exact H1|exact H2].
Defined.
